(** * estree-analyzer: type lattice, scopes, analysis, walker and token buffer

    A shallow embedding of the parts of the library that its specification
    makes claims about, and the theorems that settle those claims.

    The model:
    - [Types]       src/types.js
    - [ScopeModel]  the Scope class
    - [Analyze]     src/analyze.mjs (an expression fragment)
    - [Walk]        the table-driven AST walker
    - [TokenBuffer] the Formatter token buffer (line filling)

    The facts, one module per model module: [TypesFacts], [ScopeFacts],
    [AnalyzeFacts], [WalkFacts], [TokenBufferFacts].

    JavaScript values are modelled as follows.  [undefined] is [None] of an
    [option]; a call that can throw returns an [Outcome]; a call whose
    recursion may not end returns an [option], [None] standing for no
    result.  Strings are ASCII, so that [String.length] is the JavaScript
    [length].  Objects are modelled by their value; where the code tells
    objects apart by reference (the [Set] of [union]) their addresses are
    given beside the values. *)

From Stdlib Require Import List String Ascii Bool Arith ZArith Lia.
Import ListNotations.
Open Scope string_scope.
Set Warnings "-register-all".

(** ** Small helpers shared by all modules *)

(** JavaScript [a.join(sep)] on an array of strings. *)
Fixpoint join (sep : string) (l : list string) : string :=
  match l with
  | [] => ""
  | [x] => x
  | x :: r => x ++ sep ++ join sep r
  end.

Section Equalities.
Context {A : Type} (eqb : A -> A -> bool).

Definition option_eqb (x y : option A) : bool :=
  match x, y with
  | Some a, Some b => eqb a b
  | None, None => true
  | _, _ => false
  end.

Fixpoint list_eqb (x y : list A) : bool :=
  match x, y with
  | [], [] => true
  | a :: x', b :: y' => eqb a b && list_eqb x' y'
  | _, _ => false
  end.
End Equalities.

(** Exceptions: the built-in error classes the modelled code can raise, and
    [Error(msg)] for its own [throw new Error(...)]. *)
Inductive JsError :=
| TypeError
| ReferenceError
| RangeError
| Error (msg : string).

(** A call that returns a value or throws. *)
Inductive Outcome (A : Type) :=
| Ok (a : A)
| Throws (e : JsError).
Arguments Ok {A} _.
Arguments Throws {A} _.

Definition bind {A B : Type} (x : Outcome A) (f : A -> Outcome B) : Outcome B :=
  match x with
  | Ok a => f a
  | Throws e => Throws e
  end.

(** * The type lattice (src/types.js) *)
Module Types.

(** [TypeKind]: the frozen enumeration of kind strings. *)
Inductive TypeKind :=
| KUndefined | KNull | KBoolean | KNumber | KString | KSymbol
| KObject | KFunction | KArray | KUnion | KAny.

Definition kindName (k : TypeKind) : string :=
  match k with
  | KUndefined => "undefined" | KNull => "null" | KBoolean => "boolean"
  | KNumber => "number" | KString => "string" | KSymbol => "symbol"
  | KObject => "object" | KFunction => "function" | KArray => "array"
  | KUnion => "union" | KAny => "any"
  end.

Definition kind_eqb (a b : TypeKind) : bool :=
  match a, b with
  | KUndefined, KUndefined | KNull, KNull | KBoolean, KBoolean
  | KNumber, KNumber | KString, KString | KSymbol, KSymbol
  | KObject, KObject | KFunction, KFunction | KArray, KArray
  | KUnion, KUnion | KAny, KAny => true
  | _, _ => false
  end.

(** A function [Parameter] object: [{name?, type?}]. *)
Record Param (T : Type) := mkParameter {
  name : option string;
  type : option T
}.
Arguments mkParameter {T} _ _.
Arguments name {T} _.
Arguments type {T} _.

(** A [Type] value as the functions of types.js can meet it:
    - [TKind k]: the shorthand string ['k'];
    - [TAlts ts]: the shorthand array [Type[]], a union;
    - [TObject kind returns params elements anyOf]: a [TypeObject], every
      property but [kind] optional;
    - [TIteratorResult v]: the object [{value: v, done: false}] that
      [Set.prototype.values().next()] yields; it has no [kind] property.
    An absent type ([undefined]) is [None : option Ty]. *)
Inductive Ty :=
| TKind (k : TypeKind)
| TAlts (alts : list Ty)
| TObject (kind : TypeKind) (returns : option Ty)
          (params : option (list (Param Ty)))
          (elements : option Ty) (anyOf : option (list Ty))
| TIteratorResult (value : Ty).

(** Structural induction for the nested type. *)
Section TyInduction.
Variable P : Ty -> Prop.

Definition OptP (o : option Ty) : Prop :=
  match o with Some t => P t | None => True end.

Hypothesis HKind : forall k, P (TKind k).
Hypothesis HAlts : forall ts, Forall P ts -> P (TAlts ts).
Hypothesis HObject : forall k r ps e a,
    OptP r ->
    match ps with Some l => Forall (fun p => OptP (type p)) l | None => True end ->
    OptP e ->
    match a with Some l => Forall P l | None => True end ->
    P (TObject k r ps e a).
Hypothesis HIter : forall v, P v -> P (TIteratorResult v).

Fixpoint Ty_ind' (t : Ty) : P t :=
  let opt (o : option Ty) : OptP o :=
    match o return OptP o with Some x => Ty_ind' x | None => I end in
  let all := fix all (l : list Ty) : Forall P l :=
    match l return Forall P l with
    | [] => Forall_nil _
    | x :: r => Forall_cons _ (Ty_ind' x) (all r)
    end in
  match t return P t with
  | TKind k => HKind k
  | TAlts ts => HAlts ts (all ts)
  | TObject k r ps e a =>
      HObject k r ps e a (opt r)
        (match ps return
               match ps with
               | Some l => Forall (fun p => OptP (type p)) l
               | None => True end
         with
         | Some l =>
             (fix allp (l : list (Param Ty)) :
                Forall (fun p => OptP (type p)) l :=
                match l return Forall (fun p => OptP (type p)) l with
                | [] => Forall_nil _
                | p :: r =>
                    @Forall_cons _ (fun p => OptP (type p)) p r
                      (match p return OptP (type p) with
                       | mkParameter _ ty =>
                           match ty return OptP ty with
                           | Some x => Ty_ind' x
                           | None => I
                           end
                       end)
                      (allp r)
                end) l
         | None => I
         end)
        (opt e)
        (match a return match a with Some l => Forall P l | None => True end
         with Some l => all l | None => I end)
  | TIteratorResult v => HIter v (Ty_ind' v)
  end.
End TyInduction.

(** Equality of structure.  It stands for [!==] where the conversions
    compare a value with its converted form ([mapIfChanged], the
    [transform] functions): a conversion returns its argument itself or a
    value of another structure, so that there comparison by reference and
    by structure agree.  The [Set] of [union] has keys of its own. *)
Fixpoint Ty_eqb (a b : Ty) : bool :=
  match a, b with
  | TKind k1, TKind k2 => kind_eqb k1 k2
  | TAlts l1, TAlts l2 => list_eqb Ty_eqb l1 l2
  | TObject k1 r1 p1 e1 a1, TObject k2 r2 p2 e2 a2 =>
      kind_eqb k1 k2 && option_eqb Ty_eqb r1 r2
      && option_eqb
           (list_eqb (fun p q =>
                        option_eqb String.eqb (name p) (name q)
                        && option_eqb Ty_eqb (type p) (type q))) p1 p2
      && option_eqb Ty_eqb e1 e2
      && option_eqb (list_eqb Ty_eqb) a1 a2
  | TIteratorResult v1, TIteratorResult v2 => Ty_eqb v1 v2
  | _, _ => false
  end.

(** [arrayOf(elements)]: [!elements ? 'array' : {kind: 'array', elements}]. *)
Definition arrayOf (elements : option Ty) : Ty :=
  match elements with
  | None => TKind KArray
  | Some e => TObject KArray None None (Some e) None
  end.

(** [getKind(type)]:
    [typeof type === 'object' ? (Array.isArray(type) ? 'union' : type.kind) : type]. *)
Definition getKind (t : option Ty) : option TypeKind :=
  match t with
  | None => None
  | Some (TKind k) => Some k
  | Some (TAlts _) => Some KUnion
  | Some (TObject k _ _ _ _) => Some k
  | Some (TIteratorResult _) => None
  end.

Definition kindIs (k : option TypeKind) (k' : TypeKind) : bool :=
  match k with Some x => kind_eqb x k' | None => false end.

(** [isUnion(type)]: [Array.isArray(type) || (!!type && type.kind === 'union')].
    The string ['union'] has no [kind] property. *)
Definition isUnion (t : option Ty) : bool :=
  match t with
  | Some (TAlts _) => true
  | Some (TObject KUnion _ _ _ _) => true
  | _ => false
  end.

(** [getUnionTypes(type)]:
    [Array.isArray(type) ? type : type ? type.anyOf || [type] : []]. *)
Definition getUnionTypes (t : option Ty) : list Ty :=
  match t with
  | None => []
  | Some (TAlts ts) => ts
  | Some (TObject _ _ _ _ (Some ts)) => ts
  | Some x => [x]
  end.

(** [hasKind(type, kind)]. *)
Definition hasKind (t : option Ty) (k : TypeKind) : bool :=
  match t with
  | Some (TAlts ts) => existsb (fun x => kindIs (getKind (Some x)) k) ts
  | _ => kindIs (getKind t) k
  end.

(** [isFalsy(type)]: an array is always falsy when it is not empty and all
    its elements are; anything else is judged by its kind. *)
Fixpoint isFalsyTy (t : Ty) : bool :=
  match t with
  | TAlts ts =>
      negb (Nat.eqb (List.length ts) 0) && forallb isFalsyTy ts
  | _ => kindIs (getKind (Some t)) KUndefined || kindIs (getKind (Some t)) KNull
  end.

Definition isFalsy (t : option Ty) : bool :=
  match t with Some x => isFalsyTy x | None => false end.

Fixpoint isTruthyTy (t : Ty) : bool :=
  match t with
  | TAlts ts =>
      negb (Nat.eqb (List.length ts) 0) && forallb isTruthyTy ts
  | _ =>
      let k := getKind (Some t) in
      kindIs k KSymbol || kindIs k KObject || kindIs k KFunction || kindIs k KArray
  end.

Definition isTruthy (t : option Ty) : bool :=
  match t with Some x => isTruthyTy x | None => false end.

(** Property reads [type.returns], [type.params], [type.elements]; a string
    or an array has none of these properties. *)
Definition returnsOf (t : option Ty) : option Ty :=
  match t with Some (TObject _ r _ _ _) => r | _ => None end.
Definition paramsOf (t : option Ty) : option (list (Param Ty)) :=
  match t with Some (TObject _ _ ps _ _) => ps | _ => None end.
Definition elementsOf (t : option Ty) : option Ty :=
  match t with Some (TObject _ _ _ e _) => e | _ => None end.

(** What [isAssignable] can return: [true], [false], or [undefined] (when
    the [switch] matches no case). *)
Inductive JsBool := JTrue | JFalse | JUndefined.

Definition truthy (b : JsBool) : bool :=
  match b with JTrue => true | _ => false end.
Definition ofBool (b : bool) : JsBool := if b then JTrue else JFalse.

(** [Array.prototype.every] and [some] with a callback that may fail to
    return ([None]); both stop at the first deciding element. *)
Section Quantifiers.
Context {A : Type} (f : A -> option JsBool).

Fixpoint every (l : list A) : option JsBool :=
  match l with
  | [] => Some JTrue
  | x :: r =>
      match f x with
      | None => None
      | Some v => if truthy v then every r else Some JFalse
      end
  end.

Fixpoint some (l : list A) : option JsBool :=
  match l with
  | [] => Some JFalse
  | x :: r =>
      match f x with
      | None => None
      | Some v => if truthy v then Some JTrue else some r
      end
  end.
End Quantifiers.

Definition kindOpt_eqb (a b : option TypeKind) : bool := option_eqb kind_eqb a b.

(** One unfolding of [isAssignable(target, source)]; [rec] stands for the
    recursive calls. *)
Definition isAssignable_body
    (rec : option Ty -> option Ty -> option JsBool)
    (target source : option Ty) : option JsBool :=
  if isUnion source then
    every (fun t => rec target (Some t)) (getUnionTypes source)
  else if isUnion target then
    some (fun t => rec (Some t) source) (getUnionTypes target)
  else
    let targetKind := getKind target in
    let sourceKind := getKind source in
    match targetKind with
    | None => Some JFalse
    | Some KUndefined | Some KNull | Some KBoolean
    | Some KNumber | Some KString | Some KSymbol =>
        Some (ofBool (kindOpt_eqb sourceKind targetKind))
    | Some KObject =>
        Some (ofBool (kindOpt_eqb sourceKind targetKind
                      || kindOpt_eqb sourceKind (Some KArray)))
    | Some KFunction =>
        if negb (kindOpt_eqb sourceKind targetKind) then Some JFalse
        else
          match rec (returnsOf target) (returnsOf source) with
          | None => None
          | Some r =>
              if negb (truthy r) then Some r
              else
                match paramsOf target, paramsOf source with
                | Some tps, Some sps =>
                    if Nat.eqb (List.length tps) (List.length sps) then
                      every (fun pq => rec (type (fst pq)) (type (snd pq)))
                            (combine sps tps)
                    else Some JFalse
                | _, _ => Some JFalse
                end
          end
    | Some KArray =>
        if kindOpt_eqb sourceKind targetKind
        then rec (elementsOf target) (elementsOf source)
        else Some JFalse
    | Some KAny => Some JTrue
    | Some KUnion => Some JUndefined
    end.

(** The recursion of [isAssignable] follows no single argument (parameters
    swap target and source), so it is unfolded [fuel] times; [None] means
    that the call did not return within that depth. *)
Fixpoint isAssignable_fuel (fuel : nat) (target source : option Ty)
  : option JsBool :=
  match fuel with
  | O => None
  | S n => isAssignable_body (isAssignable_fuel n) target source
  end.

(** Number of nodes of a type value. *)
Fixpoint size (t : Ty) : nat :=
  let opt (o : option Ty) :=
    match o with Some x => size x | None => 0 end in
  match t with
  | TKind _ => 1
  | TAlts ts => S (list_sum (map size ts))
  | TObject _ r ps e a =>
      S (opt r
         + match ps with
           | Some l => list_sum (map (fun p => S (match type p with
                                               | Some x => size x
                                               | None => 0 end)) l)
           | None => 0
           end
         + opt e
         + match a with Some l => list_sum (map size l) | None => 0 end)
  | TIteratorResult v => S (size v)
  end.

Definition sizeOpt (o : option Ty) : nat :=
  match o with Some x => size x | None => 0 end.

(** [isAssignable(target, source)], with a recursion depth that suffices
    whenever the JavaScript call returns at all (see [isAssignable_fuel_enough]). *)
Definition isAssignable (target source : option Ty) : option JsBool :=
  isAssignable_fuel (S (sizeOpt target + sizeOpt source)) target source.

(** [isNotAssignable(target, source)]: [!!target && !isAssignable(target, source)]. *)
Definition isNotAssignable (target source : option Ty) : option bool :=
  match target with
  | None => Some false
  | Some _ => option_map (fun r => negb (truthy r)) (isAssignable target source)
  end.

(** A JavaScript [Set] of alternatives, in insertion order.  Membership is
    SameValueZero: a kind string is compared by value, an object (a type
    object, an array of alternatives, an iterator result) by reference.  A
    member is kept with its key: the kind for a string, the address of the
    object otherwise. *)
Inductive Key :=
| KeyString (k : TypeKind)
| KeyObject (address : nat).

Definition Key_eqb (x y : Key) : bool :=
  match x, y with
  | KeyString k1, KeyString k2 => kind_eqb k1 k2
  | KeyObject a1, KeyObject a2 => Nat.eqb a1 a2
  | _, _ => false
  end.

Definition Member : Type := Key * Ty.

Definition keyOf (address : nat) (t : Ty) : Key :=
  match t with
  | TKind k => KeyString k
  | _ => KeyObject address
  end.

Definition set_has (m : list Member) (x : Member) : bool :=
  existsb (fun y => Key_eqb (fst x) (fst y)) m.
Definition set_add (m : list Member) (x : Member) : list Member :=
  if set_has m x then m else m ++ [x].
Definition set_delete (m : list Member) (x : Member) : list Member :=
  filter (fun y => negb (Key_eqb (fst x) (fst y))) m.
Definition set_of (l : list Member) : list Member := fold_left set_add l [].

(** The elements of an array of alternatives with their keys, from index
    [i] on: [address j] is the address of the object at index [j]. *)
Fixpoint located (address : nat -> nat) (i : nat) (l : list Ty) : list Member :=
  match l with
  | [] => []
  | t :: rest => (keyOf (address i) t, t) :: located address (S i) rest
  end.

(** The pairwise comparison of the elements of [a] and [b] in [union]:
    the inner loop over [aTypes] for one element [be] of [b]. *)
Fixpoint mergeOne (be : Member) (aTypes : list Member) (members : list Member)
  : option (list Member) :=
  match aTypes with
  | [] => Some members
  | ae :: rest =>
      match isAssignable (Some (snd be)) (Some (snd ae)) with
      | None => None
      | Some r1 =>
          if truthy r1 then
            match isAssignable (Some (snd ae)) (Some (snd be)) with
            | None => None
            | Some r2 =>
                if truthy r2 then mergeOne be rest members
                else mergeOne be rest (set_add (set_delete members ae) be)
            end
          else
            match isAssignable (Some (snd ae)) (Some (snd be)) with
            | None => None
            | Some r2 =>
                if truthy r2 then mergeOne be rest members
                else mergeOne be rest (set_add members be)
            end
      end
  end.

(** The outer loop over the elements of [b]. *)
Fixpoint mergeAll (bTypes aTypes : list Member) (members : list Member)
  : option (list Member) :=
  match bTypes with
  | [] => Some members
  | be :: rest =>
      match mergeOne be aTypes members with
      | None => None
      | Some m => mergeAll rest aTypes m
      end
  end.

(** [union(a, b)], where the alternative at index [i] of [a] is the object
    at [addressA i] and the one at index [j] of [b] the object at
    [addressB j]: the [Set] of the pairwise merge tells objects apart by
    these addresses.  The inner [option] is the JavaScript result ([None]
    is [undefined]); the outer one is [None] when a call of [isAssignable]
    does not return. *)
Definition unionAt (addressA addressB : nat -> nat) (a b : option Ty)
  : option (option Ty) :=
  match a, b with
  | Some ta, Some tb =>
      match isAssignable a b with
      | None => None
      | Some r1 =>
          if truthy r1 then Some a
          else
            match isAssignable b a with
            | None => None
            | Some r2 =>
                if truthy r2 then Some b
                else if isUnion a then
                  if isUnion b then
                    let aTypes := located addressA 0 (getUnionTypes a) in
                    match mergeAll (located addressB 0 (getUnionTypes b))
                                   aTypes (set_of aTypes) with
                    | None => None
                    | Some members =>
                        Some (Some
                          match members with
                          | [m] => TIteratorResult (snd m)
                          | _ => TAlts (map snd members)
                          end)
                    end
                  else Some (Some (TAlts (getUnionTypes a ++ [tb])))
                else if isUnion b then
                  Some (Some (TAlts (ta :: getUnionTypes b)))
                else Some (Some (TAlts [ta; tb]))
            end
      end
  | _, _ => Some None
  end.

(** The addresses of two values built apart, as by two literals: every
    alternative is an object of its own. *)
Definition apartA (i : nat) : nat := i.
Definition apartB (a : option Ty) (j : nat) : nat :=
  List.length (getUnionTypes a) + j.

(** The addresses when alternatives of equal structure are one object, as
    they are when both arguments are the same value: the address of an
    alternative is the index of the first alternative of that structure
    among [all]. *)
Fixpoint firstIndex (t : Ty) (all : list Ty) : nat :=
  match all with
  | [] => 0
  | x :: rest => if Ty_eqb t x then 0 else S (firstIndex t rest)
  end.

Definition sharedAddress (all l : list Ty) (i : nat) : nat :=
  match nth_error l i with
  | Some t => firstIndex t all
  | None => List.length all + i
  end.

(** [union(a, b)] as a function of the two values alone: alternatives of
    equal structure are taken as one object.  Where the alternatives are
    kind strings the addresses play no part. *)
Definition union (a b : option Ty) : option (option Ty) :=
  let all := (getUnionTypes a ++ getUnionTypes b)%list in
  unionAt (sharedAddress all (getUnionTypes a))
          (sharedAddress all (getUnionTypes b)) a b.

(** *** formatType *)

(** All results of a list of calls, unless one of them does not return. *)
Fixpoint sequence {A : Type} (l : list (option A)) : option (list A) :=
  match l with
  | [] => Some []
  | None :: _ => None
  | Some x :: r =>
      match sequence r with Some r' => Some (x :: r') | None => None end
  end.

Definition nonEmptyName (n : option string) : option string :=
  match n with
  | Some "" => None
  | _ => n
  end.

(** [if (precedence < contextPrecedence) result = `(${result})`]: the local
    [precedence] is [undefined] until an operator assigns it, and
    [undefined < n] is false. *)
Definition parenthesize (precedence : option nat) (contextPrecedence : nat)
    (result : string) : string :=
  match precedence with
  | Some p => if Nat.ltb p contextPrecedence then "(" ++ result ++ ")" else result
  | None => result
  end.

(** [formatType(type, contextPrecedence)] on a defined type.  [None]: the
    call does not return (for a union object without [anyOf],
    [getUnionTypes(type)] is [[type]] and [formatType(type, 1)] calls itself
    without end). *)
Fixpoint formatTy (t : Ty) (contextPrecedence : nat) : option string :=
  let formatUnion (alts : list Ty) :=
    match sequence (map (fun alt => formatTy alt 1) alts) with
    | None => None
    | Some parts =>
        Some (parenthesize (match alts with [] => None | _ => Some 1 end)
                           contextPrecedence (join " | " parts))
    end in
  match t with
  | TAlts alts => formatUnion alts
  | TObject KUnion _ _ _ (Some alts) => formatUnion alts
  | TObject KUnion _ _ _ None => None
  | TKind k => Some (kindName k)
  | TObject KFunction r ps _ _ =>
      let formatParam (param : Param Ty) : option string :=
        match match type param with
              | Some pt => formatTy pt 0
              | None => Some "unknown"
              end with
        | None => None
        | Some paramType =>
            Some match nonEmptyName (name param), type param with
                 | Some n, Some _ => n ++ ": " ++ paramType
                 | _, Some _ => ":" ++ paramType
                 | Some n, None => n
                 | None, None => "_"
                 end
        end in
      match match ps with
            | Some l =>
                match sequence (map formatParam l) with
                | Some strs => Some ("(" ++ join ", " strs ++ ")")
                | None => None
                end
            | None => Some ""
            end with
      | None => None
      | Some paramList =>
          match r with
          | Some rt =>
              match formatTy rt 2 with
              | None => None
              | Some rs =>
                  Some (parenthesize (Some 2) contextPrecedence
                          ("function" ++ paramList ++ ": " ++ rs))
              end
          | None => Some ("function" ++ paramList)
          end
      end
  | TObject KArray _ _ (Some e) _ =>
      match formatTy e 3 with
      | None => None
      | Some es => Some (es ++ "[]")
      end
  | TObject k _ _ _ _ => Some (kindName k)
  | TIteratorResult _ => Some "unknown"
  end.

Definition formatType (t : option Ty) (contextPrecedence : nat) : option string :=
  match t with
  | Some x => formatTy x contextPrecedence
  | None => Some "unknown"
  end.

(** [formatParam(param)]. *)
Definition formatParam (param : Param Ty) : option string :=
  match formatType (type param) 0 with
  | None => None
  | Some paramType =>
      Some match nonEmptyName (name param), type param with
           | Some n, Some _ => n ++ ": " ++ paramType
           | _, Some _ => ":" ++ paramType
           | Some n, None => n
           | None, None => "_"
           end
  end.

(** *** toCanonical and toShorthand *)

Section MapOutcome.
Context {A B : Type} (f : A -> Outcome B).

(** [arr.map(fn)] where [fn] may throw. *)
Fixpoint mapOutcome (l : list A) : Outcome (list B) :=
  match l with
  | [] => Ok []
  | x :: r =>
      bind (f x) (fun y => bind (mapOutcome r) (fun r' => Ok (y :: r')))
  end.

(** [o && fn(o)] on an optional property. *)
Definition optOutcome (o : option A) : Outcome (option B) :=
  match o with
  | Some x => bind (f x) (fun y => Ok (Some y))
  | None => Ok None
  end.
End MapOutcome.

Definition Param_eqb (p q : Param Ty) : bool :=
  option_eqb String.eqb (name p) (name q) && option_eqb Ty_eqb (type p) (type q).

(** [mapIfChanged(arr, fn)]: [arr] itself when [fn] leaves every element
    identical, the mapped array otherwise. *)
Definition mapIfChanged {A : Type} (eqb : A -> A -> bool)
    (fn : A -> Outcome A) (arr : list A) : Outcome (list A) :=
  bind (mapOutcome fn arr)
       (fun newArr => Ok (if list_eqb eqb arr newArr then arr else newArr)).

(** [transformFunction(type, fn)].  [fn] is applied to the return type and,
    through [mapIfChanged(type.params, fn)], to the Parameter objects
    themselves ([fnParam] is [fn] on such an object).  The assignment to the
    undeclared [results] throws a ReferenceError. *)
Definition transformFunction (fn : Ty -> Outcome Ty)
    (fnParam : Param Ty -> Outcome (Param Ty)) (t : Ty) : Outcome Ty :=
  match t with
  | TObject k r ps e a =>
      bind (optOutcome fn r) (fun returns =>
      bind (optOutcome (mapIfChanged Param_eqb fnParam) ps) (fun params =>
        let returnsChanged := negb (option_eqb Ty_eqb returns r) in
        let paramsChanged := negb (option_eqb (list_eqb Param_eqb) params ps) in
        if returnsChanged || paramsChanged then
          let result :=
            if returnsChanged then TObject k returns ps e a else t in
          if paramsChanged then Throws ReferenceError else Ok result
        else Ok t))
  | _ => Ok t
  end.

(** [transformArray(type, fn)]. *)
Definition transformArray (fn : Ty -> Outcome Ty) (t : Ty) : Outcome Ty :=
  match t with
  | TObject k r ps (Some e) a =>
      bind (fn e) (fun elements =>
        if negb (Ty_eqb elements e) then Ok (TObject k r ps (Some elements) a)
        else Ok t)
  | _ => Ok t
  end.

(** [transformUnion(type, fn)]. *)
Definition transformUnion (fn : Ty -> Outcome Ty) (t : Ty) : Outcome Ty :=
  match t with
  | TObject k r ps e (Some alts) =>
      bind (mapIfChanged Ty_eqb fn alts) (fun anyOf =>
        if negb (list_eqb Ty_eqb anyOf alts) then Ok (TObject k r ps e (Some anyOf))
        else Ok t)
  | _ => Ok t
  end.

(** [toCanonical] and [toShorthand] applied to a Parameter object: it is
    neither an array nor a string and has no [kind], so [transformNested]
    takes its [default] branch and [toShorthand] falls through to
    [return type]. *)
Definition toCanonicalParam (p : Param Ty) : Outcome (Param Ty) := Ok p.
Definition toShorthandParam (p : Param Ty) : Outcome (Param Ty) := Ok p.

(** [toCanonical(type)] on a defined type ([transformNested] inlined as its
    [switch]). *)
Fixpoint toCanonicalTy (t : Ty) : Outcome Ty :=
  match t with
  | TAlts alts =>
      bind (mapOutcome toCanonicalTy alts) (fun anyOf =>
        Ok (TObject KUnion None None None (Some anyOf)))
  | TKind k => Ok (TObject k None None None None)
  | TObject KFunction _ _ _ _ => transformFunction toCanonicalTy toCanonicalParam t
  | TObject KArray _ _ _ _ => transformArray toCanonicalTy t
  | TObject KUnion _ _ _ _ => transformUnion toCanonicalTy t
  | TObject _ _ _ _ _ => Ok t
  | TIteratorResult _ => Ok t
  end.

Definition toCanonical (t : option Ty) : Outcome (option Ty) :=
  optOutcome toCanonicalTy t.

(** [toShorthand(type)] on a defined type. *)
Fixpoint toShorthandTy (t : Ty) : Outcome Ty :=
  match t with
  | TObject KFunction None None _ _ => Ok (TKind KFunction)
  | TObject KFunction _ _ _ _ => transformFunction toShorthandTy toShorthandParam t
  | TObject KArray _ _ None _ => Ok (TKind KArray)
  | TObject KArray _ _ _ _ => transformArray toShorthandTy t
  | TObject KUnion _ _ _ (Some alts) =>
      bind (mapIfChanged Ty_eqb toShorthandTy alts) (fun l => Ok (TAlts l))
  | TObject KUnion _ _ _ None => Throws TypeError
  | TObject k _ _ _ _ => Ok (TKind k)
  | TAlts alts =>
      bind (mapIfChanged Ty_eqb toShorthandTy alts) (fun l => Ok (TAlts l))
  | TKind _ => Ok t
  | TIteratorResult _ => Ok t
  end.

Definition toShorthand (t : option Ty) : Outcome (option Ty) :=
  optOutcome toShorthandTy t.


(** *** Notions used in the statements about the lattice *)

(** The recursive calls one unfolding of [isAssignable target source] can make. *)
Inductive subcall (t s : option Ty) : option Ty -> option Ty -> Prop :=
| sub_source x :
    isUnion s = true -> In x (getUnionTypes s) -> subcall t s t (Some x)
| sub_target x :
    isUnion s = false -> isUnion t = true -> In x (getUnionTypes t) ->
    subcall t s (Some x) s
| sub_returns :
    isUnion s = false -> isUnion t = false ->
    getKind t = Some KFunction -> getKind s = Some KFunction ->
    subcall t s (returnsOf t) (returnsOf s)
| sub_params tps sps p q :
    isUnion s = false -> isUnion t = false ->
    getKind t = Some KFunction -> getKind s = Some KFunction ->
    paramsOf t = Some tps -> paramsOf s = Some sps ->
    In p sps -> In q tps ->
    subcall t s (type p) (type q)
| sub_elements :
    isUnion s = false -> isUnion t = false ->
    getKind t = Some KArray -> getKind s = Some KArray ->
    subcall t s (elementsOf t) (elementsOf s).

Definition bareUnion (t : option Ty) : bool :=
  match t with
  | Some (TObject KUnion _ _ _ None) => true
  | _ => false
  end.

Definition loops (t s : option Ty) : bool :=
  if isUnion s then bareUnion s
  else if isUnion t then bareUnion t else false.

(** Fully specified types. *)
Fixpoint specified (t : Ty) : bool :=
  let opt (o : option Ty) :=
    match o with Some x => specified x | None => false end in
  match t with
  | TKind KFunction | TKind KArray | TKind KUnion => false
  | TKind _ => true
  | TAlts ts => forallb specified ts
  | TObject KUnion _ _ _ a =>
      match a with Some ts => forallb specified ts | None => false end
  | TObject KFunction r ps _ _ =>
      opt r
      && match ps with
         | Some l => forallb (fun p => match type p with
                                       | Some x => specified x
                                       | None => false end) l
         | None => false
         end
  | TObject KArray _ _ e _ => opt e
  | TObject _ _ _ _ _ => true
  | TIteratorResult _ => false
  end.

Definition specifiedOpt (o : option Ty) : bool :=
  match o with Some x => specified x | None => false end.

Fixpoint representable (t : Ty) : bool :=
  let opt (o : option Ty) :=
    match o with Some x => representable x | None => true end in
  match t with
  | TKind KUnion => false
  | TKind _ => true
  | TAlts ts => forallb representable ts
  | TObject k r ps e a =>
      opt r
      && match ps with
         | Some l => forallb (fun p => match type p with
                                       | Some x => representable x
                                       | None => true end) l
         | None => true
         end
      && opt e
      && match a with
         | Some ts => forallb representable ts
         | None => negb (kind_eqb k KUnion)
         end
  | TIteratorResult _ => false
  end.

Definition roundTrips (t : Ty) : Prop :=
  exists c s, toCanonicalTy t = Ok c /\ toShorthandTy c = Ok s /\ toShorthandTy t = Ok s.

(** The binding tier of a type's outermost operator, in the words of the
    documentation: union 1, function return type 2, array suffix 3; a type
    without such an operator has none. *)
Definition operatorTier (t : Ty) : option nat :=
  match t with
  | TAlts _ => Some 1
  | TObject KUnion _ _ _ _ => Some 1
  | TObject KFunction (Some _) _ _ _ => Some 2
  | TObject KArray _ _ (Some _) _ => Some 3
  | _ => None
  end.

Definition needsParentheses (t : Ty) (contextPrecedence : nat) : bool :=
  match operatorTier t with
  | Some p => Nat.ltb p contextPrecedence
  | None => false
  end.

(** An array type without element type, a function type without return
    type: the kind strings ['array'] and ['function'] and the type objects
    of these kinds without [elements], respectively [returns]. *)
Definition lacksPart (t : Ty) : bool :=
  match getKind (Some t) with
  | Some KArray => match elementsOf (Some t) with None => true | Some _ => false end
  | Some KFunction => match returnsOf (Some t) with None => true | Some _ => false end
  | _ => false
  end.

Definition exampleType : Ty :=
  TObject KArray None None
    (Some (TObject KFunction
             (Some (TAlts [TKind KNumber; TKind KString]))
             (Some [mkParameter None (Some (TAlts [TKind KString; TKind KNull]))])
             None None))
    None.

(** *** Further notions: well-formed types, canonical and shorthand forms *)

(** No union object without [anyOf], at any depth: the values on which the
    recursion of [isAssignable] ends. *)
Fixpoint wellFormed (t : Ty) : bool :=
  let opt (o : option Ty) :=
    match o with Some x => wellFormed x | None => true end in
  match t with
  | TKind _ => true
  | TAlts ts => forallb wellFormed ts
  | TObject k r ps e a =>
      opt r
      && match ps with
         | Some l => forallb (fun p => match type p with
                                       | Some x => wellFormed x
                                       | None => true end) l
         | None => true
         end
      && opt e
      && match a with
         | Some ts => forallb wellFormed ts
         | None => negb (kind_eqb k KUnion)
         end
  | TIteratorResult v => wellFormed v
  end.

Definition wellFormedOpt (o : option Ty) : bool :=
  match o with Some x => wellFormed x | None => true end.

(** The alternatives a type stands for: those of a union, the type itself
    otherwise. *)
Definition alternativesOf (t : Ty) : list Ty :=
  if isUnion (Some t) then getUnionTypes (Some t) else [t].

Definition covered (x : Ty) (members : list Ty) : Prop :=
  exists m, In m members /\ isAssignable (Some m) (Some x) = Some JTrue.

(** The values of the members of a [Set]. *)
Definition tys (members : list Member) : list Ty := map snd members.

(** Addresses make sense when one object has one structure: two elements
    with the same key are the same value. *)
Definition coherent (l : list Member) : bool :=
  forallb (fun x =>
             forallb (fun y => implb (Key_eqb (fst x) (fst y))
                                     (Ty_eqb (snd x) (snd y))) l) l.

(** Elements drawn from [universe] whose values are fully specified. *)
Definition known (universe l : list Member) : Prop :=
  (forall x, In x l -> In x universe)
  /\ (forall x, In x l -> specified (snd x) = true).

(** The alternatives of [a] and of [b] with their keys. *)
Definition alternativesAt (addressA addressB : nat -> nat) (a b : Ty)
  : list Member :=
  (located addressA 0 (getUnionTypes (Some a))
   ++ located addressB 0 (getUnionTypes (Some b)))%list.

Definition allSpecified (l : list Ty) : Prop := forall x, In x l -> specified x = true.

(** The value [toCanonical] returns, as a function of the type (see
    [toCanonicalTy_canon]). *)
Fixpoint canon (t : Ty) : Ty :=
  match t with
  | TKind k => TObject k None None None None
  | TAlts ts => TObject KUnion None None None (Some (map canon ts))
  | TObject KFunction r ps e a =>
      TObject KFunction (match r with Some x => Some (canon x) | None => None end)
              ps e a
  | TObject KArray r ps (Some x) a => TObject KArray r ps (Some (canon x)) a
  | TObject KUnion r ps e (Some ts) => TObject KUnion r ps e (Some (map canon ts))
  | _ => t
  end.

(** Canonical form: a type object; the return type of a function, the
    element type of an array and the alternatives of a union are canonical
    in turn.  Parameter types are not looked at. *)
Fixpoint canonical (t : Ty) : bool :=
  let opt (o : option Ty) :=
    match o with Some x => canonical x | None => true end in
  match t with
  | TObject KFunction r _ _ _ => opt r
  | TObject KArray _ _ e _ => opt e
  | TObject KUnion _ _ _ a =>
      match a with Some ts => forallb canonical ts | None => false end
  | TObject _ _ _ _ _ => true
  | _ => false
  end.

(** Shorthand form: no type object that has a shorthand (a union object, a
    function object without [returns] and [params], an array object
    without [elements], an object of any other kind), in the type itself,
    its return type, its element type and its alternatives. *)
Fixpoint shorthandForm (t : Ty) : bool :=
  let opt (o : option Ty) :=
    match o with Some x => shorthandForm x | None => true end in
  match t with
  | TKind _ => true
  | TAlts ts => forallb shorthandForm ts
  | TObject KFunction None None _ _ => false
  | TObject KFunction r _ _ _ => opt r
  | TObject KArray _ _ None _ => false
  | TObject KArray _ _ e _ => opt e
  | TObject _ _ _ _ _ => false
  | TIteratorResult _ => false
  end.

Definition canonOpt (o : option Ty) : option Ty :=
  match o with Some x => Some (canon x) | None => None end.
Definition representableOpt (o : option Ty) : bool :=
  match o with Some x => representable x | None => true end.

Definition normalizes (t : Ty) : Prop :=
  exists s, toShorthandTy t = Ok s /\ shorthandForm s = true /\ toShorthandTy s = Ok s.

End Types.

(** * Scopes (the Scope class) *)
Module ScopeModel.

(** The properties every object literal inherits from [Object.prototype].
    [name in obj] and [obj[name]] see them as well as the own properties. *)
Definition objectPrototypeNames : list string :=
  [ "constructor"; "__defineGetter__"; "__defineSetter__"; "hasOwnProperty";
    "__lookupGetter__"; "__lookupSetter__"; "isPrototypeOf";
    "propertyIsEnumerable"; "toString"; "valueOf"; "__proto__";
    "toLocaleString" ].

Definition inherited (name : string) : bool :=
  existsb (String.eqb name) objectPrototypeNames.

Section ScopeClass.
(** [Data]: what a member name is associated with; [This]: the static
    [this] reference. *)
Variables Data This : Type.
(** JavaScript truthiness of member data ([if (member)] in [findMember]). *)
Variable truthyData : Data -> bool.
(** The empty object [{}] as member data. *)
Variable emptyObject : Data.

(** A member map: an ordinary object used as a dictionary.  Its own
    properties are kept in insertion order. *)
Definition Members := list (string * Data).

Fixpoint ownProperty (name : string) (m : Members) : option Data :=
  match m with
  | [] => None
  | (k, d) :: r => if String.eqb name k then Some d else ownProperty name r
  end.

Definition hasOwn (name : string) (m : Members) : bool :=
  match ownProperty name m with Some _ => true | None => false end.

(** [name in members]. *)
Definition hasProperty (name : string) (m : Members) : bool :=
  hasOwn name m || inherited name.

(** The value of [members[name]]. *)
Inductive Property :=
| Own (d : Data)
| FromPrototype (name : string)
| Undefined.

Definition getProperty (name : string) (m : Members) : Property :=
  match ownProperty name m with
  | Some d => Own d
  | None => if inherited name then FromPrototype name else Undefined
  end.

(** A scope with its chain of containing scopes.  The code mutates scope
    objects in place; here every operation that changes a scope returns
    the changed scope, ancestors included. *)
Inductive Scope := mkScope {
  parent : option Scope;
  strict : bool;
  thisRef : option This;
  topLevel : bool;
  members : Members
}.

(** [new Scope()]: all constructor defaults. *)
Definition newScope : Scope := mkScope None false None true [].

(** [Scope.withMembers(members)]. *)
Definition withMembers (m : Members) : Scope := mkScope None false None false m.

(** [createNested()]. *)
Definition createNested (s : Scope) : Scope :=
  mkScope (Some s) (strict s) (thisRef s) false [].

Definition getParent (s : Scope) : option Scope := parent s.

(** [getRoot()]. *)
Fixpoint getRoot (s : Scope) : Scope :=
  match s with
  | mkScope (Some p) _ _ _ _ => getRoot p
  | mkScope None _ _ _ _ => s
  end.

(** [getTopLevel()]. *)
Fixpoint getTopLevel (s : Scope) : Scope :=
  match s with
  | mkScope (Some p) _ _ false _ => getTopLevel p
  | _ => s
  end.

Definition useStrict (s : Scope) : Scope :=
  mkScope (parent s) true (thisRef s) (topLevel s) (members s).
Definition setTopLevel (s : Scope) : Scope :=
  mkScope (parent s) (strict s) (thisRef s) true (members s).

(** [getThis()]. *)
Definition getThis (s : Scope) : option This :=
  match parent s with
  | None => thisRef s
  | Some _ => if strict s then None else thisRef s
  end.

(** [getOwnMember(name)]: [this.members[name]]. *)
Definition getOwnMember (name : string) (s : Scope) : Property :=
  getProperty name (members s).

(** The default parameter [value = {}]: a call without value, or with
    [undefined], takes a new empty object. *)
Definition orEmptyObject (value : option Data) : Data :=
  match value with
  | Some v => v
  | None => emptyObject
  end.

(** [addOwnMember(name, value = {})]; [None] is [undefined]. *)
Definition addOwnMember (name : string) (value : option Data) (s : Scope)
  : Outcome (Data * Scope) :=
  let value := orEmptyObject value in
  if hasProperty name (members s) then
    Throws (Error ("'" ++ name ++ "' already defined"))
  else
    Ok (value,
        mkScope (parent s) (strict s) (thisRef s) (topLevel s)
                (members s ++ [(name, value)])%list).

Definition truthyProperty (p : Property) : bool :=
  match p with
  | Own d => truthyData d
  | FromPrototype _ => true
  | Undefined => false
  end.

(** [findMember(name)]: the first truthy [getOwnMember(name)] along the
    chain, [Undefined] when there is none. *)
Fixpoint findMember (name : string) (s : Scope) : Property :=
  let member := getProperty name (members s) in
  if truthyProperty member then member
  else
    match s with
    | mkScope (Some p) _ _ _ _ => findMember name p
    | mkScope None _ _ _ _ => Undefined
    end.

(** Run a scope method on [this.getRoot()] / [this.getTopLevel()] and
    return the chain with that ancestor updated. *)
Fixpoint onRoot {A : Type} (f : Scope -> Outcome (A * Scope)) (s : Scope)
  : Outcome (A * Scope) :=
  match s with
  | mkScope (Some p) st th tl m =>
      bind (onRoot f p) (fun r => Ok (fst r, mkScope (Some (snd r)) st th tl m))
  | mkScope None _ _ _ _ => f s
  end.

Fixpoint onTopLevel {A : Type} (f : Scope -> Outcome (A * Scope)) (s : Scope)
  : Outcome (A * Scope) :=
  match s with
  | mkScope (Some p) st th false m =>
      bind (onTopLevel f p)
           (fun r => Ok (fst r, mkScope (Some (snd r)) st th false m))
  | _ => f s
  end.
End ScopeClass.

Arguments Own {Data} _.
Arguments FromPrototype {Data} _.
Arguments Undefined {Data}.
Arguments ownProperty {Data} _ _.
Arguments hasOwn {Data} _ _.
Arguments hasProperty {Data} _ _.
Arguments getProperty {Data} _ _.
Arguments mkScope {Data This} _ _ _ _ _.
Arguments parent {Data This} _.
Arguments strict {Data This} _.
Arguments thisRef {Data This} _.
Arguments topLevel {Data This} _.
Arguments members {Data This} _.
Arguments newScope {Data This}.
Arguments withMembers {Data This} _.
Arguments createNested {Data This} _.
Arguments getParent {Data This} _.
Arguments getRoot {Data This} _.
Arguments getTopLevel {Data This} _.
Arguments useStrict {Data This} _.
Arguments setTopLevel {Data This} _.
Arguments getThis {Data This} _.
Arguments getOwnMember {Data This} _ _.
Arguments orEmptyObject {Data} _ _.
Arguments addOwnMember {Data This} _ _ _ _.
Arguments truthyProperty {Data} _ _.
Arguments findMember {Data This} _ _ _.
Arguments onRoot {Data This A} _ _.
Arguments onTopLevel {Data This A} _ _.

(** *** Notions used in the statements about scope chains *)

Section ScopeChains.
Context {Data This : Type}.

(** The scope chain, innermost scope first. *)
Fixpoint chain (s : Scope Data This) : list (Scope Data This) :=
  s :: match s with
       | mkScope (Some p) _ _ _ _ => chain p
       | mkScope None _ _ _ _ => []
       end.

(** [n] times [createNested()]. *)
Fixpoint nested (n : nat) (s : Scope Data This) : Scope Data This :=
  match n with
  | O => s
  | S k => createNested (nested k s)
  end.

(** Induction along the scope chain. *)
Fixpoint Scope_chain_ind (P : Scope Data This -> Prop)
    (Hroot : forall st th tl m, P (mkScope None st th tl m))
    (Hnest : forall p st th tl m, P p -> P (mkScope (Some p) st th tl m))
    (s : Scope Data This) : P s :=
  match s with
  | mkScope (Some p) st th tl m => Hnest p st th tl m (Scope_chain_ind P Hroot Hnest p)
  | mkScope None st th tl m => Hroot st th tl m
  end.
End ScopeChains.

Section RootExtension.
Context {Data This : Type}.

(** A chain whose root has [added] appended to its own members. *)
Fixpoint extendRoot (added : Members Data) (s : Scope Data This)
  : Scope Data This :=
  match s with
  | mkScope (Some p) st th tl m => mkScope (Some (extendRoot added p)) st th tl m
  | mkScope None st th tl m => mkScope None st th tl (m ++ added)%list
  end.

(** A chain whose nearest top-level scope has [added] appended to its own
    members. *)
Fixpoint extendTopLevel (added : Members Data) (s : Scope Data This)
  : Scope Data This :=
  match s with
  | mkScope (Some p) st th false m =>
      mkScope (Some (extendTopLevel added p)) st th false m
  | mkScope p st th tl m => mkScope p st th tl (m ++ added)%list
  end.
End RootExtension.

End ScopeModel.

(** * The analyzer (src/analyze.mjs), expression fragment *)
Module Analyze.
Import Types ScopeModel.

(** Constant values of the fragment.  Numbers are the integers. *)
Inductive Value :=
| VUndefined
| VNull
| VBoolean (b : bool)
| VNumber (n : Z)
| VString (s : string).

(** [!!v]. *)
Definition truthyValue (v : Value) : bool :=
  match v with
  | VUndefined | VNull => false
  | VBoolean b => b
  | VNumber n => negb (Z.eqb n 0)
  | VString s => negb (String.eqb s "")
  end.

(** [kindOf(v)]: [v !== null ? (Array.isArray(v) ? 'array' : typeof v) : 'null']. *)
Definition kindOf (v : Value) : TypeKind :=
  match v with
  | VUndefined => KUndefined
  | VNull => KNull
  | VBoolean _ => KBoolean
  | VNumber _ => KNumber
  | VString _ => KString
  end.

(** An analysis object.  [Info] is a plain object with the optional
    properties [name], [type] and [value] ([value := Some VUndefined] is a
    present property holding [undefined]).  [Builtin p] is the value of
    [Object.prototype[p]], which a member lookup yields for an inherited
    name; it has neither a [type] nor a [value] property.  The visitors of
    this fragment never assign to an analysis object they did not create,
    so analysis objects are modelled by value. *)
Inductive Analysis :=
| Info (name : option string) (type : option Ty) (value : option Value)
| Builtin (property : string).

(** ['value' in info], [info.value], [info.type]. *)
Definition hasValue (a : Analysis) : bool :=
  match a with Info _ _ (Some _) => true | _ => false end.
Definition valueOf (a : Analysis) : Value :=
  match a with Info _ _ (Some v) => v | _ => VUndefined end.
Definition typeOf (a : Analysis) : option Ty :=
  match a with Info _ t _ => t | Builtin _ => None end.

(** The same reads on a possibly [undefined] visit result. *)
Definition resultHasValue (r : option Analysis) : bool :=
  match r with Some a => hasValue a | None => false end.
Definition resultType (r : option Analysis) : option Ty :=
  match r with Some a => typeOf a | None => None end.

Definition AScope := Scope Analysis unit.

(** The object [{}], the default member data of [addOwnMember]. *)
Definition emptyInfo : Analysis := Info None None None.

(** Every analysis object is truthy. *)
Definition truthyAnalysis (_ : Analysis) : bool := true.

Definition propertyAnalysis (p : Property Analysis) : option Analysis :=
  match p with
  | Own d => Some d
  | FromPrototype n => Some (Builtin n)
  | Undefined => None
  end.

Inductive LogicalOperator := OrOp | AndOp | NullishOp.

Inductive Expr :=
| Literal (value : Value)
| Identifier (name : string)
| LogicalExpression (operator : LogicalOperator) (left right : Expr)
| ConditionalExpression (test consequent alternate : Expr)
| SequenceExpression (expressions : list Expr).

(** The declaration context an Identifier is visited in; [None] for a
    reference. *)
Inductive DeclContext := DeclVar | DeclOther (kind : string).

(** [declContext] as the visitor reads it: an empty string is falsy like
    [undefined], and the string ['var'] is the [var] context however it is
    given. *)
Definition readContext (declContext : option DeclContext) : option DeclContext :=
  match declContext with
  | Some (DeclOther kind) =>
      if String.eqb kind "" then None
      else if String.eqb kind "var" then Some DeclVar
      else declContext
  | _ => declContext
  end.

(** [visitors.Identifier(ast, scope, declContext)]. *)
Definition visitIdentifier (name : string) (scope : AScope)
    (declContext : option DeclContext) : Outcome (option Analysis * AScope) :=
  let declContext := readContext declContext in
  let ref :=
    match declContext with
    | None => propertyAnalysis (findMember truthyAnalysis name scope)
    | Some _ => None
    end in
  match ref with
  | Some _ => Ok (ref, scope)
  | None =>
      let add := addOwnMember emptyInfo name (Some (Info (Some name) None None)) in
      bind match declContext with
           | Some DeclVar => onTopLevel add scope
           | None => onRoot add scope
           | Some (DeclOther _) => add scope
           end
           (fun r => Ok (Some (fst r), snd r))
  end.

(** [visitors.Literal(ast)]. *)
Definition visitLiteral (value : Value) : option Analysis :=
  Some (Info None (Some (TKind (kindOf value))) (Some value)).

(** [unionInfo(a, b)].  A [union] call that does not return exhausts the
    stack. *)
Definition unionInfo (a b : option Analysis) : Outcome (option Analysis) :=
  match a, b with
  | Some ia, Some ib =>
      match typeOf ia, typeOf ib with
      | Some ta, Some tb =>
          match union (Some ta) (Some tb) with
          | Some t => Ok (Some (Info None t None))
          | None => Throws RangeError
          end
      | _, _ => Ok (Some (Info None None None))
      end
  | _, _ => Ok None
  end.

(** The two callbacks passed to [evaluate] for [||] and [&&]. *)
Definition shortOp (operator : LogicalOperator) (l : Analysis) : bool :=
  match operator with
  | OrOp => if hasValue l then truthyValue (valueOf l) else isTruthy (typeOf l)
  | AndOp => if hasValue l then negb (truthyValue (valueOf l)) else isFalsy (typeOf l)
  | NullishOp => false
  end.

Definition op (operator : LogicalOperator) (l r : Value) : Value :=
  match operator with
  | OrOp => if truthyValue l then l else r
  | AndOp => if truthyValue l then r else l
  | NullishOp => VUndefined
  end.

(** [result.value = v] on the object [unionInfo] returned. *)
Definition setValue (a : option Analysis) (v : Value) : option Analysis :=
  match a with
  | Some (Info n t _) => Some (Info n t (Some v))
  | _ => a
  end.

(** The body of [visitors.LogicalExpression] after both operands have been
    visited: the local function [evaluate] under the [switch]. *)
Definition evaluateLogical (operator : LogicalOperator)
    (leftInfo rightInfo : option Analysis) : Outcome (option Analysis) :=
  match operator with
  | NullishOp => Ok None
  | _ =>
      if match leftInfo with Some l => shortOp operator l | None => false end
      then Ok leftInfo
      else
        bind (unionInfo leftInfo rightInfo) (fun result =>
          match leftInfo, rightInfo with
          | Some l, Some r =>
              if hasValue l && hasValue r
              then Ok (setValue result (op operator (valueOf l) (valueOf r)))
              else Ok result
          | _, _ => Ok result
          end)
  end.

(** [visit(ast, scope)] on the fragment. *)
Fixpoint visit (ast : Expr) (scope : AScope) : Outcome (option Analysis * AScope) :=
  match ast with
  | Literal value => Ok (visitLiteral value, scope)
  | Identifier name => visitIdentifier name scope None
  | LogicalExpression operator leftExpr rightExpr =>
      bind (visit leftExpr scope) (fun l =>
      bind (visit rightExpr (snd l)) (fun r =>
      bind (evaluateLogical operator (fst l) (fst r)) (fun result =>
        Ok (result, snd r))))
  | ConditionalExpression test consequent alternate =>
      bind (visit test scope) (fun t =>
      bind (visit consequent (snd t)) (fun c =>
      bind (visit alternate (snd c)) (fun a =>
        match fst t with
        | Some testInfo =>
            if hasValue testInfo then
              Ok (if truthyValue (valueOf testInfo) then fst c else fst a, snd a)
            else bind (unionInfo (fst c) (fst a)) (fun u => Ok (u, snd a))
        | None => bind (unionInfo (fst c) (fst a)) (fun u => Ok (u, snd a))
        end)))
  | SequenceExpression expressions =>
      (fix each (l : list Expr) (lastInfo : option Analysis) (scope : AScope) :=
         match l with
         | [] => Ok (lastInfo, scope)
         | e :: rest => bind (visit e scope) (fun r => each rest (fst r) (snd r))
         end) expressions None scope
  end.

(** [analyze(ast, rootScope = new Scope())]. *)
Definition analyze (ast : Expr) (rootScope : option AScope)
  : Outcome (option Analysis * AScope) :=
  visit ast match rootScope with Some s => s | None => newScope end.

(** *** Notions used in the statements about the analyzer *)

(** The left operand's analysis decides the result:
    [shortOp && leftInfo && shortOp(leftInfo)]. *)
Definition determines (operator : LogicalOperator) (leftInfo : option Analysis)
  : bool :=
  match leftInfo with
  | Some l => shortOp operator l
  | None => false
  end.

(** The expression [null && x]. *)
Definition nullAndX : Expr :=
  LogicalExpression AndOp (Literal VNull) (Identifier "x").

(** *** Notions used in the statements about whole analyses *)

(** Structural induction for expressions. *)
Section ExprInduction.
Variable P : Expr -> Prop.
Hypothesis HLiteral : forall v, P (Literal v).
Hypothesis HIdentifier : forall n, P (Identifier n).
Hypothesis HLogical : forall o l r, P l -> P r -> P (LogicalExpression o l r).
Hypothesis HConditional :
  forall t c a, P t -> P c -> P a -> P (ConditionalExpression t c a).
Hypothesis HSequence : forall es, Forall P es -> P (SequenceExpression es).

Fixpoint Expr_ind' (e : Expr) : P e :=
  match e return P e with
  | Literal v => HLiteral v
  | Identifier n => HIdentifier n
  | LogicalExpression o l r => HLogical o l r (Expr_ind' l) (Expr_ind' r)
  | ConditionalExpression t c a =>
      HConditional t c a (Expr_ind' t) (Expr_ind' c) (Expr_ind' a)
  | SequenceExpression es =>
      HSequence es
        ((fix all (l : list Expr) : Forall P l :=
            match l return Forall P l with
            | [] => Forall_nil _
            | x :: r => Forall_cons _ (Expr_ind' x) (all r)
            end) es)
  end.
End ExprInduction.

(** The loop of [visitors.SequenceExpression]. *)
Fixpoint visitEach (l : list Expr) (lastInfo : option Analysis) (scope : AScope)
  : Outcome (option Analysis * AScope) :=
  match l with
  | [] => Ok (lastInfo, scope)
  | e :: rest => bind (visit e scope) (fun r => visitEach rest (fst r) (snd r))
  end.

(** The value JavaScript gives an expression built from literals with [&&],
    [||], [?:] and the comma operator ([None] for any other expression of
    the fragment).  [op] is the callback the analyzer itself evaluates
    [&&] and [||] with. *)
Fixpoint constantValue (e : Expr) : option Value :=
  match e with
  | Literal v => Some v
  | Identifier _ => None
  | LogicalExpression NullishOp _ _ => None
  | LogicalExpression operator l r =>
      match constantValue l, constantValue r with
      | Some a, Some b => Some (op operator a b)
      | _, _ => None
      end
  | ConditionalExpression t c a =>
      match constantValue t, constantValue c, constantValue a with
      | Some x, Some y, Some z => Some (if truthyValue x then y else z)
      | _, _, _ => None
      end
  | SequenceExpression es =>
      (fix each (l : list Expr) (lastValue : option Value) :=
         match l with
         | [] => lastValue
         | e :: rest =>
             match constantValue e with
             | Some v => each rest (Some v)
             | None => None
             end
         end) es None
  end.

(** An analysis that carries the constant [v] and a type that accepts it. *)
Definition folded (v : Value) (info : option Analysis) : Prop :=
  exists ty, info = Some (Info None (Some ty) (Some v))
             /\ specified ty = true
             /\ isAssignable (Some ty) (Some (TKind (kindOf v))) = Some JTrue.

(** The names of the Identifier nodes of an expression. *)
Fixpoint identifiers (e : Expr) : list string :=
  match e with
  | Literal _ => []
  | Identifier n => [n]
  | LogicalExpression _ l r => (identifiers l ++ identifiers r)%list
  | ConditionalExpression t c a =>
      (identifiers t ++ identifiers c ++ identifiers a)%list
  | SequenceExpression es => flat_map identifiers es
  end.

(** What the analysis adds to a root scope: members named after identifiers
    of the expression that no scope of the chain declared, each added once,
    with its name as only property. *)
Definition addedBy (e : Expr) (s : AScope) (added : Members Analysis) : Prop :=
  NoDup (map fst added)
  /\ forall n d, In (n, d) added ->
       In n (identifiers e)
       /\ d = Info (Some n) None None
       /\ findMember truthyAnalysis n s = Undefined.

Definition notInherited (a : Members Analysis) : Prop :=
  forall k d, In (k, d) a -> inherited k = false.

(** Every member of every scope of the chain has a well-formed type, or
    none. *)
Definition typedWell (m : Members Analysis) : Prop :=
  forall k d, In (k, d) m -> wellFormedOpt (typeOf d) = true.

Definition scopeWellFormed (s : AScope) : Prop :=
  Forall (fun x => typedWell (members x)) (chain s).

End Analyze.

(** * The AST walker (walk) *)
Module Walk.

(** [groups]: node types to visitor group names, least specific first. *)
Definition groupTable : list (list string * list string) :=
  [ (["ImportDeclaration"; "ExportNamedDeclaration"; "ExportDefaultDeclaration";
      "ExportAllDeclaration"], ["ModuleDeclaration"]);
    (["VariableDeclaration"], ["Statement"; "Declaration"]);
    (["FunctionDeclaration"], ["Declaration"; "Function"]);
    (["FunctionExpression"; "ArrowFunctionExpression"], ["Expression"; "Function"]);
    (["ClassDeclaration"], ["Declaration"; "Class"]);
    (["ClassExpression"], ["Expression"; "Class"]);
    (["EmptyStatement"; "DebuggerStatement"; "BreakStatement"; "ContinueStatement";
      "ExpressionStatement"; "BlockStatement"; "WithStatement"; "ReturnStatement";
      "LabeledStatement"; "IfStatement"; "SwitchStatement"; "ThrowStatement";
      "TryStatement"; "WhileStatement"; "DoWhileStatement"; "ForStatement";
      "ForInStatement"; "ForOfStatement"], ["Statement"]);
    (["ArrayExpression"; "ObjectExpression"; "UnaryExpression"; "UpdateExpression";
      "BinaryExpression"; "LogicalExpression"; "AssignmentExpression";
      "MemberExpression"; "ConditionalExpression"; "CallExpression";
      "NewExpression"; "SequenceExpression"; "YieldExpression"; "AwaitExpression";
      "Identifier"; "Literal"; "ThisExpression"; "MetaProperty"; "TemplateLiteral";
      "TaggedTemplateExpression"; "ParenthesizedExpression"], ["Expression"]) ].

Fixpoint lookupGroups (table : list (list string * list string)) (type : string)
  : option (list string) :=
  match table with
  | [] => None
  | (types, gs) :: rest =>
      if existsb (String.eqb type) types then Some gs else lookupGroups rest type
  end.

(** [type in groups] and [groups[type]].  [groups] is an ordinary object: a
    name that [Object.prototype] defines is in it as well, with a value
    that cannot be spread. *)
Inductive Groups :=
| GroupsOf (names : list string)
| NotIterable
| NoGroups.

Definition groups (type : string) : Groups :=
  match lookupGroups groupTable type with
  | Some gs => GroupsOf gs
  | None => if ScopeModel.inherited type then NotIterable else NoGroups
  end.

(** An AST node as the walker sees it: its [type], and for every key what
    [walkers[key]] does when it is called on this node: the calls
    [visit(child, state, override)] it makes, in order, and the exception
    it ends with, if any (a walker of the table throws a TypeError on a
    node that lacks a property it reads).  [None]: the table has no walker
    under that key.  Every walker passes its own [state] on unchanged. *)
Inductive Node := mkNode {
  type : string;
  walker : string -> option (list (Node * option string) * option JsError)
}.

(** What a value inherited from [Object.prototype] does when it is called
    as a walker, [walker(node, state, visit)], in strict code: [Object]
    (under [constructor]) and [toString] return and visit nothing; the
    other functions need a [this] and throw a TypeError, and so does the
    call of [__proto__], which is no function. *)
Definition inheritedWalker (key : string)
  : list (Node * option string) * option JsError :=
  if String.eqb key "constructor" || String.eqb key "toString"
  then ([], None)
  else ([], Some TypeError).

(** [walkers[key]] for the node: [walkers] is an ordinary object, so a name
    that [Object.prototype] defines yields the inherited value. *)
Definition walkerOf (node : Node) (key : string)
  : option (list (Node * option string) * option JsError) :=
  if ScopeModel.inherited key then Some (inheritedWalker key)
  else walker node key.

(** A call that returns, throws, or does not come back ([None]: the
    recursion is deeper than the depth allowed; in JavaScript a recursion
    without end exhausts the stack). *)
Definition Run (A : Type) : Type := option (Outcome A).

Definition bindRun {A B : Type} (x : Run A) (f : A -> Run B) : Run B :=
  match x with
  | Some (Ok a) => f a
  | Some (Throws e) => Some (Throws e)
  | None => None
  end.

(** A truthy [override]: the empty string is falsy like [undefined]. *)
Definition asOverride (override : option string) : option string :=
  match override with
  | Some "" => None
  | _ => override
  end.

Section Walker.
(** [State]: the values passed as [state]; [World]: everything else the
    caller's hooks can read and change. *)
Variables State World : Type.

(** What a hook returns: exactly [false], another falsy value
    ([undefined], [null], [0], ...), or a truthy value, which becomes the
    state. *)
Inductive HookResult :=
| ReturnsFalse
| ReturnsFalsy
| ReturnsTruthy (s : State).

(** What a visitor function does from the world it is called in: it
    returns, it throws, or it calls [visit(node, state, override)] in
    some world and goes on from the world that visit leaves ([visit]
    returns nothing).  An exception of a visit it started passes through
    it. *)
Inductive Action :=
| Return (r : HookResult) (w : World)
| Throw (e : JsError)
| Visit (node : Node) (state : State) (override : option string) (w : World)
        (next : World -> Action).

(** A visitor function.  It receives the node and the state, and can read
    the ancestor array (when tracked). *)
Definition Hook := Node -> State -> option (list Node) -> World -> Action.

(** The caller's [visitors] object: [visitors[key]]. *)
Variable visitors : string -> option Hook.

Inductive Event :=
| EvBefore (vtype : string) (node : Node) (state : State)
| EvWalker (key : string) (node : Node) (state : State)
| EvAfter (vtype : string) (node : Node) (state : State).

(** The [visit] function as a hook or a walker calls it. *)
Definition VisitFn :=
  Node -> State -> option string -> World -> Run (list Event * World).

(** A visitor function run to its end: its result, the trace of the
    visits it started and the world it leaves.  [visit = None]: the
    function was called without a [visit] argument, as the
    after-visitors are; calling [undefined] is a TypeError. *)
Fixpoint runAction (visit : option VisitFn) (a : Action)
  : Run (HookResult * list Event * World) :=
  match a with
  | Return r w => Some (Ok (r, [], w))
  | Throw e => Some (Throws e)
  | Visit node state override w next =>
      match visit with
      | None => Some (Throws TypeError)
      | Some v =>
          bindRun (v node state override w) (fun r =>
          bindRun (runAction visit (next (snd r))) (fun r' =>
            Some (Ok (fst (fst r'), (fst r ++ snd (fst r'))%list, snd r'))))
      end
  end.

(** The call of an entry hook: the visitor type, the state it was given
    and the trace of the visits it started. *)
Record Entry := mkEntry {
  entryType : string;
  entryState : State;
  started : list Event
}.

Definition entryEvents (node : Node) (entries : list Entry) : list Event :=
  flat_map (fun e => EvBefore (entryType e) node (entryState e) :: started e)
           entries.

(** [visitorTypes]: the override alone, or the groups of the node type,
    followed by the node type. *)
Definition visitorTypes (node : Node) (override : option string)
  : Outcome (list string) :=
  match asOverride override with
  | Some o => Ok [o; type node]
  | None =>
      match groups (type node) with
      | GroupsOf gs => Ok (gs ++ [type node])%list
      | NotIterable => Throws TypeError
      | NoGroups => Ok [type node]
      end
  end.

(** The loop over the before-visitors.  Returns the calls made, the final
    [beforeResult] ([None]: still [undefined]), the state and the world. *)
Fixpoint runBefore (visit : VisitFn) (vtypes : list string) (node : Node)
    (state : State) (ancestors : option (list Node))
    (beforeResult : option HookResult) (w : World)
  : Run (list Entry * option HookResult * State * World) :=
  match vtypes with
  | [] => Some (Ok ([], beforeResult, state, w))
  | vtype :: rest =>
      match visitors (vtype ++ "Before") with
      | None => runBefore visit rest node state ancestors beforeResult w
      | Some beforeVisitor =>
          bindRun (runAction (Some visit) (beforeVisitor node state ancestors w))
            (fun r =>
               let entry := mkEntry vtype state (snd (fst r)) in
               match fst (fst r) with
               | ReturnsFalse =>
                   Some (Ok ([entry], Some ReturnsFalse, state, snd r))
               | result =>
                   let state' :=
                     match result with ReturnsTruthy s => s | _ => state end in
                   bindRun (runBefore visit rest node state' ancestors
                                      (Some result) (snd r))
                     (fun r' =>
                        let '(entries, br, st, w') := r' in
                        Some (Ok (entry :: entries, br, st, w')))
               end)
      end
  end.

(** The loop over the after-visitors (most specific first). *)
Fixpoint runAfter (vtypes : list string) (node : Node) (state : State)
    (ancestors : option (list Node)) (w : World) : Run (list Event * World) :=
  match vtypes with
  | [] => Some (Ok ([], w))
  | vtype :: rest =>
      match visitors vtype with
      | None => runAfter rest node state ancestors w
      | Some afterVisitor =>
          bindRun (runAction None (afterVisitor node state ancestors w))
            (fun r =>
               let state' :=
                 match fst (fst r) with ReturnsTruthy s => s | _ => state end in
               bindRun (runAfter rest node state' ancestors (snd r))
                 (fun r' =>
                    Some (Ok (EvAfter vtype node state :: fst r', snd r'))))
      end
  end.

(** [(override && walkers[override]) || walkers[type]]. *)
Definition selectWalker (node : Node) (override : option string)
  : option (string * (list (Node * option string) * option JsError)) :=
  match match asOverride override with
        | Some o => option_map (pair o) (walkerOf node o)
        | None => None
        end with
  | Some w => Some w
  | None => option_map (pair (type node)) (walkerOf node (type node))
  end.

Definition isFalse (r : option HookResult) : bool :=
  match r with Some ReturnsFalse => true | _ => false end.

(** The calls [visit(child, state, override)] a walker makes, in order;
    [visitChild] is [visit] at the walker's state. *)
Section Descent.
Variable visitChild : Node -> option string -> World -> Run (list Event * World).

Fixpoint visitCalls (calls : list (Node * option string)) (w : World)
  : Run (list Event * World) :=
  match calls with
  | [] => Some (Ok ([], w))
  | (child, o) :: rest =>
      bindRun (visitChild child o w) (fun r =>
      bindRun (visitCalls rest (snd r)) (fun r' =>
        Some (Ok ((fst r ++ fst r')%list, snd r'))))
  end.
End Descent.

(** What [visit] does after the loop over the before-visitors: nothing
    when [beforeResult] is exactly [false]; otherwise the walker, with
    the visits it makes, and the after-visitors.  [visit] stands for the
    function itself (with the ancestor array as this call left it),
    [before] for the trace so far. *)
Definition descend (visit : VisitFn) (node : Node) (override : option string)
    (vtypes : list string) (ancestors : option (list Node))
    (before : list Event) (beforeResult : option HookResult)
    (state : State) (w : World) : Run (list Event * World) :=
  if isFalse beforeResult then Some (Ok (before, w))
  else
    match selectWalker node override with
    | None =>
        Some (Throws (Error ("Unhandled AST node type '" ++ type node ++ "'")))
    | Some (key, (calls, ending)) =>
        bindRun (visitCalls (fun child o => visit child state o) calls w)
          (fun c =>
             match ending with
             | Some e => Some (Throws e)
             | None =>
                 bindRun (runAfter (rev vtypes) node state ancestors (snd c))
                   (fun a =>
                      Some (Ok ((before ++ EvWalker key node state
                                        :: fst c ++ fst a)%list, snd a)))
             end)
    end.

(** [visit(node, state, override)] inside [walk], to the call depth
    [depth].  The result is the trace of hook and walker invocations and
    the final world, or the exception. *)
Fixpoint visit (depth : nat) (node : Node) (state : State)
    (override : option string) (ancestors : option (list Node)) (w : World)
  : Run (list Event * World) :=
  match depth with
  | O => None
  | S deeper =>
      match visitorTypes node override with
      | Throws e => Some (Throws e)
      | Ok vtypes =>
          let ancestors' := option_map (fun a => (a ++ [node])%list) ancestors in
          let nested : VisitFn :=
            fun child st o w' => visit deeper child st o ancestors' w' in
          bindRun (runBefore nested vtypes node state ancestors' None w)
            (fun r =>
               let '(entries, beforeResult, state', w1) := r in
               descend nested node override vtypes ancestors'
                       (entryEvents node entries) beforeResult state' w1)
      end
  end.

(** [walk(ast, state, visitors)].  [tracksAncestors]: whether
    [state && state.ancestors] is an array, taken as empty at the start. *)
Definition walk (depth : nat) (ast : Node) (state : State)
    (tracksAncestors : bool) (w : World) : Run (list Event * World) :=
  visit depth ast state None (if tracksAncestors then Some [] else None) w.
End Walker.

Arguments ReturnsFalse {State}.
Arguments ReturnsFalsy {State}.
Arguments ReturnsTruthy {State} _.
Arguments Return {State World} _ _.
Arguments Throw {State World} _.
Arguments Visit {State World} _ _ _ _ _.
Arguments EvBefore {State} _ _ _.
Arguments EvWalker {State} _ _ _.
Arguments EvAfter {State} _ _ _.
Arguments mkEntry {State} _ _ _.
Arguments entryType {State} _.
Arguments entryState {State} _.
Arguments started {State} _.
Arguments entryEvents {State} _ _.
Arguments isFalse {State} _.
Arguments runAction {State World} _ _.
Arguments runBefore {State World} _ _ _ _ _ _ _ _.
Arguments runAfter {State World} _ _ _ _ _ _.
Arguments visitCalls {State World} _ _ _.
Arguments descend {State World} _ _ _ _ _ _ _ _ _ _.
Arguments visit {State World} _ _ _ _ _ _ _.
Arguments walk {State World} _ _ _ _ _ _.

(** *** Notions used in the statements about the walker *)

(** The statement [x;]: an ExpressionStatement over an Identifier, with the
    calls their walkers make. *)
Definition identifierNode : Node :=
  mkNode "Identifier"
         (fun key => if String.eqb key "Identifier" then Some ([], None) else None).

Definition statementNode : Node :=
  mkNode "ExpressionStatement"
         (fun key => if String.eqb key "ExpressionStatement"
                     then Some ([(identifierNode, None)], None) else None).

(** A hook that returns [r] and does nothing else. *)
Definition returning (r : HookResult nat) : Hook nat unit :=
  fun _ _ _ w => Return r w.

(** [{ExpressionStatementBefore() { return r }, ExpressionStatement() {}}]. *)
Definition visitorsReturning (r : HookResult nat) (key : string)
  : option (Hook nat unit) :=
  if String.eqb key "ExpressionStatementBefore" then Some (returning r)
  else if String.eqb key "ExpressionStatement" then Some (returning ReturnsFalsy)
  else None.


(** *** Notions used in further statements about the walker *)

(** The visitor type or walker key of an invocation. *)
Definition eventType {State : Type} (ev : Event State) : string :=
  match ev with
  | EvBefore vtype _ _ => vtype
  | EvWalker key _ _ => key
  | EvAfter vtype _ _ => vtype
  end.

(** An invocation of an exit hook on [node]. *)
Definition isAfterOf {State : Type} (node : Node) (ev : Event State) : Prop :=
  exists vtype s, ev = EvAfter vtype node s.

Definition isSome {A : Type} (o : option A) : bool :=
  match o with Some _ => true | None => false end.

(** Whether [visitors] holds an entry hook, an exit hook, for [vtype]. *)
Definition hasEntryHook {State World : Type}
    (visitors : string -> option (Hook State World)) (vtype : string) : bool :=
  isSome (visitors (vtype ++ "Before")%string).
Definition hasExitHook {State World : Type}
    (visitors : string -> option (Hook State World)) (vtype : string) : bool :=
  isSome (visitors vtype).

(** [v2] returns whatever [v1] returns: the same function with more depth. *)
Definition extends {State World : Type} (v1 v2 : VisitFn State World) : Prop :=
  forall node state override w r,
    v1 node state override w = Some r -> v2 node state override w = Some r.

(** [{StatementBefore, ExpressionStatementBefore, ExpressionStatement,
    Statement}], none of which returns a value. *)
Definition allHooks (key : string) : option (Hook nat unit) :=
  if existsb (String.eqb key)
       ["StatementBefore"; "ExpressionStatementBefore"; "ExpressionStatement";
        "Statement"]
  then Some (returning ReturnsFalsy) else None.

(** [{ExpressionStatementBefore(node, state, visit) { visit(x, state);
    return false }, Identifier() {}}]: the entry hook walks the child
    itself, as the hooks of the formatter do. *)
Definition visitorsWalkingChild (key : string) : option (Hook nat unit) :=
  if String.eqb key "ExpressionStatementBefore"
  then Some (fun _ state _ w =>
               Visit identifierNode state None w (fun w' => Return ReturnsFalse w'))
  else if String.eqb key "Identifier" then Some (returning ReturnsFalsy)
  else None.

(** A node whose type is a property of [Object.prototype]; the table has
    no walker for it. *)
Definition constructorNode : Node :=
  mkNode "constructor" (fun _ => None).

End Walk.

(** * The token buffer (Formatter) *)
Module TokenBuffer.

Inductive TokenKind := Leading | Normal | Trailing | Space.

Definition tokenKind_eqb (a b : TokenKind) : bool :=
  match a, b with
  | Leading, Leading | Normal, Normal | Trailing, Trailing | Space, Space => true
  | _, _ => false
  end.

(** The parallel arrays [_tokens] and [_kinds] are pushed to and shifted
    together; they are kept as one list of pairs. *)
Definition Token := (string * TokenKind)%type.

Record Formatter := mkFormatter {
  written : list string;      (* the chunks passed to [_write], in order *)
  indentChar : string;
  indentMultiple : nat;
  margin : nat;
  indent : Z;
  tokens : list Token
}.

Record Options := mkOptions {
  optIndentChar : option string;
  optIndentMultiple : option nat;
  optMargin : option nat
}.

(** [new Formatter(options)]: [x || default] also replaces [''] and [0]. *)
Definition newFormatter (options : Options) : Formatter :=
  mkFormatter []
    match optIndentChar options with
    | Some "" | None => " "
    | Some c => c
    end
    match optIndentMultiple options with
    | Some 0 | None => 2
    | Some n => n
    end
    match optMargin options with
    | Some 0 | None => 80
    | Some n => n
    end
    0 [].

Definition push (t : Token) (f : Formatter) : Formatter :=
  mkFormatter (written f) (indentChar f) (indentMultiple f) (margin f) (indent f)
              (tokens f ++ [t]).

Definition emitLeading (token : string) := push (token, Leading).
Definition emit (token : string) := push (token, Normal).
Definition emitTrailing (token : string) := push (token, Trailing).
Definition emitSpace (token : string) := push (token, Space).
Definition emitSemi := emitTrailing ";".
Definition emitBinaryOp (token : string) (f : Formatter) : Formatter :=
  emitSpace " " (emitTrailing token (emitSpace " " f)).

Definition setIndent (i : Z) (f : Formatter) : Formatter :=
  mkFormatter (written f) (indentChar f) (indentMultiple f) (margin f) i (tokens f).
Definition incIndent (f : Formatter) := setIndent (indent f + 1) f.
Definition decIndent (f : Formatter) := setIndent (indent f - 1) f.

(** [while (this._kinds[0] === TokenKind.Space) shift]. *)
Fixpoint dropLeadingSpaces (l : list Token) : list Token :=
  match l with
  | (_, Space) :: r => dropLeadingSpaces r
  | _ => l
  end.

(** Sum of the token lengths. *)
Definition width (l : list Token) : nat :=
  list_sum (map (fun t => String.length (fst t)) l).

Section LineFilling.
Variable theMargin : nat.

(** The first loop of an iteration: "always write first normal token and
    its trailing tokens".  [l] is the buffer from index [pos] on.  Returns
    the unread rest with the final [pos], [lastNonspacePos] and [col]. *)
Fixpoint firstRun (l : list Token) (gotNormal : bool) (pos : nat)
    (lastNonspacePos : Z) (col : nat) : list Token * nat * Z * nat :=
  match l with
  | [] => (l, pos, lastNonspacePos, col)
  | (text, kind) :: rest =>
      if gotNormal && negb (tokenKind_eqb kind Trailing)
      then (l, pos, lastNonspacePos, col)
      else
        firstRun rest
          (if tokenKind_eqb kind Normal then true else gotNormal)
          (S pos)
          (if tokenKind_eqb kind Space then lastNonspacePos else Z.of_nat pos)
          (col + String.length text)
  end.

(** The second loop: "find next normal token beyond margin".  Returns
    whether [pos] reached [length] (no [break]), [lastWritePos] and
    [lastNonspacePos]. *)
Fixpoint extend (l : list Token) (pos : nat) (lastWritePos lastNonspacePos : Z)
    (lastNormalOrTrailing : bool) (col : nat) : bool * Z * Z :=
  match l with
  | [] => (true, lastWritePos, lastNonspacePos)
  | (text, kind) :: rest =>
      let col := col + String.length text in
      match kind with
      | Normal =>
          if Nat.ltb theMargin col then (false, lastWritePos, lastNonspacePos)
          else extend rest (S pos) (Z.of_nat pos) (Z.of_nat pos) true col
      | Trailing =>
          if lastNormalOrTrailing
          then extend rest (S pos) (Z.of_nat pos) (Z.of_nat pos)
                      lastNormalOrTrailing col
          else extend rest (S pos) lastWritePos (Z.of_nat pos) false col
      | Leading => extend rest (S pos) lastWritePos (Z.of_nat pos) false col
      | Space => extend rest (S pos) lastWritePos lastNonspacePos false col
      end
  end.

(** One iteration's decision on a buffer without leading spaces: the
    final [lastWritePos] and [done]. *)
Definition findCut (indentCol : nat) (buffer : list Token) : Z * bool :=
  let '(rest, pos, lastNonspacePos, col) :=
    firstRun buffer false 0 (-1)%Z indentCol in
  let '(atEnd, lastWritePos, lastNonspacePos') :=
    extend rest pos lastNonspacePos lastNonspacePos false col in
  if atEnd then (lastNonspacePos', true) else (lastWritePos, false).

(** What one call of [emitNewline] writes. *)
Inductive Line :=
| EmptyLine                       (* ['\n'] alone, not indented *)
| TextLine (toks : list Token).   (* indent, the tokens, ['\n'] *)

(** The [do ... while (!done)] loop: the lines written and the tokens
    left in the buffer.  [fuel] bounds the number of iterations; [None]
    when it does not suffice. *)
Fixpoint fillLines (fuel : nat) (indentCol : nat) (buffer : list Token)
  : option (list Line * list Token) :=
  match fuel with
  | O => None
  | S n =>
      match dropLeadingSpaces buffer with
      | [] => Some ([EmptyLine], [])
      | toks =>
          let (lastWritePos, done) := findCut indentCol toks in
          let count := Z.to_nat (lastWritePos + 1) in
          let line := TextLine (firstn count toks) in
          let rest := skipn count toks in
          if done then Some ([line], rest)
          else
            match fillLines n indentCol rest with
            | Some (lines, rest') => Some (line :: lines, rest')
            | None => None
            end
      end
  end.
End LineFilling.

Definition tab : string := String (ascii_of_nat 9) EmptyString.

(** [s.repeat(n)] for [n >= 0]. *)
Fixpoint repeatString (s : string) (n : nat) : string :=
  match n with
  | O => ""
  | S k => s ++ repeatString s k
  end.

Definition render (indentation : string) (line : Line) : string :=
  match line with
  | EmptyLine => String (ascii_of_nat 10) EmptyString
  | TextLine toks =>
      indentation ++ String.concat "" (map fst toks)
      ++ String (ascii_of_nat 10) EmptyString
  end.

Definition indentWidth (f : Formatter) : nat :=
  if String.eqb (indentChar f) tab then 8 else String.length (indentChar f).
Definition indentCount (f : Formatter) : Z :=
  (indent f * Z.of_nat (indentMultiple f))%Z.

(** [emitNewline()].  [String.prototype.repeat] throws a RangeError for a
    negative count; it is reached only when a token other than a space is
    buffered.  Every iteration that is not the last writes at least one
    token, so the loop runs at most once per buffered token. *)
Definition emitNewline (f : Formatter) : Outcome Formatter :=
  let buffer := tokens f in
  match dropLeadingSpaces buffer with
  | _ :: _ =>
      if Z.ltb (indentCount f) 0 then Throws RangeError
      else
        let n := Z.to_nat (indentCount f) in
        match fillLines (margin f) (S (List.length buffer))
                        (n * indentWidth f) buffer with
        | Some (lines, rest) =>
            Ok (mkFormatter
                  (written f ++ map (render (repeatString (indentChar f) n)) lines)
                  (indentChar f) (indentMultiple f) (margin f) (indent f) rest)
        | None => Throws RangeError   (* not reached: the bound suffices *)
        end
  | [] =>
      Ok (mkFormatter (written f ++ [render "" EmptyLine])
                      (indentChar f) (indentMultiple f) (margin f) (indent f) [])
  end.

(** [flush()]. *)
Definition flush (f : Formatter) : Outcome Formatter :=
  match tokens f with
  | [] => Ok f
  | _ => emitNewline f
  end.

(** *** Notions used in the statements about the token buffer *)

Definition isSpace (t : Token) : bool := tokenKind_eqb (snd t) Space.
Definition isNormal (t : Token) : bool := tokenKind_eqb (snd t) Normal.

(** Walking a line from column [col]: every normal token after the first
    one ends at a column within the margin.  [seenNormal]: a normal token
    lies to the left. *)
Fixpoint normalsWithinMargin (theMargin : nat) (seenNormal : bool) (col : nat)
    (line : list Token) : bool :=
  match line with
  | [] => true
  | (text, kind) :: rest =>
      let col' := col + String.length text in
      match kind with
      | Normal =>
          (if seenNormal then Nat.leb col' theMargin else true)
          && normalsWithinMargin theMargin true col' rest
      | _ => normalsWithinMargin theMargin seenNormal col' rest
      end
  end.

(** A line neither begins nor ends with a space token. *)
Definition noOuterSpace (line : list Token) : bool :=
  match line with
  | [] => false
  | t :: _ => negb (isSpace t) && negb (isSpace (last line t))
  end.

(** The run of trailing tokens at the head of a buffer. *)
Fixpoint trailingRun (l : list Token) : list Token :=
  match l with
  | (text, Trailing) :: rest => (text, Trailing) :: trailingRun rest
  | _ => []
  end.

(** A buffer up to and including its first normal token and the trailing
    tokens that directly follow it (the whole buffer when it has no normal
    token). *)
Fixpoint atomicPrefix (l : list Token) : list Token :=
  match l with
  | [] => []
  | (text, Normal) :: rest => (text, Normal) :: trailingRun rest
  | t :: rest => t :: atomicPrefix rest
  end.

Definition hasNormal (l : list Token) : bool := existsb isNormal l.

(** Positions: the index of a token that is not a space, or [-1]. *)
Definition nonSpaceAt (l : list Token) (p : Z) : Prop :=
  (0 <= p)%Z /\ exists t, nth_error l (Z.to_nat p) = Some t /\ isSpace t = false.

Definition validPos (l : list Token) (p : Z) : Prop :=
  p = (-1)%Z \/ nonSpaceAt l p.

(** A buffer with margin 10: [aaaa bbbbb;;;;;]. *)
Definition overfullFormatter : Formatter :=
  emitTrailing ";;;;;"
    (emit "bbbbb" (emitSpace " " (emit "aaaa"
       (newFormatter (mkOptions None None (Some 10)))))).


(** *** Notions used in further statements about the token buffer *)

(** The tokens of a written line. *)
Definition lineTokens (line : Line) : list Token :=
  match line with
  | EmptyLine => []
  | TextLine toks => toks
  end.

(** The tokens of a buffer that are not spaces, in order. *)
Definition nonSpaces (l : list Token) : list Token :=
  filter (fun t => negb (isSpace t)) l.

(** A buffer without the spaces at its end. *)
Fixpoint trimEnd (l : list Token) : list Token :=
  match l with
  | [] => []
  | t :: r =>
      match trimEnd r with
      | [] => if isSpace t then [] else [t]
      | r' => t :: r'
      end
  end.

(** [lastNonspacePos] after reading [l] from index [pos] on. *)
Fixpoint lastNonSpaceFrom (l : list Token) (pos : nat) (lastNonspacePos : Z) : Z :=
  match l with
  | [] => lastNonspacePos
  | t :: r =>
      lastNonSpaceFrom r (S pos) (if isSpace t then lastNonspacePos else Z.of_nat pos)
  end.

(** The indentation string and the column it ends at. *)
Definition indentation (f : Formatter) : string :=
  repeatString (indentChar f) (Z.to_nat (indentCount f)).
Definition indentColumn (f : Formatter) : nat :=
  Z.to_nat (indentCount f) * indentWidth f.

(** A buffer with margin 10 that fits on one line: [aaaa bbbb ]. *)
Definition fittingFormatter : Formatter :=
  emitSpace " "
    (emit "bbbb" (emitSpace " " (emit "aaaa"
       (newFormatter (mkOptions None None (Some 10)))))).

(** [decIndent()] on a new formatter, then a token. *)
Definition outdentedFormatter : Formatter :=
  emit "x" (decIndent (newFormatter (mkOptions None None None))).

(** The first token of a buffer, if any, is not a trailing token. *)
Definition notTrailingFirst (l : list Token) : bool :=
  match l with
  | t :: _ => negb (tokenKind_eqb (snd t) Trailing)
  | [] => true
  end.

Definition noNormal (l : list Token) : bool :=
  forallb (fun t => negb (isNormal t)) l.

(** The buffers the lines of one [emitNewline] are cut from: the buffer
    without its leading spaces, then what each line leaves of it, again
    without leading spaces. *)
Fixpoint lineBuffers (buffer : list Token) (lines : list Line)
  : list (list Token) :=
  match lines with
  | [] => []
  | line :: rest =>
      let toks := dropLeadingSpaces buffer in
      toks :: lineBuffers (skipn (List.length (lineTokens line)) toks) rest
  end.

(** How a line is cut from the buffer [buf] (without leading spaces) at the
    indentation column [indentCol]; [isLast]: the line is the last one of
    this call. *)
Definition wellCut (theMargin indentCol : nat) (buf : list Token)
    (line : Line) (isLast : bool) : Prop :=
  match line with
  | EmptyLine => buf = [] /\ isLast = true
  | TextLine toks =>
      exists more,
        buf = (toks ++ more)%list
        /\ noOuterSpace toks = true
        /\ normalsWithinMargin theMargin false indentCol toks = true
        /\ (hasNormal buf = true -> exists tail, toks = (atomicPrefix buf ++ tail)%list)
        /\ notTrailingFirst more = true
        /\ if isLast then forallb isSpace more = true
           else exists gap next rest,
               more = (gap ++ next :: rest)%list
               /\ isNormal next = true
               /\ noNormal gap = true
               /\ theMargin < indentCol + width toks + width gap
                               + String.length (fst next)
  end.

(** Every line but the last is cut by [wellCut ... false], the last by
    [wellCut ... true]. *)
Fixpoint allWellCut (theMargin indentCol : nat) (bufs : list (list Token))
    (lines : list Line) : Prop :=
  match bufs, lines with
  | [buf], [line] => wellCut theMargin indentCol buf line true
  | buf :: bufs', line :: lines' =>
      wellCut theMargin indentCol buf line false
      /\ allWellCut theMargin indentCol bufs' lines'
  | _, _ => False
  end.

(** The invariant of the second loop: [gap] holds the tokens read since
    the last accepted one. *)
Definition gapInv (gap : list Token) (lnt : bool) (l : list Token) : Prop :=
  noNormal gap = true
  /\ notTrailingFirst gap = true
  /\ (if lnt then gap = [] else gap <> [] \/ notTrailingFirst l = true).

End TokenBuffer.

(** * Facts about the type lattice *)
Module TypesFacts.
Import Types.

(** ** isAssignable: the unfolding equation *)

Section QuantifierLemmas.
Context {A : Type}.

Lemma every_incl (f g : A -> option JsBool) (l : list A) (r : JsBool) :
  (forall x v, In x l -> f x = Some v -> g x = Some v) ->
  every f l = Some r -> every g l = Some r.
Proof.
  induction l as [|x l IH]; simpl; intros Hfg H; [exact H|].
  destruct (f x) as [v|] eqn:Ef; [|discriminate].
  rewrite (Hfg x v (or_introl eq_refl) Ef).
  destruct (truthy v); [|exact H].
  apply IH; [|exact H]. intros y w Hy. apply Hfg. now right.
Qed.

Lemma some_incl (f g : A -> option JsBool) (l : list A) (r : JsBool) :
  (forall x v, In x l -> f x = Some v -> g x = Some v) ->
  some f l = Some r -> some g l = Some r.
Proof.
  induction l as [|x l IH]; simpl; intros Hfg H; [exact H|].
  destruct (f x) as [v|] eqn:Ef; [|discriminate].
  rewrite (Hfg x v (or_introl eq_refl) Ef).
  destruct (truthy v); [exact H|].
  apply IH; [|exact H]. intros y w Hy. apply Hfg. now right.
Qed.
End QuantifierLemmas.

Lemma kindOpt_eqb_eq a b : kindOpt_eqb a b = true -> a = b.
Proof.
  destruct a as [[]|], b as [[]|]; simpl; intros H; try discriminate; reflexivity.
Qed.

Lemma isAssignable_body_incl rec1 rec2 t s r :
  (forall t' s' v, subcall t s t' s' -> rec1 t' s' = Some v -> rec2 t' s' = Some v) ->
  isAssignable_body rec1 t s = Some r -> isAssignable_body rec2 t s = Some r.
Proof.
  intros Hsub. unfold isAssignable_body.
  destruct (isUnion s) eqn:Us.
  { apply every_incl. intros x v Hx. apply Hsub. now constructor. }
  destruct (isUnion t) eqn:Ut.
  { apply some_incl. intros x v Hx. apply Hsub. now constructor. }
  destruct (getKind t) as [k|] eqn:Kt; [|auto].
  destruct k; auto.
  - (* function *)
    destruct (kindOpt_eqb (getKind s) (Some KFunction)) eqn:Ks; simpl; [|auto].
    apply kindOpt_eqb_eq in Ks.
    destruct (rec1 (returnsOf t) (returnsOf s)) as [v|] eqn:E1; [|discriminate].
    rewrite (Hsub _ _ v (sub_returns t s Us Ut Kt Ks) E1).
    destruct (truthy v); simpl; [|auto].
    destruct (paramsOf t) as [tps|] eqn:Pt; [|auto].
    destruct (paramsOf s) as [sps|] eqn:Ps; [|auto].
    destruct (Nat.eqb _ _); [|auto].
    apply every_incl. intros [p q] v' Hin. simpl.
    apply Hsub. eapply sub_params; eauto.
    + eapply in_combine_l; eauto.
    + eapply in_combine_r; eauto.
  - (* array *)
    destruct (kindOpt_eqb (getKind s) (Some KArray)) eqn:Ks; [|auto].
    apply kindOpt_eqb_eq in Ks.
    apply Hsub. now constructor.
Qed.

Lemma isAssignable_fuel_mono n : forall m t s r,
  n <= m -> isAssignable_fuel n t s = Some r -> isAssignable_fuel m t s = Some r.
Proof.
  induction n as [|n IH]; intros m t s r Hle H; [discriminate|].
  destruct m as [|m]; [lia|]. simpl in *.
  eapply isAssignable_body_incl; [|exact H].
  intros t' s' v _. apply IH. lia.
Qed.

Lemma in_list_sum {A} (f : A -> nat) x l : In x l -> f x <= list_sum (map f l).
Proof.
  induction l as [|y l IH]; simpl; [tauto|].
  intros [->|H]; [lia|]. specialize (IH H). lia.
Qed.

Lemma getUnionTypes_size t x :
  isUnion t = true -> bareUnion t = false -> In x (getUnionTypes t) ->
  size x < sizeOpt t.
Proof.
  destruct t as [[k|ts|k r ps e [ts|]|v]|]; simpl; try discriminate.
  - intros _ _ H. apply (in_list_sum size) in H. lia.
  - intros _ _ H. apply (in_list_sum size) in H. lia.
  - destruct k; discriminate.
Qed.

Lemma returnsOf_size t k : getKind t = Some k -> sizeOpt (returnsOf t) < sizeOpt t.
Proof.
  destruct t as [[k'|ts|k' [r|] ps e a|v]|]; simpl; intros H; try discriminate; lia.
Qed.

Lemma elementsOf_size t k : getKind t = Some k -> sizeOpt (elementsOf t) < sizeOpt t.
Proof.
  destruct t as [[k'|ts|k' r ps [e|] a|v]|]; simpl; intros H; try discriminate; lia.
Qed.

Lemma paramsOf_size t l p :
  paramsOf t = Some l -> In p l -> sizeOpt (type p) < sizeOpt t.
Proof.
  destruct t as [[k'|ts|k' r ps e a|v]|]; simpl; intros H; try discriminate.
  subst ps. intros Hin.
  apply (in_list_sum (fun p => S (match type p with Some x => size x | None => 0 end)))
    in Hin.
  unfold sizeOpt. lia.
Qed.

Lemma subcall_size t s t' s' :
  subcall t s t' s' -> loops t s = false ->
  sizeOpt t' + sizeOpt s' < sizeOpt t + sizeOpt s.
Proof.
  unfold loops. intros H; destruct H as
      [x Us Hx | x Us Ut Hx | Us Ut Kt Ks | tps sps p q Us Ut Kt Ks Pt Ps Hp Hq
       | Us Ut Kt Ks]; rewrite Us; try rewrite Ut; intros Hl.
  - pose proof (getUnionTypes_size s x Us Hl Hx). simpl. lia.
  - pose proof (getUnionTypes_size t x Ut Hl Hx). simpl. lia.
  - pose proof (returnsOf_size t _ Kt). pose proof (returnsOf_size s _ Ks). lia.
  - pose proof (paramsOf_size s sps p Ps Hp).
    pose proof (paramsOf_size t tps q Pt Hq). lia.
  - pose proof (elementsOf_size t _ Kt). pose proof (elementsOf_size s _ Ks). lia.
Qed.

Lemma loops_diverge n : forall t s, loops t s = true -> isAssignable_fuel n t s = None.
Proof.
  induction n as [|n IH]; intros t s Hl; [reflexivity|].
  simpl. unfold isAssignable_body. unfold loops in Hl.
  destruct (isUnion s) eqn:Us.
  - destruct s as [[k|ts|[] r ps e [ts|]|v]|]; try discriminate.
    simpl. rewrite IH; [reflexivity|]. unfold loops. now rewrite Us.
  - destruct (isUnion t) eqn:Ut; [|discriminate].
    destruct t as [[k|ts|[] r ps e [ts|]|v]|]; try discriminate.
    simpl. rewrite IH; [reflexivity|]. unfold loops. now rewrite Us, Ut.
Qed.

Lemma isAssignable_fuel_enough n : forall t s r,
  isAssignable_fuel n t s = Some r -> isAssignable t s = Some r.
Proof.
  induction n as [|n IH]; intros t s r H; [discriminate|].
  destruct (loops t s) eqn:Hl.
  { rewrite (loops_diverge (S n) t s Hl) in H. discriminate. }
  unfold isAssignable. simpl in *.
  eapply isAssignable_body_incl; [|exact H].
  intros t' s' v Hsub Hv.
  apply IH in Hv. unfold isAssignable in Hv.
  eapply isAssignable_fuel_mono; [|exact Hv].
  pose proof (subcall_size t s t' s' Hsub Hl). lia.
Qed.

Lemma isAssignable_unfold_Some t s r :
  isAssignable t s = Some r <-> isAssignable_body isAssignable t s = Some r.
Proof.
  split.
  - unfold isAssignable at 1. simpl. apply isAssignable_body_incl.
    intros t' s' v _. apply isAssignable_fuel_enough.
  - intros H. destruct (loops t s) eqn:Hl.
    + exfalso. revert H. unfold isAssignable_body. unfold loops in Hl.
      destruct (isUnion s) eqn:Us.
      * destruct s as [[k|ts|[] r' ps e [ts|]|v]|]; try discriminate.
        simpl. unfold isAssignable.
        rewrite loops_diverge; [discriminate|]. unfold loops. now rewrite Us.
      * destruct (isUnion t) eqn:Ut; [|discriminate].
        destruct t as [[k|ts|[] r' ps e [ts|]|v]|]; try discriminate.
        simpl. unfold isAssignable.
        rewrite loops_diverge; [discriminate|]. unfold loops. now rewrite Us, Ut.
    + unfold isAssignable at 1. simpl.
      eapply isAssignable_body_incl; [|exact H].
      intros t' s' v Hsub Hv. unfold isAssignable in Hv.
      eapply isAssignable_fuel_mono; [|exact Hv].
      pose proof (subcall_size t s t' s' Hsub Hl). lia.
Qed.

(** [isAssignable] satisfies the recursive equation of the source, whether
    or not the call returns. *)
Lemma isAssignable_unfold t s :
  isAssignable t s = isAssignable_body isAssignable t s.
Proof.
  destruct (isAssignable t s) as [r|] eqn:E.
  - symmetry. now apply isAssignable_unfold_Some.
  - destruct (isAssignable_body isAssignable t s) as [r|] eqn:E'; [|reflexivity].
    apply isAssignable_unfold_Some in E'. congruence.
Qed.

(** every/some characterisations *)
Lemma every_true_iff {A} (f : A -> option JsBool) l :
  every f l = Some JTrue <-> Forall (fun x => f x = Some JTrue) l.
Proof.
  induction l as [|x l IH]; simpl.
  - split; auto.
  - destruct (f x) as [[]|] eqn:E; simpl.
    + rewrite IH. split; intros H.
      * now constructor.
      * now inversion H.
    + split; [discriminate|]. intros H; inversion H; congruence.
    + split; [discriminate|]. intros H; inversion H; congruence.
    + split; [discriminate|]. intros H; inversion H; congruence.
Qed.

Lemma Forall_combine_nth {A B} (P : A * B -> Prop) (l1 : list A) (l2 : list B) :
  Forall P (combine l1 l2) <->
  (forall i a b, nth_error l1 i = Some a -> nth_error l2 i = Some b -> P (a, b)).
Proof.
  revert l2. induction l1 as [|x l1 IH]; intros l2; simpl.
  - split; [|constructor]. intros _ [|i] a b H; discriminate.
  - destruct l2 as [|y l2].
    + split; [|constructor]. intros _ [|i] a b _ H; discriminate.
    + split.
      * intros H. inversion H as [|? ? Hxy Hrest]; subst.
        intros [|i] a b Ha Hb; simpl in *.
        -- now inversion Ha; inversion Hb; subst.
        -- apply (proj1 (IH l2) Hrest i a b Ha Hb).
      * intros H. constructor.
        -- apply (H 0); reflexivity.
        -- apply IH. intros i a b Ha Hb. apply (H (S i)); assumption.
Qed.

(** C3.  For canonical function types [T] (target) and [S] (source) that
    both carry a params list and a returns type, [isAssignable(T, S)]
    returns [true] if and only if the params lists have the same length,
    at every position the source's parameter type accepts the target's
    ([isAssignable(S.params[i].type, T.params[i].type)], contravariant),
    and the return types are assignable target from source
    ([isAssignable(T.returns, S.returns)], covariant). *)
Theorem function_assignable_iff
    (tr sr : Ty) (tps sps : list (Param Ty))
    (te se : option Ty) (ta sa : option (list Ty)) :
  let T := TObject KFunction (Some tr) (Some tps) te ta in
  let S := TObject KFunction (Some sr) (Some sps) se sa in
  isAssignable (Some T) (Some S) = Some JTrue <->
  (List.length tps = List.length sps
   /\ (forall i p q, nth_error sps i = Some p -> nth_error tps i = Some q ->
         isAssignable (type p) (type q) = Some JTrue)
   /\ isAssignable (Some tr) (Some sr) = Some JTrue).
Proof.
  intros T S. rewrite isAssignable_unfold. unfold isAssignable_body. simpl.
  destruct (isAssignable (Some tr) (Some sr)) as [[]|] eqn:Er; simpl.
  - destruct (Nat.eqb (List.length tps) (List.length sps)) eqn:El.
    + apply Nat.eqb_eq in El. rewrite every_true_iff.
      rewrite (Forall_combine_nth
                 (fun pq => isAssignable (type (fst pq)) (type (snd pq)) = Some JTrue)).
      simpl. tauto.
    + apply Nat.eqb_neq in El. split; [discriminate|tauto].
  - split; [discriminate|]. intros (_ & _ & H); discriminate.
  - split; [discriminate|]. intros (_ & _ & H); discriminate.
  - split; [discriminate|]. intros (_ & _ & H); discriminate.
Qed.

(** The functions of the unit test: [c <- b] holds, [b <- c] does not. *)
Lemma function_assignable_iff_witness :
  isAssignable
    (Some (TObject KFunction (Some (TKind KString))
                   (Some [mkParameter None (Some (TKind KString))]) None None))
    (Some (TObject KFunction (Some (TKind KString))
                   (Some [mkParameter None (Some (TKind KAny))]) None None))
  = Some JTrue.
Proof.
  apply (proj2 (function_assignable_iff
                  (TKind KString) (TKind KString)
                  [mkParameter None (Some (TKind KString))]
                  [mkParameter None (Some (TKind KAny))] None None None None)).
  split; [reflexivity|]. split; [|reflexivity].
  intros [|[|i]] p q Hp Hq; simpl in Hp, Hq; try discriminate.
  inversion Hp; inversion Hq; subst. reflexivity.
Defined.

(** ** The unit tests of the lattice, on the model *)

Example test_isAssignable_unions :
  let a := TAlts [TKind KString; TKind KNumber; TKind KNull] in
  let b := TAlts [TKind KString; TKind KNumber] in
  isAssignable (Some a) (Some b) = Some JTrue
  /\ isAssignable (Some b) (Some a) = Some JFalse.
Proof. split; reflexivity. Qed.

Example test_isAssignable_arrays :
  let a := arrayOf (Some (TKind KAny)) in
  let b := arrayOf (Some (TKind KNumber)) in
  let c := TKind KArray in
  isAssignable (Some a) (Some b) = Some JTrue
  /\ isAssignable (Some b) (Some a) = Some JFalse
  /\ isAssignable (Some a) (Some c) = Some JTrue
  /\ isAssignable (Some c) (Some a) = Some JFalse
  /\ isAssignable (Some (TKind KObject)) (Some c) = Some JTrue
  /\ isAssignable (Some c) (Some (TKind KObject)) = Some JFalse.
Proof. repeat split. Qed.

Example test_isAssignable_undefined :
  isAssignable None (Some (TKind KAny)) = Some JFalse
  /\ isAssignable (Some (TKind KAny)) None = Some JTrue
  /\ isNotAssignable None (Some (TKind KAny)) = Some false
  /\ isNotAssignable (Some (TKind KAny)) None = Some false.
Proof. repeat split. Qed.

Example test_union :
  union None (Some (TKind KAny)) = Some None
  /\ union (Some (TKind KNumber)) (Some (TKind KNumber)) = Some (Some (TKind KNumber))
  /\ union (Some (TKind KObject)) (Some (TKind KArray)) = Some (Some (TKind KObject))
  /\ union (Some (TKind KArray)) (Some (TKind KObject)) = Some (Some (TKind KObject))
  /\ union (Some (TKind KNumber)) (Some (TKind KString))
     = Some (Some (TAlts [TKind KNumber; TKind KString]))
  /\ union (Some (TAlts [TKind KNumber; TKind KString]))
           (Some (TAlts [TKind KString; TKind KNumber]))
     = Some (Some (TAlts [TKind KNumber; TKind KString]))
  /\ union (Some (TAlts [TKind KString; TKind KArray; TKind KNumber]))
           (Some (TAlts [TKind KNumber; TKind KObject; TKind KBoolean]))
     = Some (Some (TAlts [TKind KString; TKind KNumber; TKind KObject;
                          TKind KBoolean])).
Proof. repeat split. Qed.

Example test_formatType :
  formatType None 0 = Some "unknown"
  /\ formatType (Some (arrayOf (Some (TKind KNumber)))) 0 = Some "number[]"
  /\ formatType (Some (TObject KFunction (Some (TKind KNumber)) None None None)) 0
     = Some "function: number"
  /\ formatType (Some (TObject KFunction (Some (TKind KNumber)) (Some []) None None)) 0
     = Some "function(): number"
  /\ formatType
       (Some (TObject KFunction (Some (arrayOf (Some (TKind KNumber))))
                (Some [ mkParameter None (Some (arrayOf (Some (TKind KNumber))));
                        mkParameter (Some "foo") None;
                        mkParameter (Some "bar")
                          (Some (TAlts [arrayOf (Some (TKind KString));
                                        TKind KNull])) ])
                None None)) 0
     = Some "function(:number[], foo, bar: string[] | null): number[]".
Proof. repeat split. Qed.

Example test_conversions :
  toCanonical None = Ok None
  /\ toCanonical (Some (TKind KArray)) = Ok (Some (TObject KArray None None None None))
  /\ toCanonical (Some (TAlts [TKind KString; TKind KNumber]))
     = Ok (Some (TObject KUnion None None None
                   (Some [TObject KString None None None None;
                          TObject KNumber None None None None])))
  /\ toShorthand (Some (TObject KArray None None None None)) = Ok (Some (TKind KArray))
  /\ toShorthand (Some (TObject KArray None None
                          (Some (TObject KNumber None None None None)) None))
     = Ok (Some (arrayOf (Some (TKind KNumber))))
  /\ toShorthand (Some (TObject KUnion None None None
                          (Some [TObject KString None None None None;
                                 TObject KNumber None None None None])))
     = Ok (Some (TAlts [TKind KString; TKind KNumber])).
Proof. repeat split. Qed.

(** ** Reflexivity *)

Lemma specified_not_loops t s :
  specifiedOpt t = true -> specifiedOpt s = true -> loops t s = false.
Proof.
  unfold loops.
  destruct s as [[k|ts|[] r ps e [ts|]|v]|]; simpl; try discriminate; try tauto;
  destruct t as [[k'|ts'|[] r' ps' e' [ts'|]|v']|]; simpl; try discriminate; tauto.
Qed.

Lemma specified_function t :
  specifiedOpt t = true -> getKind t = Some KFunction ->
  exists r ps e a,
    t = Some (TObject KFunction (Some r) (Some ps) e a)
    /\ specified r = true
    /\ (forall p, In p ps -> specifiedOpt (type p) = true).
Proof.
  destruct t as [[k|ts|k r ps e a|v]|]; simpl; try discriminate.
  - intros H K. inversion K; subst. discriminate.
  - intros H K. inversion K; subst.
    destruct r as [r|]; [|discriminate].
    destruct ps as [ps|]; [|rewrite andb_false_r in H; discriminate].
    apply andb_true_iff in H. destruct H as [Hr Hp].
    exists r, ps, e, a. repeat split; auto.
    intros p Hin. rewrite forallb_forall in Hp. apply (Hp p Hin).
Qed.

Lemma specified_array t :
  specifiedOpt t = true -> getKind t = Some KArray ->
  exists r ps e a,
    t = Some (TObject KArray r ps (Some e) a) /\ specified e = true.
Proof.
  destruct t as [[k|ts|k r ps e a|v]|]; simpl; try discriminate.
  - intros H K. inversion K; subst. discriminate.
  - intros H K. inversion K; subst.
    destruct e as [e|]; [|discriminate].
    exists r, ps, e, a. auto.
Qed.

Lemma specified_union t x :
  specifiedOpt t = true -> isUnion t = true -> In x (getUnionTypes t) ->
  specified x = true.
Proof.
  destruct t as [[k|ts|k r ps e a|v]|]; simpl; try discriminate.
  - intros H _ Hin. rewrite forallb_forall in H. auto.
  - destruct k; try discriminate. destruct a as [ts|]; [|discriminate].
    intros H _ Hin. rewrite forallb_forall in H. auto.
Qed.

Lemma subcall_specified t s t' s' :
  subcall t s t' s' -> specifiedOpt t = true -> specifiedOpt s = true ->
  specifiedOpt t' = true /\ specifiedOpt s' = true.
Proof.
  intros H; destruct H as
      [x Us Hx | x Us Ut Hx | Us Ut Kt Ks | tps sps p q Us Ut Kt Ks Pt Ps Hp Hq
       | Us Ut Kt Ks]; intros Ht Hs.
  - split; [assumption|]. exact (specified_union s x Hs Us Hx).
  - split; [|assumption]. exact (specified_union t x Ht Ut Hx).
  - destruct (specified_function t Ht Kt) as (r & ps & e & a & -> & Hr & _).
    destruct (specified_function s Hs Ks) as (r' & ps' & e' & a' & -> & Hr' & _).
    simpl. auto.
  - destruct (specified_function t Ht Kt) as (r & ps & e & a & -> & _ & Hps).
    destruct (specified_function s Hs Ks) as (r' & ps' & e' & a' & -> & _ & Hps').
    simpl in Pt, Ps. inversion Pt; inversion Ps; subst. auto.
  - destruct (specified_array t Ht Kt) as (r & ps & e & a & -> & He).
    destruct (specified_array s Hs Ks) as (r' & ps' & e' & a' & -> & He').
    simpl. auto.
Qed.

Lemma every_total {A} (f : A -> option JsBool) l :
  (forall x, In x l -> exists v, f x = Some v) -> exists r, every f l = Some r.
Proof.
  induction l as [|x l IH]; simpl; intros H; [eauto|].
  destruct (H x (or_introl eq_refl)) as [v ->].
  destruct (truthy v); eauto.
Qed.

Lemma some_total {A} (f : A -> option JsBool) l :
  (forall x, In x l -> exists v, f x = Some v) -> exists r, some f l = Some r.
Proof.
  induction l as [|x l IH]; simpl; intros H; [eauto|].
  destruct (H x (or_introl eq_refl)) as [v ->].
  destruct (truthy v); eauto.
Qed.

Lemma isAssignable_body_total rec t s :
  (forall t' s', subcall t s t' s' -> exists v, rec t' s' = Some v) ->
  exists r, isAssignable_body rec t s = Some r.
Proof.
  intros Hsub. unfold isAssignable_body.
  destruct (isUnion s) eqn:Us.
  { apply every_total. intros x Hx. apply Hsub. now constructor. }
  destruct (isUnion t) eqn:Ut.
  { apply some_total. intros x Hx. apply Hsub. now constructor. }
  destruct (getKind t) as [k|] eqn:Kt; [|eauto].
  destruct k; eauto.
  - destruct (kindOpt_eqb (getKind s) (Some KFunction)) eqn:Ks; simpl; [|eauto].
    apply kindOpt_eqb_eq in Ks.
    destruct (Hsub _ _ (sub_returns t s Us Ut Kt Ks)) as [v ->].
    destruct (truthy v); simpl; [|eauto].
    destruct (paramsOf t) as [tps|] eqn:Pt; [|eauto].
    destruct (paramsOf s) as [sps|] eqn:Ps; [|eauto].
    destruct (Nat.eqb _ _); [|eauto].
    apply every_total. intros [p q] Hin. simpl.
    apply Hsub. eapply sub_params; eauto.
    + eapply in_combine_l; eauto.
    + eapply in_combine_r; eauto.
  - destruct (kindOpt_eqb (getKind s) (Some KArray)) eqn:Ks; [|eauto].
    apply kindOpt_eqb_eq in Ks.
    apply Hsub. now constructor.
Qed.

(** On fully specified types every call returns. *)
Lemma isAssignable_total n : forall t s,
  sizeOpt t + sizeOpt s < n ->
  specifiedOpt t = true -> specifiedOpt s = true ->
  exists r, isAssignable t s = Some r.
Proof.
  induction n as [|n IH]; intros t s Hn Ht Hs; [lia|].
  rewrite isAssignable_unfold. apply isAssignable_body_total.
  intros t' s' Hsub.
  destruct (subcall_specified t s t' s' Hsub Ht Hs) as [Ht' Hs'].
  pose proof (subcall_size t s t' s' Hsub (specified_not_loops t s Ht Hs)).
  apply IH; auto. lia.
Qed.

Lemma some_true {A} (f : A -> option JsBool) l x :
  (forall y, In y l -> exists v, f y = Some v) ->
  In x l -> f x = Some JTrue -> some f l = Some JTrue.
Proof.
  induction l as [|y l IH]; simpl; intros Htot Hin Hx; [tauto|].
  destruct (Htot y (or_introl eq_refl)) as [v Ev]. rewrite Ev.
  destruct (truthy v) eqn:Tv; [reflexivity|].
  destruct Hin as [->|Hin]; [rewrite Hx in Ev; inversion Ev; subst; discriminate|].
  apply IH; auto.
Qed.

(** A union target accepts whatever one of its alternatives accepts. *)
Lemma union_target_accepts (u : Ty) (t' : Ty) :
  isUnion (Some u) = true -> specified u = true ->
  In t' (getUnionTypes (Some u)) ->
  forall s, specified s = true ->
    isAssignable (Some t') (Some s) = Some JTrue ->
    isAssignable (Some u) (Some s) = Some JTrue.
Proof.
  intros Uu Su Hin.
  assert (St' : specified t' = true) by exact (specified_union (Some u) t' Su Uu Hin).
  induction s as [k|ts IH|k r ps e a IHr IHps IHe IHa|v IHv] using Ty_ind';
    intros Ss Hs.
  - (* kind string: not a union *)
    rewrite isAssignable_unfold. unfold isAssignable_body.
    change (isUnion (Some (TKind k))) with false. cbv iota. rewrite Uu.
    eapply some_true; eauto.
    intros y Hy. apply (isAssignable_total (S (size y + size (TKind k)))); auto.
    exact (specified_union (Some u) y Su Uu Hy).
  - (* array of alternatives *)
    rewrite isAssignable_unfold in Hs |- *. unfold isAssignable_body in *.
    simpl isUnion in *. cbv iota in *. simpl getUnionTypes in *.
    rewrite every_true_iff in Hs |- *.
    simpl in Ss. rewrite forallb_forall in Ss.
    rewrite Forall_forall in *. intros x Hx. apply IH; auto.
  - destruct (isUnion (Some (TObject k r ps e a))) eqn:Us.
    + (* union object *)
      destruct k; try discriminate. simpl in Ss.
      destruct a as [ts|]; [|discriminate].
      rewrite isAssignable_unfold in Hs |- *. unfold isAssignable_body in *.
      rewrite Us in *. simpl getUnionTypes in *.
      rewrite every_true_iff in Hs |- *.
      rewrite forallb_forall in Ss.
      rewrite Forall_forall in *. intros x Hx. apply IHa; auto.
    + rewrite isAssignable_unfold. unfold isAssignable_body.
      rewrite Us, Uu.
      eapply some_true; eauto.
      intros y Hy.
      apply (isAssignable_total (S (size y + size (TObject k r ps e a)))); auto.
      exact (specified_union (Some u) y Su Uu Hy).
  - discriminate.
Qed.

Lemma combine_diag {A} (l : list A) p q : In (p, q) (combine l l) -> p = q /\ In p l.
Proof.
  induction l as [|x l IH]; simpl; [tauto|].
  intros [H|H]; [inversion H; auto|]. destruct (IH H); auto.
Qed.

Lemma kind_eqb_refl k : kind_eqb k k = true.
Proof. destruct k; reflexivity. Qed.

(** Reflexivity on fully specified types. *)
Lemma isAssignable_refl a :
  specified a = true -> isAssignable (Some a) (Some a) = Some JTrue.
Proof.
  induction a as [k|ts IH|k r ps e al IHr IHps IHe IHa|v IHv] using Ty_ind';
    intros Sa.
  - rewrite isAssignable_unfold. unfold isAssignable_body. simpl.
    destruct k; simpl in *; try discriminate; reflexivity.
  - rewrite isAssignable_unfold. unfold isAssignable_body. simpl.
    rewrite every_true_iff, Forall_forall. intros x Hx.
    pose proof Sa as Sa'. simpl in Sa'. rewrite forallb_forall in Sa'.
    rewrite Forall_forall in IH.
    apply (union_target_accepts (TAlts ts) x); auto.
  - destruct k; simpl in Sa;
      try (rewrite isAssignable_unfold; unfold isAssignable_body; simpl; reflexivity).
    + (* function *)
      destruct r as [r|]; [|discriminate].
      destruct ps as [ps|]; [|rewrite andb_false_r in Sa; discriminate].
      apply andb_true_iff in Sa. destruct Sa as [Sr Sp].
      rewrite isAssignable_unfold. unfold isAssignable_body. simpl.
      simpl in IHr. rewrite (IHr Sr). simpl. rewrite Nat.eqb_refl.
      rewrite every_true_iff, Forall_forall. intros [p q] Hin.
      apply combine_diag in Hin. destruct Hin as [<- Hin]. simpl.
      rewrite forallb_forall in Sp. specialize (Sp p Hin).
      rewrite Forall_forall in IHps. specialize (IHps p Hin).
      destruct (type p) as [x|]; [|discriminate]. simpl in IHps. auto.
    + (* array *)
      destruct e as [e|]; [|discriminate].
      rewrite isAssignable_unfold. unfold isAssignable_body. simpl.
      simpl in IHe. auto.
    + (* union object *)
      destruct al as [ts|]; [|discriminate].
      rewrite isAssignable_unfold. unfold isAssignable_body. simpl.
      rewrite every_true_iff, Forall_forall. intros x Hx.
      pose proof Sa as Sa'. rewrite forallb_forall in Sa'.
      simpl in IHa. rewrite Forall_forall in IHa.
      apply (union_target_accepts (TObject KUnion r ps e (Some ts)) x); auto.
  - discriminate.
Qed.

(** An array without element type and a function without return type do
    not accept themselves. *)
Lemma lacksPart_not_reflexive a :
  lacksPart a = true ->
  isUnion (Some a) = false
  /\ isAssignable (Some a) (Some a) = Some JFalse.
Proof.
  intros L.
  assert (U : isUnion (Some a) = false).
  { destruct a as [k|ts|k r ps e al|v]; try reflexivity; try discriminate.
    destruct k; try reflexivity; discriminate. }
  split; [exact U|].
  rewrite isAssignable_unfold. unfold isAssignable_body. rewrite U.
  unfold lacksPart in L. cbv zeta.
  destruct (getKind (Some a)) as [[]|] eqn:K; try discriminate.
  - (* function *)
    destruct (returnsOf (Some a)); [discriminate|].
    cbn [kindOpt_eqb option_eqb kind_eqb negb].
    rewrite isAssignable_unfold. reflexivity.
  - (* array *)
    destruct (elementsOf (Some a)); [discriminate|].
    cbn [kindOpt_eqb option_eqb kind_eqb].
    rewrite isAssignable_unfold. reflexivity.
Qed.

(** C1 (amended).  For every type [a] that is fully specified (every array
    type in it carries an element type, every function type a return type
    and a params list whose parameters all carry a type, every union its
    alternatives, and so on recursively), [isAssignable(a, a)] returns
    [true] and [union(a, a)] returns [a].  Full specification cannot be
    dropped: for an array type without element type and for a function
    type without return type (the kind strings ['array'] and ['function']
    and the type objects of these kinds without [elements], respectively
    [returns]), [isAssignable(a, a)] returns [false] and [union(a, a)] is
    the two-element union [[a, a]].  Both hold whichever objects the
    alternatives of [a] are. *)
Theorem reflexive_on_specified_types addressA addressB a :
  (specified a = true ->
   isAssignable (Some a) (Some a) = Some JTrue
   /\ unionAt addressA addressB (Some a) (Some a) = Some (Some a)
   /\ union (Some a) (Some a) = Some (Some a))
  /\ (lacksPart a = true ->
      isAssignable (Some a) (Some a) = Some JFalse
      /\ unionAt addressA addressB (Some a) (Some a) = Some (Some (TAlts [a; a]))
      /\ union (Some a) (Some a) = Some (Some (TAlts [a; a]))).
Proof.
  split.
  - intros Sa. pose proof (isAssignable_refl a Sa) as H.
    split; [exact H|]. unfold union, unionAt. now rewrite H.
  - intros L. destruct (lacksPart_not_reflexive a L) as [U H].
    split; [exact H|]. unfold union, unionAt. now rewrite H, U.
Qed.

Lemma reflexive_on_specified_types_witness :
  specified exampleType = true
  /\ isAssignable (Some exampleType) (Some exampleType) = Some JTrue
  /\ unionAt apartA apartA (Some exampleType) (Some exampleType)
     = Some (Some exampleType)
  /\ union (Some exampleType) (Some exampleType) = Some (Some exampleType).
Proof.
  split; [reflexivity|].
  apply (proj1 (reflexive_on_specified_types apartA apartA exampleType)).
  reflexivity.
Defined.

(** C1 as stated fails on the bare kind strings and on a canonical array
    without element type: an unknown element, return or parameter type is
    an unknown target, which accepts nothing. *)
Lemma bare_array_not_reflexive :
  isAssignable (Some (TKind KArray)) (Some (TKind KArray)) = Some JFalse
  /\ union (Some (TKind KArray)) (Some (TKind KArray))
     = Some (Some (TAlts [TKind KArray; TKind KArray]))
  /\ isAssignable (Some (TKind KFunction)) (Some (TKind KFunction)) = Some JFalse
  /\ union (Some (TKind KFunction)) (Some (TKind KFunction))
     = Some (Some (TAlts [TKind KFunction; TKind KFunction]))
  /\ isAssignable (Some (TObject KArray None None None None))
                  (Some (TObject KArray None None None None)) = Some JFalse.
Proof. repeat split. Qed.

(** ** union: the degenerate pairwise merge *)

(** C2 (the code departs from the claim).  [union(['array'], ['array'])]:
    neither argument is assignable to the other, both are unions, and the
    pairwise merge leaves the single alternative ['array'].  The code
    returns [members.values().next()], the iterator result
    [{value: 'array', done: false}], not the alternative: the result has no
    kind and is not a union.  The same holds whenever the merge of two
    unions leaves one member. *)
Theorem union_single_survivor_is_iterator_result :
  (let a := TAlts [TKind KArray] in
   isAssignable (Some a) (Some a) = Some JFalse
   /\ (forall addressA addressB,
         mergeAll (located addressB 0 (getUnionTypes (Some a)))
                  (located addressA 0 (getUnionTypes (Some a)))
                  (set_of (located addressA 0 (getUnionTypes (Some a))))
         = Some [(KeyString KArray, TKind KArray)])
   /\ union (Some a) (Some a) = Some (Some (TIteratorResult (TKind KArray)))
   /\ getKind (Some (TIteratorResult (TKind KArray))) = None
   /\ isUnion (Some (TIteratorResult (TKind KArray))) = false
   /\ union (Some (TAlts [TKind KArray; TKind KArray]))
            (Some (TAlts [TKind KArray; TKind KArray]))
      = Some (Some (TIteratorResult (TKind KArray))))
  /\ (forall addressA addressB a b r1 r2 m,
        isAssignable (Some a) (Some b) = Some r1 -> truthy r1 = false ->
        isAssignable (Some b) (Some a) = Some r2 -> truthy r2 = false ->
        isUnion (Some a) = true -> isUnion (Some b) = true ->
        mergeAll (located addressB 0 (getUnionTypes (Some b)))
                 (located addressA 0 (getUnionTypes (Some a)))
                 (set_of (located addressA 0 (getUnionTypes (Some a))))
        = Some [m] ->
        unionAt addressA addressB (Some a) (Some b)
        = Some (Some (TIteratorResult (snd m)))).
Proof.
  split; [repeat split|].
  intros addressA addressB a b r1 r2 m H1 T1 H2 T2 Ua Ub Hm.
  unfold unionAt. rewrite H1, T1, H2, T2, Ua, Ub. cbv zeta. rewrite Hm. reflexivity.
Qed.

(** The [Set] tells type objects apart by reference: the unit-size unions
    around two objects [{kind: 'array'}] merge into the iterator result
    when both hold the same object, and into a two-element union when
    they hold an object each; of four objects in two unions none is
    dropped for another one of the same structure. *)
Example test_union_objects :
  let array := TObject KArray None None None None in
  let number := TObject KNumber None None None None in
  let string := TObject KString None None None None in
  let null := TObject KNull None None None None in
  let apart a b := unionAt apartA (apartB (Some a)) (Some a) (Some b) in
  unionAt apartA apartA (Some (TAlts [array])) (Some (TAlts [array]))
  = Some (Some (TIteratorResult array))
  /\ union (Some (TAlts [array])) (Some (TAlts [array]))
     = Some (Some (TIteratorResult array))
  /\ apart (TAlts [array]) (TAlts [array])
     = Some (Some (TAlts [array; array]))
  /\ apart (TObject KUnion None None None (Some [array]))
           (TObject KUnion None None None (Some [array]))
     = Some (Some (TAlts [array; array]))
  /\ apart (TAlts [number; string]) (TAlts [string; null])
     = Some (Some (TAlts [number; string; string; null]))
  /\ apart (TAlts [TKind KNumber; TKind KString]) (TAlts [TKind KString; TKind KNull])
     = Some (Some (TAlts [TKind KNumber; TKind KString; TKind KNull])).
Proof. repeat split. Qed.

(** ** toCanonical and toShorthand *)

Section EqualityLemmas.
Context {A : Type} (eqb : A -> A -> bool).

Lemma option_eqb_spec (x y : option A) :
  (forall a b, x = Some a -> (eqb a b = true <-> a = b)) ->
  (option_eqb eqb x y = true <-> x = y).
Proof.
  intros H. destruct x as [a|], y as [b|]; simpl.
  - rewrite (H a b eq_refl). split; congruence.
  - split; discriminate.
  - split; discriminate.
  - tauto.
Qed.

Lemma list_eqb_spec (x y : list A) :
  Forall (fun a => forall b, eqb a b = true <-> a = b) x ->
  (list_eqb eqb x y = true <-> x = y).
Proof.
  intros H. revert y. induction H as [|a x Ha Hx IH]; intros [|b y]; simpl.
  - tauto.
  - split; discriminate.
  - split; discriminate.
  - rewrite andb_true_iff, Ha, IH. split; [intros [-> ->]; reflexivity|].
    intros E; inversion E; auto.
Qed.
End EqualityLemmas.

Lemma kind_eqb_spec a b : kind_eqb a b = true <-> a = b.
Proof. destruct a, b; simpl; split; congruence. Qed.

Lemma string_option_eqb_spec (x y : option string) :
  option_eqb String.eqb x y = true <-> x = y.
Proof. apply option_eqb_spec. intros a b _. apply String.eqb_eq. Qed.

Lemma Ty_eqb_spec a : forall b, Ty_eqb a b = true <-> a = b.
Proof.
  induction a as [k|ts IH|k r ps e al IHr IHps IHe IHa|v IHv] using Ty_ind';
    intros b; destruct b as [k'|ts'|k' r' ps' e' al'|v']; simpl;
    try (split; discriminate).
  - rewrite kind_eqb_spec. split; congruence.
  - rewrite (list_eqb_spec Ty_eqb ts ts' IH). split; congruence.
  - rewrite !andb_true_iff, kind_eqb_spec.
    rewrite (option_eqb_spec Ty_eqb r r').
    2:{ intros a b ->. apply IHr. }
    rewrite (option_eqb_spec _ ps ps').
    2:{ intros l l' ->. apply list_eqb_spec.
        simpl in IHps. rewrite Forall_forall in *. intros p Hp q.
        rewrite andb_true_iff, string_option_eqb_spec.
        rewrite (option_eqb_spec Ty_eqb (type p) (type q)).
        2:{ intros x y E. specialize (IHps p Hp). rewrite E in IHps. apply IHps. }
        destruct p, q; simpl. split; [intros [-> ->]; reflexivity|].
        intros E; inversion E; auto. }
    rewrite (option_eqb_spec Ty_eqb e e').
    2:{ intros a b ->. apply IHe. }
    rewrite (option_eqb_spec _ al al').
    2:{ intros l l' ->. apply list_eqb_spec. exact IHa. }
    split; [intros ((((-> & ->) & ->) & ->) & ->); reflexivity|].
    intros E; inversion E; auto.
  - rewrite IHv. split; congruence.
Qed.

Lemma Ty_eqb_refl a : Ty_eqb a a = true.
Proof. now apply Ty_eqb_spec. Qed.

Lemma Param_eqb_spec p q : Param_eqb p q = true <-> p = q.
Proof.
  unfold Param_eqb. rewrite andb_true_iff, string_option_eqb_spec.
  rewrite (option_eqb_spec Ty_eqb (type p) (type q)).
  2:{ intros a b _. apply Ty_eqb_spec. }
  destruct p, q; simpl. split; [intros [-> ->]; reflexivity|].
  intros E; inversion E; auto.
Qed.

Lemma list_eqb_eq {A} (eqb : A -> A -> bool) :
  (forall a b, eqb a b = true <-> a = b) ->
  forall x y, list_eqb eqb x y = true <-> x = y.
Proof.
  intros H x y. apply list_eqb_spec. apply Forall_forall. intros a _ b. apply H.
Qed.

(** mapIfChanged returns the mapped array, whichever object it is. *)
Lemma mapIfChanged_map {A} (eqb : A -> A -> bool) fn (arr : list A) :
  (forall a b, eqb a b = true <-> a = b) ->
  mapIfChanged eqb fn arr = mapOutcome fn arr.
Proof.
  intros H. unfold mapIfChanged.
  destruct (mapOutcome fn arr) as [newArr|e]; simpl; [|reflexivity].
  destruct (list_eqb eqb arr newArr) eqn:E; [|reflexivity].
  apply (list_eqb_eq eqb H) in E. now subst.
Qed.

Lemma mapOutcome_id {A} (l : list A) : mapOutcome (fun x => Ok x) l = Ok l.
Proof. induction l as [|x l IH]; simpl; [reflexivity|]. now rewrite IH. Qed.

(** What transformFunction amounts to when the parameter objects are left
    alone. *)
Lemma transformFunction_spec fn k r ps e a :
  transformFunction fn (fun p => Ok p) (TObject k r ps e a)
  = bind (optOutcome fn r) (fun returns => Ok (TObject k returns ps e a)).
Proof.
  unfold transformFunction.
  destruct (optOutcome fn r) as [returns|err]; simpl; [|reflexivity].
  assert (Hps : optOutcome (mapIfChanged Param_eqb (fun p => Ok p)) ps = Ok ps).
  { destruct ps as [l|]; simpl; [|reflexivity].
    rewrite (mapIfChanged_map Param_eqb _ l Param_eqb_spec), mapOutcome_id.
    reflexivity. }
  rewrite Hps. simpl.
  assert (Hrefl : option_eqb (list_eqb Param_eqb) ps ps = true).
  { apply option_eqb_spec; [|reflexivity].
    intros l l' _. apply list_eqb_eq. apply Param_eqb_spec. }
  rewrite Hrefl. simpl. rewrite orb_false_r.
  destruct (option_eqb Ty_eqb returns r) eqn:E; simpl; [|reflexivity].
  apply option_eqb_spec in E; [now subst|]. intros x y _. apply Ty_eqb_spec.
Qed.

Lemma transformArray_spec fn k r ps e a :
  transformArray fn (TObject k r ps (Some e) a)
  = bind (fn e) (fun elements => Ok (TObject k r ps (Some elements) a)).
Proof.
  unfold transformArray. destruct (fn e) as [x|err]; simpl; [|reflexivity].
  destruct (Ty_eqb x e) eqn:E; simpl; [|reflexivity].
  apply Ty_eqb_spec in E. now subst.
Qed.

Lemma transformUnion_spec fn k r ps e alts :
  transformUnion fn (TObject k r ps e (Some alts))
  = bind (mapOutcome fn alts) (fun anyOf => Ok (TObject k r ps e (Some anyOf))).
Proof.
  unfold transformUnion. rewrite (mapIfChanged_map Ty_eqb fn alts Ty_eqb_spec).
  destruct (mapOutcome fn alts) as [x|err]; simpl; [|reflexivity].
  destruct (list_eqb Ty_eqb x alts) eqn:E; simpl; [|reflexivity].
  apply (list_eqb_eq Ty_eqb Ty_eqb_spec) in E. now subst.
Qed.

(** The conversions, case by case. *)
Lemma toCanonicalTy_function r ps e a :
  toCanonicalTy (TObject KFunction r ps e a)
  = bind (optOutcome toCanonicalTy r) (fun r' => Ok (TObject KFunction r' ps e a)).
Proof. exact (transformFunction_spec toCanonicalTy KFunction r ps e a). Qed.

Lemma toShorthandTy_function r ps e a :
  toShorthandTy (TObject KFunction r ps e a)
  = match r, ps with
    | None, None => Ok (TKind KFunction)
    | _, _ => bind (optOutcome toShorthandTy r)
                   (fun r' => Ok (TObject KFunction r' ps e a))
    end.
Proof.
  destruct r, ps; try reflexivity;
    exact (transformFunction_spec toShorthandTy KFunction _ _ e a).
Qed.

Lemma toCanonicalTy_array r ps e a :
  toCanonicalTy (TObject KArray r ps (Some e) a)
  = bind (toCanonicalTy e) (fun x => Ok (TObject KArray r ps (Some x) a)).
Proof. exact (transformArray_spec toCanonicalTy KArray r ps e a). Qed.

Lemma toShorthandTy_array r ps e a :
  toShorthandTy (TObject KArray r ps (Some e) a)
  = bind (toShorthandTy e) (fun x => Ok (TObject KArray r ps (Some x) a)).
Proof. exact (transformArray_spec toShorthandTy KArray r ps e a). Qed.

Lemma toCanonicalTy_union r ps e ts :
  toCanonicalTy (TObject KUnion r ps e (Some ts))
  = bind (mapOutcome toCanonicalTy ts)
         (fun anyOf => Ok (TObject KUnion r ps e (Some anyOf))).
Proof. exact (transformUnion_spec toCanonicalTy KUnion r ps e ts). Qed.

Lemma toShorthandTy_alternatives ts :
  mapIfChanged Ty_eqb toShorthandTy ts = mapOutcome toShorthandTy ts.
Proof. apply mapIfChanged_map, Ty_eqb_spec. Qed.

Lemma roundTrips_list ts :
  Forall (fun t => representable t = true -> roundTrips t) ts ->
  forallb representable ts = true ->
  exists cs ss, mapOutcome toCanonicalTy ts = Ok cs
                /\ mapOutcome toShorthandTy cs = Ok ss
                /\ mapOutcome toShorthandTy ts = Ok ss.
Proof.
  induction 1 as [|t ts Ht Hts IH]; simpl; intros R.
  - exists [], []. auto.
  - apply andb_true_iff in R. destruct R as [Rt Rts].
    destruct (Ht Rt) as (c & s & -> & Hs & ->).
    destruct (IH Rts) as (cs & ss & -> & Hss & ->).
    exists (c :: cs), (s :: ss). simpl. rewrite Hs, Hss. auto.
Qed.

Lemma representable_roundTrips t : representable t = true -> roundTrips t.
Proof.
  induction t as [k|ts IH|k r ps e al IHr IHps IHe IHa|v IHv] using Ty_ind';
    intros R; unfold roundTrips.
  - destruct k; try discriminate; do 2 eexists; repeat split; reflexivity.
  - simpl in R. destruct (roundTrips_list ts IH R) as (cs & ss & Hc & Hs & Ht).
    exists (TObject KUnion None None None (Some cs)), (TAlts ss).
    cbn [toCanonicalTy toShorthandTy].
    rewrite Hc, !toShorthandTy_alternatives, Hs, Ht. auto.
  - simpl in R. rewrite !andb_true_iff in R. destruct R as (((Rr & Rp) & Re) & Ra).
    destruct k; try (do 2 eexists; repeat split; reflexivity).
    + (* function *)
      rewrite toCanonicalTy_function.
      destruct r as [x|].
      * destruct (IHr Rr) as (c & s & Hc & Hs & Ht).
        exists (TObject KFunction (Some c) ps e al),
               (TObject KFunction (Some s) ps e al).
        rewrite !toShorthandTy_function. cbn [optOutcome bind].
        rewrite Hc, Hs, Ht. auto.
      * exists (TObject KFunction None ps e al).
        rewrite !toShorthandTy_function.
        destruct ps; eexists; repeat split; reflexivity.
    + (* array *)
      destruct e as [x|].
      * destruct (IHe Re) as (c & s & Hc & Hs & Ht).
        exists (TObject KArray r ps (Some c) al), (TObject KArray r ps (Some s) al).
        rewrite toCanonicalTy_array, !toShorthandTy_array, Hc, Hs, Ht. auto.
      * do 2 eexists; repeat split; reflexivity.
    + (* union object *)
      destruct al as [ts|]; [|discriminate].
      destruct (roundTrips_list ts IHa Ra) as (cs & ss & Hc & Hs & Ht).
      exists (TObject KUnion r ps e (Some cs)), (TAlts ss).
      rewrite toCanonicalTy_union, Hc.
      cbn [toShorthandTy bind].
      rewrite !toShorthandTy_alternatives, Hs, Ht. auto.
  - discriminate.
Qed.

Lemma mapOutcome_Forall2 {A B} (f : A -> Outcome B) l : forall l',
  mapOutcome f l = Ok l' -> Forall2 (fun x y => f x = Ok y) l l'.
Proof.
  induction l as [|x l IH]; simpl; intros l' H.
  - inversion H. constructor.
  - destruct (f x) as [y|] eqn:E; [|discriminate]. simpl in H.
    destruct (mapOutcome f l) as [r|]; [|discriminate]. simpl in H.
    inversion H; subst. constructor; auto.
Qed.

(** The shorthand of a list of alternatives renders like the list. *)
Lemma formatTy_alternatives ts :
  Forall (fun t => forall s, toShorthandTy t = Ok s ->
                   forall ctx, formatTy s ctx = formatTy t ctx) ts ->
  forall ss, mapOutcome toShorthandTy ts = Ok ss ->
  map (fun alt => formatTy alt 1) ss = map (fun alt => formatTy alt 1) ts
  /\ (ss = [] <-> ts = []).
Proof.
  intros HF ss H. apply mapOutcome_Forall2 in H.
  induction H as [|t s ts ss Hts _ IH]; [simpl; tauto|].
  inversion HF as [|? ? Ht HF']; subst.
  destruct (IH HF') as [IH1 _]. simpl. rewrite (Ht s Hts 1), IH1.
  split; [reflexivity|]. split; discriminate.
Qed.

Lemma formatTy_toShorthand t : forall s,
  toShorthandTy t = Ok s -> forall ctx, formatTy s ctx = formatTy t ctx.
Proof.
  induction t as [k|ts IH|k r ps e al IHr IHps IHe IHa|v IHv] using Ty_ind';
    intros s H ctx.
  - simpl in H. inversion H. reflexivity.
  - cbn [toShorthandTy] in H. rewrite toShorthandTy_alternatives in H.
    destruct (mapOutcome toShorthandTy ts) as [ss|] eqn:E; [|discriminate].
    simpl in H. inversion H; subst.
    destruct (formatTy_alternatives ts IH ss E) as [Hm He].
    cbn [formatTy]. rewrite Hm.
    destruct ss, ts; try reflexivity.
    + destruct He as [He _]. specialize (He eq_refl). discriminate.
    + destruct He as [_ He]. specialize (He eq_refl). discriminate.
  - destruct k; try (simpl in H; inversion H; reflexivity).
    + (* function *)
      rewrite toShorthandTy_function in H.
      destruct r as [x|].
      * cbn [optOutcome bind] in H.
        destruct (toShorthandTy x) as [sx|] eqn:Ex; [|destruct ps; discriminate].
        assert (s = TObject KFunction (Some sx) ps e al).
        { destruct ps; simpl in H; inversion H; reflexivity. }
        subst s. cbn [formatTy]. simpl in IHr. now rewrite (IHr sx Ex 2).
      * destruct ps as [l|]; simpl in H; inversion H; reflexivity.
    + (* array *)
      destruct e as [x|]; [|simpl in H; inversion H; reflexivity].
      rewrite toShorthandTy_array in H.
      destruct (toShorthandTy x) as [sx|] eqn:Ex; [|discriminate].
      simpl in H. inversion H; subst. cbn [formatTy]. simpl in IHe.
      now rewrite (IHe sx Ex 3).
    + (* union object *)
      destruct al as [ts|]; [|discriminate].
      cbn [toShorthandTy] in H. rewrite toShorthandTy_alternatives in H.
      destruct (mapOutcome toShorthandTy ts) as [ss|] eqn:E; [|discriminate].
      simpl in H. inversion H; subst.
      destruct (formatTy_alternatives ts IHa ss E) as [Hm He].
      cbn [formatTy]. rewrite Hm.
      destruct ss, ts; try reflexivity.
      * destruct He as [He _]. specialize (He eq_refl). discriminate.
      * destruct He as [_ He]. specialize (He eq_refl). discriminate.
  - simpl in H. inversion H. reflexivity.
Qed.

(** C4.  For every representable type [t] (every union in it carries its
    alternatives), [toShorthand(toCanonical(t))] returns without an
    exception, and returns what [toShorthand(t)] returns: the round trip
    is the identity up to shorthand normal form, and its result is
    rendered by [formatType] like [t] itself.  This includes function
    types with [params] and [returns]; both conversions leave the
    Parameter objects untouched. *)
Theorem toShorthand_toCanonical t :
  representable t = true ->
  exists s,
    bind (toCanonical (Some t)) toShorthand = Ok (Some s)
    /\ toShorthand (Some t) = Ok (Some s)
    /\ forall ctx, formatType (Some s) ctx = formatType (Some t) ctx.
Proof.
  intros R. destruct (representable_roundTrips t R) as (c & s & Hc & Hs & Ht).
  exists s. unfold toCanonical, toShorthand. simpl. rewrite Hc. simpl.
  rewrite Hs, Ht. repeat split. exact (formatTy_toShorthand t s Ht).
Qed.

Lemma toShorthand_toCanonical_witness :
  representable exampleType = true
  /\ exists s,
      bind (toCanonical (Some exampleType)) toShorthand = Ok (Some s)
      /\ toShorthand (Some exampleType) = Ok (Some s)
      /\ forall ctx, formatType (Some s) ctx = formatType (Some exampleType) ctx.
Proof.
  split; [reflexivity|]. apply (toShorthand_toCanonical exampleType). reflexivity.
Defined.

(** ** formatType *)

Lemma parenthesize_top p s : parenthesize p 0 s = s.
Proof. destruct p; reflexivity. Qed.

Lemma formatTy_context t ctx body :
  ctx <= 3 ->
  (isUnion (Some t) = true -> getUnionTypes (Some t) <> []) ->
  formatTy t 0 = Some body ->
  formatTy t ctx
  = Some (if needsParentheses t ctx then "(" ++ body ++ ")" else body).
Proof.
  intros Hctx Hne.
  assert (Hunion : forall alts, alts <> [] ->
    match sequence (map (fun alt => formatTy alt 1) alts) with
    | Some parts =>
        Some (parenthesize match alts with [] => None | _ => Some 1 end 0
                           (join " | " parts))
    | None => None
    end = Some body ->
    match sequence (map (fun alt => formatTy alt 1) alts) with
    | Some parts =>
        Some (parenthesize match alts with [] => None | _ => Some 1 end ctx
                           (join " | " parts))
    | None => None
    end = Some (if Nat.ltb 1 ctx then "(" ++ body ++ ")" else body)).
  { intros alts Ha. destruct (sequence _) as [parts|]; [|discriminate].
    rewrite parenthesize_top. intros E; inversion E; subst.
    destruct alts; [congruence|]. reflexivity. }
  destruct t as [k|alts|k r ps e a|v]; unfold needsParentheses; simpl.
  - intros E; exact E.
  - apply Hunion. apply Hne. reflexivity.
  - destruct k; try (intros E; exact E).
    + (* function *)
      destruct (match ps with Some l => _ | None => _ end) as [paramList|];
        [|discriminate].
      destruct r as [rt|]; [|intros E; exact E].
      destruct (formatTy rt 2) as [rs|]; [|discriminate].
      simpl. intros E; inversion E; subst. reflexivity.
    + (* array *)
      destruct e as [x|]; [|intros E; exact E].
      destruct (formatTy x 3) as [es|]; [|discriminate].
      intros E; inversion E; subst.
      replace (Nat.ltb 3 ctx) with false; [reflexivity|].
      symmetry. apply Nat.ltb_ge. exact Hctx.
    + (* union object *)
      destruct a as [alts|]; [|discriminate].
      apply Hunion. apply Hne. reflexivity.
  - intros E; exact E.
Qed.



(** ** Totality and the order of [isAssignable] *)

Lemma wellFormed_object k r ps e a :
  wellFormed (TObject k r ps e a) = true ->
  wellFormedOpt r = true
  /\ (forall l p, ps = Some l -> In p l -> wellFormedOpt (type p) = true)
  /\ wellFormedOpt e = true
  /\ match a with
     | Some ts => forall x, In x ts -> wellFormed x = true
     | None => k <> KUnion
     end.
Proof.
  simpl. rewrite !andb_true_iff. intros (((Hr & Hp) & He) & Ha).
  repeat split; auto.
  - intros l p -> Hin. rewrite forallb_forall in Hp. apply (Hp p Hin).
  - destruct a as [ts|].
    + intros x Hx. rewrite forallb_forall in Ha. auto.
    + intros ->. discriminate.
Qed.

Lemma wellFormed_not_loops t s :
  wellFormedOpt t = true -> wellFormedOpt s = true -> loops t s = false.
Proof.
  intros Ht Hs. unfold loops.
  assert (B : forall x, wellFormedOpt x = true -> bareUnion x = false).
  { intros [[k|ts|k r ps e a|v]|] H; try reflexivity.
    destruct k, a; try reflexivity.
    apply wellFormed_object in H. destruct H as (_ & _ & _ & H). now elim H. }
  rewrite (B t Ht), (B s Hs). now destruct (isUnion s), (isUnion t).
Qed.

Lemma wellFormed_union t x :
  wellFormedOpt t = true -> In x (getUnionTypes t) -> wellFormed x = true.
Proof.
  destruct t as [[k|ts|k r ps e a|v]|]; simpl getUnionTypes.
  - intros _ [<-|[]]. reflexivity.
  - simpl. intros H Hin. rewrite forallb_forall in H. auto.
  - intros H. pose proof (wellFormed_object _ _ _ _ _ H) as (_ & _ & _ & Ha).
    destruct a as [ts|]; [exact (Ha x)|].
    intros [<-|[]]. exact H.
  - intros H [<-|[]]. exact H.
  - intros _ [].
Qed.

Lemma subcall_wellFormed t s t' s' :
  subcall t s t' s' -> wellFormedOpt t = true -> wellFormedOpt s = true ->
  wellFormedOpt t' = true /\ wellFormedOpt s' = true.
Proof.
  assert (R : forall x, wellFormedOpt x = true -> wellFormedOpt (returnsOf x) = true).
  { intros [[k|ts|k r ps e a|v]|] H; try reflexivity.
    now apply wellFormed_object in H. }
  assert (E : forall x, wellFormedOpt x = true -> wellFormedOpt (elementsOf x) = true).
  { intros [[k|ts|k r ps e a|v]|] H; try reflexivity.
    now apply wellFormed_object in H. }
  assert (P : forall x l p, wellFormedOpt x = true -> paramsOf x = Some l -> In p l ->
                           wellFormedOpt (type p) = true).
  { intros [[k|ts|k r ps e a|v]|] l p H; simpl; try discriminate.
    apply wellFormed_object in H. destruct H as (_ & H & _). intros ->. eauto. }
  intros H; destruct H as
      [x Us Hx | x Us Ut Hx | Us Ut Kt Ks | tps sps p q Us Ut Kt Ks Pt Ps Hp Hq
       | Us Ut Kt Ks]; intros Ht Hs.
  - split; [assumption|]. exact (wellFormed_union s x Hs Hx).
  - split; [|assumption]. exact (wellFormed_union t x Ht Hx).
  - auto.
  - split; [exact (P s sps p Hs Ps Hp)|exact (P t tps q Ht Pt Hq)].
  - auto.
Qed.

Lemma isAssignable_returns_sized n : forall t s,
  sizeOpt t + sizeOpt s < n ->
  wellFormedOpt t = true -> wellFormedOpt s = true ->
  exists r, isAssignable t s = Some r.
Proof.
  induction n as [|n IH]; intros t s Hn Ht Hs; [lia|].
  rewrite isAssignable_unfold. apply isAssignable_body_total.
  intros t' s' Hsub.
  destruct (subcall_wellFormed t s t' s' Hsub Ht Hs) as [Ht' Hs'].
  pose proof (subcall_size t s t' s' Hsub (wellFormed_not_loops t s Ht Hs)).
  apply IH; auto. lia.
Qed.

Lemma isAssignable_wellFormed t s :
  wellFormedOpt t = true -> wellFormedOpt s = true ->
  exists r, isAssignable t s = Some r.
Proof. apply (isAssignable_returns_sized (S (sizeOpt t + sizeOpt s))). lia. Qed.

(** ['any'] is the top of the lattice. *)
Lemma any_accepts_type t : getKind t = Some KAny ->
  forall s, wellFormed s = true -> isAssignable t (Some s) = Some JTrue.
Proof.
  intros Kt.
  assert (Ut : isUnion t = false).
  { destruct t as [[k|ts|k r ps e a|v]|]; try discriminate; try reflexivity.
    simpl in Kt. inversion Kt; subst. reflexivity. }
  assert (Hbase : forall s, isUnion s = false -> isAssignable t s = Some JTrue).
  { intros s Us. rewrite isAssignable_unfold. unfold isAssignable_body.
    now rewrite Us, Ut, Kt. }
  induction s as [k|ts IH|k r ps e a IHr IHps IHe IHa|v IHv] using Ty_ind';
    intros W.
  - now apply Hbase.
  - rewrite isAssignable_unfold. unfold isAssignable_body. simpl.
    rewrite every_true_iff, Forall_forall. intros x Hx.
    rewrite Forall_forall in IH. apply IH; auto.
    simpl in W. rewrite forallb_forall in W. auto.
  - destruct (isUnion (Some (TObject k r ps e a))) eqn:Us; [|now apply Hbase].
    destruct k; try discriminate.
    apply wellFormed_object in W. destruct W as (_ & _ & _ & Wa).
    destruct a as [ts|]; [|now elim Wa].
    rewrite isAssignable_unfold. unfold isAssignable_body. rewrite Us. simpl.
    rewrite every_true_iff, Forall_forall. intros x Hx.
    simpl in IHa. rewrite Forall_forall in IHa. auto.
  - now apply Hbase.
Qed.

(** X2.  ['any'] accepts everything: [isAssignable('any', s)] and
    [isAssignable({kind: 'any'}, s)] return [true] for every well-formed
    source [s], an absent one included. *)
Theorem any_accepts_every_type s :
  wellFormedOpt s = true ->
  isAssignable (Some (TKind KAny)) s = Some JTrue
  /\ isAssignable (Some (TObject KAny None None None None)) s = Some JTrue.
Proof.
  intros W. destruct s as [s|].
  - split; apply any_accepts_type; auto.
  - split; reflexivity.
Qed.

Lemma any_accepts_every_type_witness :
  wellFormedOpt (Some exampleType) = true
  /\ isAssignable (Some (TKind KAny)) (Some exampleType) = Some JTrue
  /\ isAssignable (Some (TObject KAny None None None None)) (Some exampleType)
     = Some JTrue.
Proof.
  split; [reflexivity|]. apply (any_accepts_every_type (Some exampleType)).
  reflexivity.
Defined.

(** ** union as an upper bound *)

Lemma alternatives_accept_member l s :
  forallb specified l = true -> In s l ->
  isAssignable (Some (TAlts l)) (Some s) = Some JTrue.
Proof.
  intros Sl Hin.
  assert (Ss : specified s = true) by (rewrite forallb_forall in Sl; auto).
  apply (union_target_accepts (TAlts l) s); auto.
  now apply isAssignable_refl.
Qed.

Lemma alternatives_accept l a :
  forallb specified l = true -> specified a = true ->
  (forall x, In x (alternativesOf a) -> In x l) ->
  isAssignable (Some (TAlts l)) (Some a) = Some JTrue.
Proof.
  intros Sl Sa Hsub. unfold alternativesOf in Hsub.
  destruct (isUnion (Some a)) eqn:Ua.
  - rewrite isAssignable_unfold. unfold isAssignable_body. rewrite Ua.
    rewrite every_true_iff, Forall_forall. intros x Hx.
    apply alternatives_accept_member; auto.
  - apply alternatives_accept_member; auto. apply Hsub. now left.
Qed.

Lemma specified_alternatives a :
  specified a = true -> forallb specified (alternativesOf a) = true.
Proof.
  intros Sa. apply forallb_forall. intros x Hx. unfold alternativesOf in Hx.
  destruct (isUnion (Some a)) eqn:Ua.
  - exact (specified_union (Some a) x Sa Ua Hx).
  - destruct Hx as [<-|[]]. exact Sa.
Qed.

Lemma truthy_JTrue r : truthy r = true -> r = JTrue.
Proof. destruct r; simpl; congruence. Qed.


(** ** Transitivity *)

Lemma some_true_inv {A} (f : A -> option JsBool) l :
  some f l = Some JTrue -> exists x, In x l /\ f x = Some JTrue.
Proof.
  induction l as [|x l IH]; simpl; [discriminate|].
  destruct (f x) as [v|] eqn:E; [|discriminate].
  destruct (truthy v) eqn:T.
  - intros _. exists x. apply truthy_JTrue in T. subst. auto.
  - intros H. destruct (IH H) as (y & Hy & Ey). eauto.
Qed.

Lemma specified_not_bare a : specified a = true -> bareUnion (Some a) = false.
Proof.
  destruct a as [k|ts|k r ps e [ts|]|v]; try reflexivity.
  - destruct k; reflexivity.
  - destruct k; try reflexivity. discriminate.
Qed.

Lemma ofBool_true x : Some (ofBool x) = Some JTrue -> x = true.
Proof. destruct x; [reflexivity|discriminate]. Qed.

(** Assignability between two function objects that carry [returns] and
    [params]. *)
Lemma function_objects_assignable tr tps te ta sr sps se sa :
  isAssignable (Some (TObject KFunction (Some tr) (Some tps) te ta))
               (Some (TObject KFunction (Some sr) (Some sps) se sa)) = Some JTrue
  <-> (isAssignable (Some tr) (Some sr) = Some JTrue
       /\ List.length tps = List.length sps
       /\ forall i p q, nth_error sps i = Some p -> nth_error tps i = Some q ->
            isAssignable (type p) (type q) = Some JTrue).
Proof.
  rewrite isAssignable_unfold. unfold isAssignable_body. simpl.
  destruct (isAssignable (Some tr) (Some sr)) as [[]|] eqn:Er; simpl.
  - destruct (Nat.eqb (List.length tps) (List.length sps)) eqn:El.
    + apply Nat.eqb_eq in El. rewrite every_true_iff.
      rewrite (Forall_combine_nth
                 (fun pq => isAssignable (type (fst pq)) (type (snd pq)) = Some JTrue)).
      simpl. tauto.
    + apply Nat.eqb_neq in El. split; [discriminate|tauto].
  - split; [discriminate|]. intros (H & _); discriminate.
  - split; [discriminate|]. intros (H & _); discriminate.
  - split; [discriminate|]. intros (H & _); discriminate.
Qed.

Lemma array_objects_assignable tr tps te ta sr sps se sa :
  isAssignable (Some (TObject KArray tr tps (Some te) ta))
               (Some (TObject KArray sr sps (Some se) sa))
  = isAssignable (Some te) (Some se).
Proof. rewrite isAssignable_unfold. reflexivity. Qed.

(** The kind of the source, read off a successful call between two types
    that are not unions. *)
Lemma plain_assignable_kinds t s :
  isUnion (Some s) = false -> isUnion (Some t) = false ->
  isAssignable (Some t) (Some s) = Some JTrue ->
  match getKind (Some t) with
  | Some KAny => True
  | Some KObject => getKind (Some s) = Some KObject \/ getKind (Some s) = Some KArray
  | Some KUnion | None => False
  | Some k => getKind (Some s) = Some k
  end.
Proof.
  intros Us Ut. rewrite isAssignable_unfold. unfold isAssignable_body.
  rewrite Us, Ut. cbv zeta.
  destruct (getKind (Some t)) as [[]|]; try discriminate; auto;
    try (intros H; apply ofBool_true in H; now apply kindOpt_eqb_eq in H).
  - intros H; apply ofBool_true, orb_true_iff in H.
    destruct H as [H|H]; apply kindOpt_eqb_eq in H; auto.
  - destruct (kindOpt_eqb (getKind (Some s)) (Some KFunction)) eqn:E; simpl;
      [|discriminate]. intros _. now apply kindOpt_eqb_eq in E.
  - destruct (kindOpt_eqb (getKind (Some s)) (Some KArray)) eqn:E; simpl;
      [|discriminate]. intros _. now apply kindOpt_eqb_eq in E.
Qed.

(** The converse for the kinds that are compared by name only. *)
Lemma plain_assignable_by_kind t s k :
  isUnion (Some s) = false -> isUnion (Some t) = false ->
  getKind (Some t) = Some k ->
  match k with
  | KAny => True
  | KObject => getKind (Some s) = Some KObject \/ getKind (Some s) = Some KArray
  | KFunction | KArray | KUnion => False
  | _ => getKind (Some s) = Some k
  end ->
  isAssignable (Some t) (Some s) = Some JTrue.
Proof.
  intros Us Ut Kt. rewrite isAssignable_unfold. unfold isAssignable_body.
  rewrite Us, Ut, Kt. cbv zeta.
  destruct k; try tauto; try (intros ->; reflexivity).
  intros [-> | ->]; reflexivity.
Qed.

Lemma isAssignable_trans_sized n : forall a b c,
  size a + size b + size c < n ->
  specified a = true -> specified b = true -> specified c = true ->
  isAssignable (Some a) (Some b) = Some JTrue ->
  isAssignable (Some b) (Some c) = Some JTrue ->
  isAssignable (Some a) (Some c) = Some JTrue.
Proof.
  induction n as [|n IH]; intros a b c Hn Sa Sb Sc H1 H2; [lia|].
  destruct (isUnion (Some c)) eqn:Uc.
  { (* the source is a union: every alternative *)
    rewrite isAssignable_unfold in H2 |- *. unfold isAssignable_body in *.
    rewrite Uc in *. rewrite every_true_iff, Forall_forall in *.
    intros x Hx. apply (IH a b x); auto.
    - pose proof (getUnionTypes_size (Some c) x Uc (specified_not_bare c Sc) Hx).
      simpl in *. lia.
    - exact (specified_union (Some c) x Sc Uc Hx). }
  destruct (isUnion (Some b)) eqn:Ub.
  { (* the middle type is a union *)
    rewrite isAssignable_unfold in H1, H2. unfold isAssignable_body in *.
    rewrite Ub in H1. rewrite Uc, Ub in H2.
    apply some_true_inv in H2. destruct H2 as (y & Hy & Hyc).
    rewrite every_true_iff, Forall_forall in H1.
    apply (IH a y c); auto.
    - pose proof (getUnionTypes_size (Some b) y Ub (specified_not_bare b Sb) Hy).
      simpl in *. lia.
    - exact (specified_union (Some b) y Sb Ub Hy). }
  destruct (isUnion (Some a)) eqn:Ua.
  { (* the target is a union *)
    rewrite isAssignable_unfold in H1 |- *. unfold isAssignable_body in *.
    rewrite Ub, Ua in H1. rewrite Uc, Ua.
    apply some_true_inv in H1. destruct H1 as (x & Hx & Hxb).
    assert (Sx : specified x = true) by exact (specified_union (Some a) x Sa Ua Hx).
    eapply some_true; [|exact Hx|].
    - intros y Hy. apply (isAssignable_total (S (size y + size c))); auto.
      exact (specified_union (Some a) y Sa Ua Hy).
    - apply (IH x b c); auto.
      pose proof (getUnionTypes_size (Some a) x Ua (specified_not_bare a Sa) Hx).
      simpl in *. lia. }
  (* no union *)
  pose proof (plain_assignable_kinds a b Ub Ua H1) as K1.
  pose proof (plain_assignable_kinds b c Uc Ub H2) as K2.
  destruct (getKind (Some a)) as [ka|] eqn:Ka; [|contradiction].
  destruct ka; try contradiction;
    try (rewrite K1 in K2; apply (plain_assignable_by_kind a c _ Uc Ua Ka); exact K2).
  - (* object *)
    apply (plain_assignable_by_kind a c _ Uc Ua Ka).
    destruct K1 as [K1|K1]; rewrite K1 in K2; auto.
  - (* function *)
    rewrite K1 in K2.
    destruct (specified_function (Some a) Sa Ka) as (ra & pa & ea & la & Ea & Sra & Spa).
    destruct (specified_function (Some b) Sb K1) as (rb & pb & eb & lb & Eb & Srb & Spb).
    destruct (specified_function (Some c) Sc K2) as (rc & pc & ec & lc & Ec & Src & Spc).
    inversion Ea; inversion Eb; inversion Ec; subst a b c. clear Ea Eb Ec.
    apply function_objects_assignable in H1. destruct H1 as (R1 & L1 & P1).
    apply function_objects_assignable in H2. destruct H2 as (R2 & L2 & P2).
    apply function_objects_assignable. split; [|split].
    + apply (IH ra rb rc); auto. simpl in Hn. lia.
    + congruence.
    + intros i p q Hp Hq.
      destruct (nth_error pb i) as [m|] eqn:Hm.
      2:{ apply nth_error_None in Hm.
          assert (i < List.length pa) by (apply nth_error_Some; congruence). lia. }
      pose proof (P1 i m q Hm Hq) as Q1.
      pose proof (P2 i p m Hp Hm) as Q2.
      pose proof (Spa q (nth_error_In _ _ Hq)) as Sq.
      pose proof (Spb m (nth_error_In _ _ Hm)) as Sm.
      pose proof (Spc p (nth_error_In _ _ Hp)) as Sp.
      pose proof (paramsOf_size (Some (TObject KFunction (Some ra) (Some pa) ea la))
                    pa q eq_refl (nth_error_In _ _ Hq)) as Zq.
      pose proof (paramsOf_size (Some (TObject KFunction (Some rb) (Some pb) eb lb))
                    pb m eq_refl (nth_error_In _ _ Hm)) as Zm.
      pose proof (paramsOf_size (Some (TObject KFunction (Some rc) (Some pc) ec lc))
                    pc p eq_refl (nth_error_In _ _ Hp)) as Zp.
      destruct (type p) as [tp|]; [|discriminate].
      destruct (type m) as [tm|]; [|discriminate].
      destruct (type q) as [tq|]; [|discriminate].
      apply (IH tp tm tq); auto. unfold sizeOpt in *. lia.
  - (* array *)
    rewrite K1 in K2.
    destruct (specified_array (Some a) Sa Ka) as (ra & pa & ea & la & Ea & Sea).
    destruct (specified_array (Some b) Sb K1) as (rb & pb & eb & lb & Eb & Seb).
    destruct (specified_array (Some c) Sc K2) as (rc & pc & ec & lc & Ec & Sec).
    inversion Ea; inversion Eb; inversion Ec; subst a b c. clear Ea Eb Ec.
    rewrite array_objects_assignable in *.
    apply (IH ea eb ec); auto. simpl in Hn. lia.
  - (* any *)
    apply (plain_assignable_by_kind a c _ Uc Ua Ka). exact I.
Qed.

Lemma isAssignable_trans a b c :
  specified a = true -> specified b = true -> specified c = true ->
  isAssignable (Some a) (Some b) = Some JTrue ->
  isAssignable (Some b) (Some c) = Some JTrue ->
  isAssignable (Some a) (Some c) = Some JTrue.
Proof. apply (isAssignable_trans_sized (S (size a + size b + size c))). lia. Qed.

(** X3.  [isAssignable] is transitive on fully specified
    types: if [isAssignable(a, b)] and [isAssignable(b, c)] return [true],
    so does [isAssignable(a, c)].  (Parameter types enter contravariantly,
    return and element types covariantly.) *)
Theorem isAssignable_transitive a b c :
  specified a = true -> specified b = true -> specified c = true ->
  isAssignable (Some a) (Some b) = Some JTrue ->
  isAssignable (Some b) (Some c) = Some JTrue ->
  isAssignable (Some a) (Some c) = Some JTrue.
Proof.
  intros Sa Sb Sc H1 H2.
  apply (isAssignable_trans_sized (S (size a + size b + size c)) a b c); auto.
Qed.

Lemma isAssignable_transitive_witness :
  isAssignable (Some (TAlts [TKind KObject; TKind KNull]))
               (Some (TObject KArray None None (Some (TKind KNumber)) None))
  = Some JTrue.
Proof.
  apply (isAssignable_transitive
           (TAlts [TKind KObject; TKind KNull]) (TKind KObject)
           (TObject KArray None None (Some (TKind KNumber)) None));
    reflexivity.
Defined.

(** ** The Set of alternatives *)

Lemma Key_eqb_spec x y : Key_eqb x y = true <-> x = y.
Proof.
  destruct x as [k1|a1], y as [k2|a2]; simpl.
  - rewrite kind_eqb_spec. split; congruence.
  - split; discriminate.
  - split; discriminate.
  - rewrite Nat.eqb_eq. split; congruence.
Qed.

Lemma Key_eqb_refl x : Key_eqb x x = true.
Proof. now apply Key_eqb_spec. Qed.

Lemma coherent_spec l :
  coherent l = true ->
  forall x y, In x l -> In y l -> fst x = fst y -> snd x = snd y.
Proof.
  unfold coherent. rewrite forallb_forall. intros H x y Hx Hy E.
  specialize (H x Hx). rewrite forallb_forall in H. specialize (H y Hy).
  rewrite E, Key_eqb_refl in H. simpl in H. now apply Ty_eqb_spec.
Qed.

Lemma set_has_spec m x :
  set_has m x = true <-> exists z, In z m /\ fst z = fst x.
Proof.
  unfold set_has. rewrite existsb_exists. split.
  - intros (z & Hz & E). apply Key_eqb_spec in E. eauto.
  - intros (z & Hz & E). exists z. split; [exact Hz|]. now apply Key_eqb_spec.
Qed.

Lemma set_add_incl m y x : In x (set_add m y) -> In x m \/ x = y.
Proof.
  unfold set_add. destruct (set_has m y); [auto|].
  rewrite in_app_iff. simpl. intuition.
Qed.

Lemma set_add_keeps m y x : In x m -> In x (set_add m y).
Proof.
  unfold set_add. destruct (set_has m y); [auto|].
  rewrite in_app_iff. auto.
Qed.

Lemma set_add_holds m y : exists z, In z (set_add m y) /\ fst z = fst y.
Proof.
  unfold set_add. destruct (set_has m y) eqn:E.
  - now apply set_has_spec.
  - exists y. rewrite in_app_iff. simpl. auto.
Qed.

Lemma set_delete_incl m y x : In x (set_delete m y) -> In x m.
Proof. unfold set_delete. rewrite filter_In. tauto. Qed.

Lemma set_delete_keeps m y x :
  In x m -> fst y <> fst x -> In x (set_delete m y).
Proof.
  intros H N. unfold set_delete. rewrite filter_In. split; [exact H|].
  destruct (Key_eqb (fst y) (fst x)) eqn:E; [|reflexivity].
  apply Key_eqb_spec in E. congruence.
Qed.

Lemma set_of_spec l :
  (forall x, In x (set_of l) -> In x l)
  /\ (forall x, In x l -> exists z, In z (set_of l) /\ fst z = fst x).
Proof.
  unfold set_of.
  assert (G : forall acc,
    (forall x, In x (fold_left set_add l acc) -> In x acc \/ In x l)
    /\ (forall x, In x acc \/ In x l ->
          exists z, In z (fold_left set_add l acc) /\ fst z = fst x)).
  { induction l as [|y l IH]; intros acc; simpl.
    - split; [auto|]. intros x [H|[]]. eauto.
    - destruct (IH (set_add acc y)) as [I1 I2]. split.
      + intros x Hx. destruct (I1 x Hx) as [H|H]; auto.
        destruct (set_add_incl _ _ _ H) as [H'| ->]; auto.
      + intros x [H|[<-|H]].
        * apply I2. left. now apply set_add_keeps.
        * destruct (set_add_holds acc y) as (z & Hz & E).
          destruct (I2 z (or_introl Hz)) as (z' & Hz' & E').
          exists z'. split; [exact Hz'|congruence].
        * apply I2. now right. }
  destruct (G []) as [G1 G2]. split.
  - intros x Hx. destruct (G1 x Hx) as [[]|H]. exact H.
  - intros x Hx. apply G2. now right.
Qed.

Lemma tys_located address l : forall i, tys (located address i l) = l.
Proof.
  unfold tys. induction l as [|t l IH]; intros i; simpl; [reflexivity|].
  now rewrite IH.
Qed.

Lemma In_located address l : forall i x,
  In x (located address i l) ->
  exists j, nth_error l j = Some (snd x) /\ fst x = keyOf (address (i + j)) (snd x).
Proof.
  induction l as [|t l IH]; intros i x; simpl; [intros []|].
  intros [<-|H].
  - exists 0. rewrite Nat.add_0_r. auto.
  - destruct (IH _ _ H) as (j & Hj & E). exists (S j).
    rewrite Nat.add_succ_r. auto.
Qed.

Lemma In_tys m x : In x m -> In (snd x) (tys m).
Proof. intros H. unfold tys. now apply in_map. Qed.

Lemma In_tys_inv m t : In t (tys m) -> exists x, In x m /\ snd x = t.
Proof.
  unfold tys. rewrite in_map_iff. intros (x & E & H). eauto.
Qed.

(** Two values built apart share no object. *)
Lemma coherent_apart a b :
  forall x y, In x (alternativesAt apartA (apartB (Some a)) a b) ->
              In y (alternativesAt apartA (apartB (Some a)) a b) ->
              fst x = fst y -> snd x = snd y.
Proof.
  assert (K : forall i j t t', keyOf i t = keyOf j t' -> t = t' \/ i = j).
  { intros i j t t' E. destruct t, t'; simpl in E; inversion E; auto. }
  unfold alternativesAt, apartA, apartB. intros x y Hx Hy E.
  remember (getUnionTypes (Some a)) as la eqn:Ela. clear Ela.
  remember (getUnionTypes (Some b)) as lb eqn:Elb. clear Elb.
  apply in_app_or in Hx. apply in_app_or in Hy.
  destruct Hx as [Hx|Hx], Hy as [Hy|Hy];
    apply In_located in Hx; apply In_located in Hy;
    destruct Hx as (i & Hi & Ei); destruct Hy as (j & Hj & Ej);
    rewrite Ei, Ej in E; destruct (K _ _ _ _ E) as [H|H]; auto;
    cbn [Nat.add] in H.
  - subst j. congruence.
  - assert (i < List.length la) by (apply nth_error_Some; congruence). lia.
  - assert (j < List.length la) by (apply nth_error_Some; congruence). lia.
  - assert (i = j) by lia. subst j. congruence.
Qed.

Lemma firstIndex_spec t all :
  In t all -> nth_error all (firstIndex t all) = Some t.
Proof.
  induction all as [|x all IH]; [intros []|]. cbn [firstIndex].
  destruct (Ty_eqb t x) eqn:E.
  - apply Ty_eqb_spec in E. now subst.
  - intros [->|H]; [now rewrite Ty_eqb_refl in E|]. cbn. auto.
Qed.

(** With the addresses that [union] takes, one address holds one value. *)
Lemma coherent_shared a b :
  let all := (getUnionTypes (Some a) ++ getUnionTypes (Some b))%list in
  forall x y,
    In x (alternativesAt (sharedAddress all (getUnionTypes (Some a)))
                         (sharedAddress all (getUnionTypes (Some b))) a b) ->
    In y (alternativesAt (sharedAddress all (getUnionTypes (Some a)))
                         (sharedAddress all (getUnionTypes (Some b))) a b) ->
    fst x = fst y -> snd x = snd y.
Proof.
  intros all.
  assert (K : forall i j t t', keyOf i t = keyOf j t' -> t = t' \/ i = j).
  { intros i j t t' E. destruct t, t'; simpl in E; inversion E; auto. }
  assert (Key : forall l x,
            (forall t, In t l -> In t all) ->
            In x (located (sharedAddress all l) 0 l) ->
            In (snd x) all /\ fst x = keyOf (firstIndex (snd x) all) (snd x)).
  { intros l x Hl Hx. apply In_located in Hx. destruct Hx as (i & Hi & E).
    split; [apply Hl; now apply nth_error_In in Hi|].
    rewrite E. cbn [Nat.add]. unfold sharedAddress. now rewrite Hi. }
  assert (Every : forall x,
            In x (alternativesAt (sharedAddress all (getUnionTypes (Some a)))
                                 (sharedAddress all (getUnionTypes (Some b))) a b) ->
            In (snd x) all /\ fst x = keyOf (firstIndex (snd x) all) (snd x)).
  { intros x Hx. unfold alternativesAt in Hx. apply in_app_or in Hx.
    destruct Hx as [Hx|Hx]; (apply Key in Hx; [exact Hx|]);
      intros t Ht; unfold all; apply in_or_app; auto. }
  intros x y Hx Hy E.
  destruct (Every x Hx) as [Ix Ex]. destruct (Every y Hy) as [Iy Ey].
  rewrite Ex, Ey in E. destruct (K _ _ _ _ E) as [H|H]; [exact H|].
  pose proof (firstIndex_spec _ _ Ix) as Nx.
  pose proof (firstIndex_spec _ _ Iy) as Ny.
  rewrite H in Nx. congruence.
Qed.

(** ** The pairwise merge on fully specified alternatives *)

Lemma isAssignable_specified a b :
  specified a = true -> specified b = true ->
  exists r, isAssignable (Some a) (Some b) = Some r.
Proof. intros. apply (isAssignable_total (S (size a + size b))); auto. Qed.

Lemma covered_self x members :
  specified x = true -> In x members -> covered x members.
Proof. intros S H. exists x. auto using isAssignable_refl. Qed.

Section Merge.
(** All the elements the merge handles, with one structure per key. *)
Variable universe : list Member.
Hypothesis coherence :
  forall x y, In x universe -> In y universe -> fst x = fst y -> snd x = snd y.

Local Abbreviation known := (Types.known universe).

Lemma known_set_add m y : known m -> known [y] -> known (set_add m y).
Proof.
  intros [K1 K2] [Y1 Y2]. split; intros x Hx;
    destruct (set_add_incl _ _ _ Hx) as [H| ->]; auto;
    [apply Y1|apply Y2]; now left.
Qed.

Lemma known_set_delete m y : known m -> known (set_delete m y).
Proof.
  intros [K1 K2]. split; intros x Hx; apply set_delete_incl in Hx; auto.
Qed.

(** After [members.add(be)] the value of [be] is a member. *)
Lemma added_covered m be :
  known m -> known [be] -> covered (snd be) (tys (set_add m be)).
Proof.
  intros Km Kb. destruct (set_add_holds m be) as (z & Hz & E).
  pose proof (known_set_add m be Km Kb) as [K1 K2].
  assert (snd z = snd be).
  { apply coherence; auto. apply (proj1 Kb). now left. }
  apply covered_self.
  - apply (proj2 Kb). now left.
  - rewrite <- H. now apply In_tys.
Qed.

Lemma covered_replace be ae members x :
  known [be] -> known [ae] -> known members -> specified x = true ->
  isAssignable (Some (snd be)) (Some (snd ae)) = Some JTrue ->
  covered x (tys members) ->
  covered x (tys (set_add (set_delete members ae) be)).
Proof.
  intros Kb Ka Km Sx Hr (t & Ht & Htx).
  apply In_tys_inv in Ht. destruct Ht as (m & Hm & <-).
  assert (Sb : specified (snd be) = true) by (apply (proj2 Kb); now left).
  assert (Sa : specified (snd ae) = true) by (apply (proj2 Ka); now left).
  destruct (Key_eqb (fst ae) (fst m)) eqn:E.
  - apply Key_eqb_spec in E.
    assert (Em : snd ae = snd m).
    { apply coherence; auto; [apply (proj1 Ka); now left|now apply (proj1 Km)]. }
    destruct (added_covered (set_delete members ae) be
                (known_set_delete _ _ Km) Kb) as (u & Hu & Hub).
    exists u. split; [exact Hu|].
    apply In_tys_inv in Hu. destruct Hu as (z & Hz & <-).
    pose proof (known_set_add _ _ (known_set_delete members ae Km) Kb) as [_ K2].
    apply (isAssignable_trans (snd z) (snd be) x); auto.
    apply (isAssignable_trans (snd be) (snd m) x); auto.
    + now apply (proj2 Km).
    + now rewrite <- Em.
  - exists (snd m). split; [|exact Htx].
    apply In_tys, set_add_keeps, set_delete_keeps; auto.
    intros N. apply Key_eqb_spec in N. congruence.
Qed.

Lemma covered_add be members x :
  covered x (tys members) -> covered x (tys (set_add members be)).
Proof.
  intros (t & Ht & Htx). exists t. split; [|exact Htx].
  apply In_tys_inv in Ht. destruct Ht as (m & Hm & <-).
  now apply In_tys, set_add_keeps.
Qed.

Lemma covered_by_covered x l l' :
  specified x = true ->
  (forall t, In t l -> specified t = true) ->
  (forall t, In t l -> covered t l') ->
  (forall t, In t l' -> specified t = true) ->
  covered x l -> covered x l'.
Proof.
  intros Sx Sl Hl Sl' (t & Ht & Htx). destruct (Hl t Ht) as (u & Hu & Hut).
  exists u. split; [exact Hu|]. apply (isAssignable_trans u t x); auto.
Qed.

Lemma mergeOne_spec be : known [be] ->
  forall aTypes members,
    known aTypes -> known members ->
    exists members',
      mergeOne be aTypes members = Some members'
      /\ known members'
      /\ (forall x, In x members' -> In x members \/ x = be)
      /\ (forall x, specified x = true ->
            covered x (tys members) -> covered x (tys members'))
      /\ (covered (snd be) (tys members')
          \/ (members' = members
              /\ forall ae, In ae aTypes ->
                   isAssignable (Some (snd ae)) (Some (snd be)) = Some JTrue)).
Proof.
  intros Kb. induction aTypes as [|ae rest IH]; intros members KA KM.
  { exists members. simpl. repeat split; auto; try apply KM.
    right. split; [reflexivity|]. intros ae []. }
  assert (Sbe : specified (snd be) = true) by (apply (proj2 Kb); now left).
  assert (Ka : known [ae]).
  { split; intros x [<-|[]]; [apply (proj1 KA)|apply (proj2 KA)]; now left. }
  assert (Sae : specified (snd ae) = true) by (apply (proj2 Ka); now left).
  assert (KR : known rest).
  { split; intros x Hx; [apply (proj1 KA)|apply (proj2 KA)]; now right. }
  destruct (isAssignable_specified (snd be) (snd ae) Sbe Sae) as [r1 H1].
  destruct (isAssignable_specified (snd ae) (snd be) Sae Sbe) as [r2 H2].
  cbn [mergeOne]. rewrite H1, H2.
  assert (Keep : truthy r2 = true ->
    exists members',
      mergeOne be rest members = Some members'
      /\ known members'
      /\ (forall x, In x members' -> In x members \/ x = be)
      /\ (forall x, specified x = true ->
            covered x (tys members) -> covered x (tys members'))
      /\ (covered (snd be) (tys members')
          \/ (members' = members
              /\ forall ae', In ae' (ae :: rest) ->
                   isAssignable (Some (snd ae')) (Some (snd be)) = Some JTrue))).
  { intros T2. apply truthy_JTrue in T2. subst r2.
    destruct (IH members KR KM) as (M' & E & KM' & Hin & Hcov & Hbe).
    exists M'. repeat split; auto; try apply KM'.
    destruct Hbe as [Hbe|[-> Hall]]; [now left|right].
    split; [reflexivity|]. intros ae' [<-|Hae']; auto. }
  assert (Change : forall members1,
    known members1 ->
    (forall x, In x members1 -> In x members \/ x = be) ->
    (forall x, specified x = true ->
       covered x (tys members) -> covered x (tys members1)) ->
    covered (snd be) (tys members1) ->
    exists members',
      mergeOne be rest members1 = Some members'
      /\ known members'
      /\ (forall x, In x members' -> In x members \/ x = be)
      /\ (forall x, specified x = true ->
            covered x (tys members) -> covered x (tys members'))
      /\ (covered (snd be) (tys members')
          \/ (members' = members
              /\ forall ae', In ae' (ae :: rest) ->
                   isAssignable (Some (snd ae')) (Some (snd be)) = Some JTrue))).
  { intros M1 KM1 Hin1 Hcov1 Hbe1.
    destruct (IH M1 KR KM1) as (M' & E & KM' & Hin & Hcov & _).
    exists M'. repeat split; auto; try apply KM'.
    intros x Hx. destruct (Hin x Hx) as [H| ->]; auto. }
  destruct (truthy r1) eqn:T1; destruct (truthy r2) eqn:T2; auto.
  - (* be is a strict supertype of ae *)
    apply truthy_JTrue in T1. subst r1.
    apply Change.
    + apply known_set_add; [now apply known_set_delete|exact Kb].
    + intros x Hx. destruct (set_add_incl _ _ _ Hx) as [H| ->]; auto.
      apply set_delete_incl in H. auto.
    + intros x Sx. now apply covered_replace.
    + apply added_covered; [now apply known_set_delete|exact Kb].
  - (* unrelated *)
    apply Change.
    + now apply known_set_add.
    + intros x Hx. now apply set_add_incl.
    + intros x Sx. apply covered_add.
    + now apply added_covered.
Qed.

Lemma mergeAll_spec aTypes : aTypes <> [] -> known aTypes ->
  forall bTypes members,
    known bTypes -> known members ->
    (forall ae, In ae aTypes -> covered (snd ae) (tys members)) ->
    exists members',
      mergeAll bTypes aTypes members = Some members'
      /\ known members'
      /\ (forall x, In x members' -> In x members \/ In x bTypes)
      /\ (forall x, specified x = true ->
            covered x (tys members) -> covered x (tys members'))
      /\ (forall be, In be bTypes -> covered (snd be) (tys members')).
Proof.
  intros Hne KA. induction bTypes as [|be rest IH]; intros members KB KM Hcov.
  { exists members. simpl. repeat split; auto; try apply KM. intros be []. }
  assert (Kb : known [be]).
  { split; intros x [<-|[]]; [apply (proj1 KB)|apply (proj2 KB)]; now left. }
  assert (Sbe : specified (snd be) = true) by (apply (proj2 Kb); now left).
  assert (KR : known rest).
  { split; intros x Hx; [apply (proj1 KB)|apply (proj2 KB)]; now right. }
  destruct (mergeOne_spec be Kb aTypes members KA KM)
    as (M1 & E1 & KM1 & Hin1 & Hc1 & Hbe1).
  assert (Cbe : covered (snd be) (tys M1)).
  { destruct Hbe1 as [H|[-> Hall]]; [exact H|].
    destruct aTypes as [|ae0 aTypes']; [congruence|].
    destruct (Hcov ae0 (or_introl eq_refl)) as (m & Hm & Hm0).
    exists m. split; [exact Hm|].
    apply In_tys_inv in Hm. destruct Hm as (z & Hz & <-).
    apply (isAssignable_trans (snd z) (snd ae0) (snd be)); auto.
    - now apply (proj2 KM).
    - apply (proj2 KA). now left.
    - apply Hall. now left. }
  destruct (IH M1 KR KM1) as (M' & E & KM' & Hin & Hc & Hbs).
  { intros ae Hae. apply Hc1; auto. apply (proj2 KA). exact Hae. }
  exists M'. cbn [mergeAll]. rewrite E1. repeat split; auto; try apply KM'.
  - intros x Hx. destruct (Hin x Hx) as [H|H]; [|simpl; auto].
    destruct (Hin1 x H) as [H'| ->]; simpl; auto.
  - intros be' [<-|Hbe']; [apply Hc; auto|auto].
Qed.
End Merge.

Lemma accepts_alternative c a x :
  isAssignable (Some c) (Some a) = Some JTrue -> In x (alternativesOf a) ->
  isAssignable (Some c) (Some x) = Some JTrue.
Proof.
  unfold alternativesOf. destruct (isUnion (Some a)) eqn:Ua.
  - rewrite isAssignable_unfold. unfold isAssignable_body. rewrite Ua.
    rewrite every_true_iff, Forall_forall. auto.
  - intros H [<-|[]]. exact H.
Qed.

Lemma accepts_alternatives c l :
  (forall x, In x l -> isAssignable (Some c) (Some x) = Some JTrue) ->
  isAssignable (Some c) (Some (TAlts l)) = Some JTrue.
Proof.
  intros H. rewrite isAssignable_unfold. unfold isAssignable_body. simpl.
  rewrite every_true_iff, Forall_forall. exact H.
Qed.

Lemma covered_accepts l x :
  allSpecified l -> specified x = true -> covered x l ->
  isAssignable (Some (TAlts l)) (Some x) = Some JTrue.
Proof.
  intros SL Sx (m & Hm & Hmx).
  apply (union_target_accepts (TAlts l) m); auto.
  simpl. apply forallb_forall. exact SL.
Qed.

Lemma union_accepts_covered a b :
  isUnion (Some a) = true -> specified a = true -> specified b = true ->
  (forall be, In be (alternativesOf b) -> covered be (getUnionTypes (Some a))) ->
  isAssignable (Some a) (Some b) = Some JTrue.
Proof.
  intros Ua Sa Sb Hc.
  assert (One : forall x, specified x = true -> covered x (getUnionTypes (Some a)) ->
                          isAssignable (Some a) (Some x) = Some JTrue).
  { intros x Sx (m & Hm & Hmx). apply (union_target_accepts a m); auto. }
  pose proof (specified_alternatives b Sb) as SB. rewrite forallb_forall in SB.
  unfold alternativesOf in *. destruct (isUnion (Some b)) eqn:Ub.
  - rewrite isAssignable_unfold. unfold isAssignable_body. rewrite Ub.
    rewrite every_true_iff, Forall_forall. intros x Hx. apply One; auto.
  - apply One; auto. apply Hc. now left.
Qed.

(** On fully specified types [union] returns a least upper bound for
    [isAssignable], whichever objects the alternatives are; the merge of
    two unions leaves at least two members. *)
Lemma unionAt_specified addressA addressB a b :
  specified a = true -> specified b = true ->
  (forall x y, In x (alternativesAt addressA addressB a b) ->
               In y (alternativesAt addressA addressB a b) ->
               fst x = fst y -> snd x = snd y) ->
  exists u,
    unionAt addressA addressB (Some a) (Some b) = Some (Some u)
    /\ specified u = true
    /\ isAssignable (Some u) (Some a) = Some JTrue
    /\ isAssignable (Some u) (Some b) = Some JTrue
    /\ (forall c, specified c = true ->
          isAssignable (Some c) (Some a) = Some JTrue ->
          isAssignable (Some c) (Some b) = Some JTrue ->
          isAssignable (Some c) (Some u) = Some JTrue).
Proof.
  intros Sa Sb Coh.
  destruct (isAssignable_specified a b Sa Sb) as [r1 H1].
  destruct (isAssignable_specified b a Sb Sa) as [r2 H2].
  unfold unionAt. rewrite H1.
  destruct (truthy r1) eqn:T1.
  { exists a. apply truthy_JTrue in T1. subst.
    repeat split; auto using isAssignable_refl. }
  rewrite H2. destruct (truthy r2) eqn:T2.
  { exists b. apply truthy_JTrue in T2. subst.
    repeat split; auto using isAssignable_refl. }
  pose proof (specified_alternatives a Sa) as Aa.
  pose proof (specified_alternatives b Sb) as Ab.
  assert (List : forall l,
    forallb specified l = true ->
    (forall x, In x (alternativesOf a) -> In x l) ->
    (forall x, In x (alternativesOf b) -> In x l) ->
    (forall x, In x l -> In x (alternativesOf a) \/ In x (alternativesOf b)) ->
    specified (TAlts l) = true
    /\ isAssignable (Some (TAlts l)) (Some a) = Some JTrue
    /\ isAssignable (Some (TAlts l)) (Some b) = Some JTrue
    /\ (forall c, specified c = true ->
          isAssignable (Some c) (Some a) = Some JTrue ->
          isAssignable (Some c) (Some b) = Some JTrue ->
          isAssignable (Some c) (Some (TAlts l)) = Some JTrue)).
  { intros l Sl Ha Hb Hl. repeat split; auto using alternatives_accept.
    intros c Sc Ca Cb. apply accepts_alternatives. intros x Hx.
    destruct (Hl x Hx); eauto using accepts_alternative. }
  destruct (isUnion (Some a)) eqn:Ua; destruct (isUnion (Some b)) eqn:Ub.
  - (* the pairwise merge *)
    rewrite forallb_forall in Aa, Ab. unfold alternativesOf in Aa, Ab, List.
    rewrite Ua in Aa, List. rewrite Ub in Ab, List.
    unfold alternativesAt in Coh. cbv zeta.
    set (aTypes := located addressA 0 (getUnionTypes (Some a))) in *.
    set (bTypes := located addressB 0 (getUnionTypes (Some b))) in *.
    assert (Ta : tys aTypes = getUnionTypes (Some a)) by apply tys_located.
    assert (Tb : tys bTypes = getUnionTypes (Some b)) by apply tys_located.
    assert (KA : known (aTypes ++ bTypes) aTypes).
    { split; intros x Hx; [apply in_or_app; now left|].
      apply Aa. rewrite <- Ta. now apply In_tys. }
    assert (KB : known (aTypes ++ bTypes) bTypes).
    { split; intros x Hx; [apply in_or_app; now right|].
      apply Ab. rewrite <- Tb. now apply In_tys. }
    destruct (set_of_spec aTypes) as [S1 S2].
    assert (KS : known (aTypes ++ bTypes) (set_of aTypes)).
    { split; intros x Hx; apply S1 in Hx; now apply KA. }
    assert (CS : forall ae, In ae aTypes -> covered (snd ae) (tys (set_of aTypes))).
    { intros ae Hae. destruct (S2 ae Hae) as (z & Hz & E).
      apply covered_self; [now apply (proj2 KA)|].
      replace (snd ae) with (snd z); [now apply In_tys|].
      apply Coh; auto; [now apply KS|now apply KA]. }
    assert (Hne : aTypes <> []).
    { intros E. assert (E' : getUnionTypes (Some a) = []) by (rewrite <- Ta, E; reflexivity).
      rewrite isAssignable_unfold in H2. unfold isAssignable_body in H2.
      rewrite Ua in H2. rewrite E' in H2. simpl in H2.
      inversion H2; subst. discriminate. }
    destruct (mergeAll_spec (aTypes ++ bTypes) Coh aTypes Hne KA bTypes
                (set_of aTypes) KB KS CS)
      as (M & E & KM & Hin & Hcov & Hbs).
    rewrite E.
    assert (HinM : forall x, In x (tys M) ->
                     In x (getUnionTypes (Some a)) \/ In x (getUnionTypes (Some b))).
    { intros t Ht. apply In_tys_inv in Ht. destruct Ht as (x & Hx & <-).
      destruct (Hin x Hx) as [H|H].
      - left. rewrite <- Ta. apply In_tys. now apply S1.
      - right. rewrite <- Tb. now apply In_tys. }
    assert (SM : allSpecified (tys M)).
    { intros x Hx. destruct (HinM x Hx); auto. }
    assert (Ca : forall ae, In ae (getUnionTypes (Some a)) -> covered ae (tys M)).
    { intros t Ht. rewrite <- Ta in Ht. apply In_tys_inv in Ht.
      destruct Ht as (ae & Hae & <-). apply Hcov; [now apply (proj2 KA)|auto]. }
    assert (Cb : forall be, In be (getUnionTypes (Some b)) -> covered be (tys M)).
    { intros t Ht. rewrite <- Tb in Ht. apply In_tys_inv in Ht.
      destruct Ht as (be & Hbe & <-). auto. }
    assert (Many : forall m, M <> [m]).
    { intros m ->.
      assert (Cm : forall x, In x (getUnionTypes (Some a))
                             \/ In x (getUnionTypes (Some b)) ->
                     isAssignable (Some (snd m)) (Some x) = Some JTrue).
      { intros x Hx.
        assert (C : covered x (tys [m])) by (destruct Hx; auto).
        destruct C as (m' & [<-|[]] & H). exact H. }
      destruct (HinM (snd m) (or_introl eq_refl)) as [Hm|Hm].
      - assert (isAssignable (Some a) (Some b) = Some JTrue).
        { apply union_accepts_covered; auto.
          unfold alternativesOf. rewrite Ub. intros be Hbe.
          exists (snd m). auto. }
        rewrite H in H1. inversion H1; subst. discriminate.
      - assert (isAssignable (Some b) (Some a) = Some JTrue).
        { apply union_accepts_covered; auto.
          unfold alternativesOf. rewrite Ua. intros ae Hae.
          exists (snd m). auto. }
        rewrite H in H2. inversion H2; subst. discriminate. }
    exists (TAlts (tys M)). split.
    { destruct M as [|m [|m' M']]; try reflexivity. now elim (Many m). }
    split; [simpl; apply forallb_forall; exact SM|].
    split; [|split].
    + rewrite isAssignable_unfold. unfold isAssignable_body. rewrite Ua.
      rewrite every_true_iff, Forall_forall. intros x Hx.
      apply covered_accepts; auto.
    + rewrite isAssignable_unfold. unfold isAssignable_body. rewrite Ub.
      rewrite every_true_iff, Forall_forall. intros x Hx.
      apply covered_accepts; auto.
    + intros c Sc Hca Hcb. apply accepts_alternatives. intros x Hx.
      destruct (HinM x Hx) as [H|H].
      * apply (accepts_alternative c a); auto. unfold alternativesOf. now rewrite Ua.
      * apply (accepts_alternative c b); auto. unfold alternativesOf. now rewrite Ub.
  - eexists. split; [reflexivity|]. apply List.
    + unfold alternativesOf in Aa. rewrite Ua in Aa.
      rewrite forallb_app, Aa. cbn [forallb]. now rewrite Sb.
    + unfold alternativesOf. rewrite Ua. intros x Hx. apply in_or_app. now left.
    + unfold alternativesOf. rewrite Ub. intros x Hx. apply in_or_app. now right.
    + unfold alternativesOf. rewrite Ua, Ub. intros x Hx.
      apply in_app_or in Hx. exact Hx.
  - eexists. split; [reflexivity|]. apply List.
    + unfold alternativesOf in Ab. rewrite Ub in Ab.
      cbn [forallb]. now rewrite Sa, Ab.
    + unfold alternativesOf. rewrite Ua. intros x [<-|[]]. now left.
    + unfold alternativesOf. rewrite Ub. intros x Hx. now right.
    + unfold alternativesOf. rewrite Ua, Ub. intros x [<-|Hx]; [left|right]; auto.
      now left.
  - eexists. split; [reflexivity|]. apply List.
    + cbn [forallb]. now rewrite Sa, Sb.
    + unfold alternativesOf. rewrite Ua. intros x [<-|[]]. now left.
    + unfold alternativesOf. rewrite Ub. intros x [<-|[]]. right. now left.
    + unfold alternativesOf. rewrite Ua, Ub. intros x [<-|[<-|[]]]; [left|right]; now left.
Qed.

(** The same for [union] as a function of the two values. *)
Lemma union_specified a b :
  specified a = true -> specified b = true ->
  exists u,
    union (Some a) (Some b) = Some (Some u)
    /\ specified u = true
    /\ isAssignable (Some u) (Some a) = Some JTrue
    /\ isAssignable (Some u) (Some b) = Some JTrue
    /\ (forall c, specified c = true ->
          isAssignable (Some c) (Some a) = Some JTrue ->
          isAssignable (Some c) (Some b) = Some JTrue ->
          isAssignable (Some c) (Some u) = Some JTrue).
Proof.
  intros Sa Sb. unfold union. cbv zeta.
  apply unionAt_specified; auto. apply coherent_shared.
Qed.

(** X4.  For fully specified types [a] and [b], [union(a, b)]
    returns a fully specified type [u] that accepts both ([isAssignable(u, a)]
    and [isAssignable(u, b)] are [true]) and that every fully specified
    type accepting both [a] and [b] accepts in turn: a least upper bound
    for [isAssignable].  This holds whichever objects the alternatives of
    [a] and [b] are, shared between the two or not: the addresses are
    arbitrary, as long as one address holds one value. *)
Theorem union_least_upper_bound addressA addressB a b :
  specified a = true -> specified b = true ->
  coherent (alternativesAt addressA addressB a b) = true ->
  exists u,
    unionAt addressA addressB (Some a) (Some b) = Some (Some u)
    /\ specified u = true
    /\ isAssignable (Some u) (Some a) = Some JTrue
    /\ isAssignable (Some u) (Some b) = Some JTrue
    /\ (forall c, specified c = true ->
          isAssignable (Some c) (Some a) = Some JTrue ->
          isAssignable (Some c) (Some b) = Some JTrue ->
          isAssignable (Some c) (Some u) = Some JTrue).
Proof.
  intros Sa Sb Coh.
  destruct (unionAt_specified addressA addressB a b Sa Sb (coherent_spec _ Coh))
    as (u & E & Su & Ha & Hb & Hc).
  exists u. repeat split; assumption.
Qed.

Lemma union_least_upper_bound_witness :
  let a := TAlts [TObject KNumber None None None None;
                  TObject KString None None None None] in
  let b := TAlts [TObject KString None None None None;
                  TObject KNull None None None None] in
  exists u,
    unionAt apartA (apartB (Some a)) (Some a) (Some b) = Some (Some u)
    /\ specified u = true
    /\ isAssignable (Some u) (Some a) = Some JTrue
    /\ isAssignable (Some u) (Some b) = Some JTrue
    /\ (forall c, specified c = true ->
          isAssignable (Some c) (Some a) = Some JTrue ->
          isAssignable (Some c) (Some b) = Some JTrue ->
          isAssignable (Some c) (Some u) = Some JTrue).
Proof.
  intros a b.
  apply (union_least_upper_bound apartA (apartB (Some a)) a b); reflexivity.
Defined.

Lemma mergeOne_members be : forall aTypes members members',
  mergeOne be aTypes members = Some members' ->
  forall x, In x members' -> In x members \/ x = be.
Proof.
  induction aTypes as [|ae rest IH]; intros members members'; cbn [mergeOne].
  { intros E; inversion E; subst. auto. }
  destruct (isAssignable (Some (snd be)) (Some (snd ae))) as [r1|]; [|discriminate].
  destruct (isAssignable (Some (snd ae)) (Some (snd be))) as [r2|];
    [|destruct (truthy r1); discriminate].
  destruct (truthy r1), (truthy r2); intros E x Hx;
    destruct (IH _ _ E x Hx) as [H| ->]; auto;
    apply set_add_incl in H; destruct H as [H| ->]; auto.
  apply set_delete_incl in H. auto.
Qed.

Lemma mergeAll_members aTypes : forall bTypes members members',
  mergeAll bTypes aTypes members = Some members' ->
  forall x, In x members' -> In x members \/ In x bTypes.
Proof.
  induction bTypes as [|be rest IH]; intros members members'; cbn [mergeAll].
  { intros E; inversion E; subst. auto. }
  destruct (mergeOne be aTypes members) as [m1|] eqn:E1; [|discriminate].
  intros E x Hx. destruct (IH _ _ E x Hx) as [H|H]; [|simpl; auto].
  destruct (mergeOne_members be aTypes members m1 E1 x H) as [H'| ->]; simpl; auto.
Qed.

(** The members the merge of two unions leaves are alternatives of one of
    them. *)
Lemma merged_members addressA addressB a b members :
  mergeAll (located addressB 0 (getUnionTypes b))
           (located addressA 0 (getUnionTypes a))
           (set_of (located addressA 0 (getUnionTypes a))) = Some members ->
  forall x, In x (tys members) ->
    In x (getUnionTypes a) \/ In x (getUnionTypes b).
Proof.
  intros E t Ht. apply In_tys_inv in Ht. destruct Ht as (x & Hx & <-).
  destruct (mergeAll_members _ _ _ _ E x Hx) as [H|H].
  - left. apply (proj1 (set_of_spec _)) in H. apply In_tys in H.
    now rewrite tys_located in H.
  - right. apply In_tys in H. now rewrite tys_located in H.
Qed.

(** X5.  [union] never invents an alternative: whenever
    [union(a, b)] returns a type, each of its alternatives is [a], [b] or an
    alternative of [a] or of [b]; the one exception is the merge of two
    unions that leaves a single member [m], where the result is the
    iterator result object around [m].  This holds whichever objects the
    alternatives are. *)
Theorem union_alternatives addressA addressB a b u :
  unionAt addressA addressB (Some a) (Some b) = Some (Some u) ->
  (forall x, In x (alternativesOf u) ->
     In x (alternativesOf a) \/ In x (alternativesOf b))
  \/ (exists m, u = TIteratorResult m
        /\ isUnion (Some a) = true /\ isUnion (Some b) = true
        /\ (In m (getUnionTypes (Some a)) \/ In m (getUnionTypes (Some b)))).
Proof.
  unfold unionAt.
  destruct (isAssignable (Some a) (Some b)) as [r1|]; [|discriminate].
  destruct (truthy r1).
  { intros E; inversion E; subst. left. auto. }
  destruct (isAssignable (Some b) (Some a)) as [r2|]; [|discriminate].
  destruct (truthy r2).
  { intros E; inversion E; subst. left. auto. }
  unfold alternativesOf at 2 3.
  destruct (isUnion (Some a)) eqn:Ua; destruct (isUnion (Some b)) eqn:Ub.
  - cbv zeta. destruct (mergeAll _ _ _) as [members|] eqn:E; [|discriminate].
    pose proof (merged_members _ _ _ _ _ E) as Hin.
    intros E'; inversion E'; subst. clear E'.
    destruct members as [|m [|m' rest]].
    + left. intros x [].
    + right. exists (snd m). repeat split; auto. apply Hin. now left.
    + left. exact Hin.
  - intros E; inversion E; subst. left. unfold alternativesOf. simpl.
    intros x Hx. apply in_app_or in Hx. exact Hx.
  - intros E; inversion E; subst. left. unfold alternativesOf. simpl.
    intros x [<-|Hx]; [left; now left|now right].
  - intros E; inversion E; subst. left. unfold alternativesOf. simpl.
    intros x [<-|[<-|[]]]; [left|right]; now left.
Qed.

Lemma union_alternatives_witness :
  let array := TObject KArray None None None None in
  (forall x, In x (alternativesOf (TAlts [array; array])) ->
     In x (alternativesOf (TAlts [array])) \/ In x (alternativesOf (TAlts [array])))
  \/ (exists m, TAlts [array; array] = TIteratorResult m
        /\ isUnion (Some (TAlts [array])) = true
        /\ isUnion (Some (TAlts [array])) = true
        /\ (In m (getUnionTypes (Some (TAlts [array])))
            \/ In m (getUnionTypes (Some (TAlts [array]))))).
Proof.
  intros array.
  apply (union_alternatives apartA (apartB (Some (TAlts [array])))
                            (TAlts [array]) (TAlts [array])).
  reflexivity.
Defined.

(** ** isFalsy and isTruthy *)

Lemma kindIs_exclusive k :
  (kindIs k KUndefined || kindIs k KNull)
  && (kindIs k KSymbol || kindIs k KObject || kindIs k KFunction || kindIs k KArray)
  = false.
Proof. destruct k as [[]|]; reflexivity. Qed.

(** X6.  No type is both always falsy and always truthy:
    when [isFalsy(type)] is [true], [isTruthy(type)] is [false] (and so the
    other way round), for every type, shorthand unions of any nesting
    included. *)
Theorem isFalsy_isTruthy_exclusive t :
  isFalsy t = true -> isTruthy t = false.
Proof.
  destruct t as [t|]; [|discriminate]. simpl.
  induction t as [k|ts IH|k r ps e a IHr IHps IHe IHa|v IHv] using Ty_ind'.
  - intros H. pose proof (kindIs_exclusive (getKind (Some (TKind k)))) as E.
    simpl in H |- *. simpl in E. rewrite H in E. exact E.
  - cbn [isFalsyTy isTruthyTy]. destruct ts as [|x ts]; [discriminate|].
    cbn [List.length Nat.eqb negb andb forallb].
    intros H. apply andb_true_iff in H. destruct H as [Hx _].
    inversion IH as [|? ? IHx _]; subst. now rewrite (IHx Hx).
  - intros H. pose proof (kindIs_exclusive (getKind (Some (TObject k r ps e a)))) as E.
    simpl in H |- *. simpl in E. rewrite H in E. exact E.
  - discriminate.
Qed.

Lemma isFalsy_isTruthy_exclusive_witness :
  isFalsy (Some (TAlts [TKind KNull; TAlts [TKind KUndefined]])) = true
  /\ isTruthy (Some (TAlts [TKind KNull; TAlts [TKind KUndefined]])) = false.
Proof.
  split; [reflexivity|].
  apply (isFalsy_isTruthy_exclusive
           (Some (TAlts [TKind KNull; TAlts [TKind KUndefined]]))).
  reflexivity.
Defined.

Lemma mapOutcome_map {A B} (f : A -> Outcome B) (g : A -> B) l :
  Forall (fun x => f x = Ok (g x)) l -> mapOutcome f l = Ok (map g l).
Proof.
  induction 1 as [|x l Hx _ IH]; simpl; [reflexivity|]. now rewrite Hx, IH.
Qed.

Lemma toCanonicalTy_canon t : toCanonicalTy t = Ok (canon t).
Proof.
  induction t as [k|ts IH|k r ps e a IHr IHps IHe IHa|v IHv] using Ty_ind'.
  - reflexivity.
  - cbn [toCanonicalTy canon]. now rewrite (mapOutcome_map _ canon ts IH).
  - destruct k; try reflexivity.
    + rewrite toCanonicalTy_function. destruct r as [x|]; [|reflexivity].
      simpl in IHr. cbn [optOutcome canon]. now rewrite IHr.
    + destruct e as [x|]; [|reflexivity].
      rewrite toCanonicalTy_array. simpl in IHe. now rewrite IHe.
    + destruct a as [ts|]; [|reflexivity].
      rewrite toCanonicalTy_union. simpl in IHa.
      now rewrite (mapOutcome_map _ canon ts IHa).
  - reflexivity.
Qed.

Lemma map_id_on {A} (f : A -> A) l : Forall (fun x => f x = x) l -> map f l = l.
Proof. induction 1 as [|x l Hx _ IH]; simpl; [reflexivity|]. now rewrite Hx, IH. Qed.

Lemma canon_canonical t :
  representable t = true -> canonical (canon t) = true /\ canon (canon t) = canon t.
Proof.
  induction t as [k|ts IH|k r ps e a IHr IHps IHe IHa|v IHv] using Ty_ind';
    intros R.
  - destruct k; try discriminate; split; reflexivity.
  - simpl in R. rewrite forallb_forall in R. rewrite Forall_forall in IH.
    split.
    + cbn [canon canonical]. apply forallb_forall. intros x Hx.
      apply in_map_iff in Hx. destruct Hx as (y & <- & Hy). now apply IH; auto.
    + cbn [canon]. f_equal. f_equal. rewrite map_map.
      apply map_ext_in. intros y Hy. now apply IH; auto.
  - simpl in R. rewrite !andb_true_iff in R. destruct R as (((Rr & Rp) & Re) & Ra).
    destruct k; try (split; reflexivity).
    + (* function *)
      destruct r as [x|]; [|split; reflexivity].
      simpl in IHr. destruct (IHr Rr) as [C I]. cbn [canon canonical].
      split; [exact C|]. now rewrite I.
    + (* array *)
      destruct e as [x|]; [|split; reflexivity].
      simpl in IHe. destruct (IHe Re) as [C I]. cbn [canon canonical].
      split; [exact C|]. now rewrite I.
    + (* union object *)
      destruct a as [ts|]; [|discriminate]. simpl in IHa.
      rewrite forallb_forall in Ra. rewrite Forall_forall in IHa.
      cbn [canon canonical]. split.
      * apply forallb_forall. intros x Hx.
        apply in_map_iff in Hx. destruct Hx as (y & <- & Hy). now apply IHa; auto.
      * f_equal. f_equal. rewrite map_map.
        apply map_ext_in. intros y Hy. now apply IHa; auto.
  - discriminate.
Qed.

Lemma canon_kind t : getKind (Some (canon t)) = getKind (Some t)
                     /\ paramsOf (Some (canon t)) = paramsOf (Some t).
Proof.
  destruct t as [k|ts|k r ps e a|v]; try (split; reflexivity).
  destruct k; try (split; reflexivity).
  - destruct e; split; reflexivity.
  - destruct a; split; reflexivity.
Qed.

(** X7.  For every representable type [t] (every union in it
    carries its alternatives), [toCanonical(t)] returns without an
    exception a type object of the same kind in canonical form (the return
    type of a function, the element type of an array and the alternatives
    of a union are canonical in turn), leaves the parameter list as it is,
    and is idempotent: [toCanonical] of the result is the result. *)
Theorem toCanonical_canonical t :
  representable t = true ->
  exists c,
    toCanonical (Some t) = Ok (Some c)
    /\ canonical c = true
    /\ getKind (Some c) = getKind (Some t)
    /\ paramsOf (Some c) = paramsOf (Some t)
    /\ toCanonical (Some c) = Ok (Some c).
Proof.
  intros R. exists (canon t). unfold toCanonical. cbn [optOutcome].
  rewrite !toCanonicalTy_canon. cbn [bind].
  destruct (canon_canonical t R) as [C I]. destruct (canon_kind t) as [K P].
  rewrite I. auto.
Qed.

Lemma toCanonical_canonical_witness :
  representable exampleType = true
  /\ exists c,
      toCanonical (Some exampleType) = Ok (Some c)
      /\ canonical c = true
      /\ getKind (Some c) = getKind (Some exampleType)
      /\ paramsOf (Some c) = paramsOf (Some exampleType)
      /\ toCanonical (Some c) = Ok (Some c).
Proof.
  split; [reflexivity|]. apply (toCanonical_canonical exampleType). reflexivity.
Defined.

Lemma formatTy_canon t :
  representable t = true -> forall ctx, formatTy (canon t) ctx = formatTy t ctx.
Proof.
  assert (Alts : forall ts,
    Forall (fun t => representable t = true ->
                     forall ctx, formatTy (canon t) ctx = formatTy t ctx) ts ->
    forallb representable ts = true ->
    map (fun alt => formatTy alt 1) (map canon ts) = map (fun alt => formatTy alt 1) ts).
  { intros ts IH R. rewrite map_map. apply map_ext_in. intros x Hx.
    rewrite Forall_forall in IH. rewrite forallb_forall in R. auto. }
  induction t as [k|ts IH|k r ps e a IHr IHps IHe IHa|v IHv] using Ty_ind';
    intros R ctx.
  - destruct k; try discriminate; reflexivity.
  - simpl in R. cbn [canon formatTy]. rewrite (Alts ts IH R).
    destruct ts; reflexivity.
  - simpl in R. rewrite !andb_true_iff in R. destruct R as (((Rr & Rp) & Re) & Ra).
    destruct k; try reflexivity.
    + destruct r as [x|]; [|reflexivity].
      simpl in IHr. cbn [canon formatTy]. now rewrite (IHr Rr 2).
    + destruct e as [x|]; [|reflexivity].
      simpl in IHe. cbn [canon formatTy]. now rewrite (IHe Re 3).
    + destruct a as [ts|]; [|reflexivity].
      simpl in IHa. cbn [canon formatTy]. rewrite (Alts ts IHa Ra).
      destruct ts; reflexivity.
  - discriminate.
Qed.

(** X8.  [formatType] renders a representable type and
    its canonical form alike, in every precedence context:
    [formatType(toCanonical(t), ctx)] is [formatType(t, ctx)]. *)
Theorem formatType_toCanonical t ctx :
  representable t = true ->
  exists c, toCanonical (Some t) = Ok (Some c)
            /\ formatType (Some c) ctx = formatType (Some t) ctx.
Proof.
  intros R. exists (canon t). unfold toCanonical. cbn [optOutcome].
  rewrite toCanonicalTy_canon. split; [reflexivity|]. now apply formatTy_canon.
Qed.

Lemma formatType_toCanonical_witness :
  representable exampleType = true
  /\ exists c, toCanonical (Some exampleType) = Ok (Some c)
               /\ formatType (Some c) 0 = formatType (Some exampleType) 0.
Proof.
  split; [reflexivity|]. apply (formatType_toCanonical exampleType 0). reflexivity.
Defined.

(** ** Assignability of canonical forms *)

Lemma size_canon t : size (canon t) = size t.
Proof.
  induction t as [k|ts IH|k r ps e a IHr IHps IHe IHa|v IHv] using Ty_ind'.
  - reflexivity.
  - cbn [canon size]. rewrite map_map. f_equal. simpl. f_equal.
    apply map_ext_in. rewrite Forall_forall in IH. auto.
  - destruct k; try reflexivity.
    + destruct r as [x|]; [|reflexivity]. simpl in IHr. cbn [canon size].
      now rewrite IHr.
    + destruct e as [x|]; [|reflexivity]. simpl in IHe. cbn [canon size].
      now rewrite IHe.
    + destruct a as [ts|]; [|reflexivity]. simpl in IHa. cbn [canon size].
      rewrite map_map. do 2 f_equal. f_equal.
      apply map_ext_in. rewrite Forall_forall in IHa. auto.
  - reflexivity.
Qed.

Lemma every_map {A B} (g : A -> B) (f : B -> option JsBool) l :
  every f (map g l) = every (fun x => f (g x)) l.
Proof.
  induction l as [|x l IH]; simpl; [reflexivity|].
  destruct (f (g x)) as [v|]; [|reflexivity]. now rewrite IH.
Qed.

Lemma some_map {A B} (g : A -> B) (f : B -> option JsBool) l :
  some f (map g l) = some (fun x => f (g x)) l.
Proof.
  induction l as [|x l IH]; simpl; [reflexivity|].
  destruct (f (g x)) as [v|]; [|reflexivity]. now rewrite IH.
Qed.

Lemma every_ext_in {A} (f g : A -> option JsBool) l :
  (forall x, In x l -> f x = g x) -> every f l = every g l.
Proof.
  induction l as [|x l IH]; simpl; intros H; [reflexivity|].
  rewrite (H x (or_introl eq_refl)). rewrite IH; auto.
Qed.

Lemma some_ext_in {A} (f g : A -> option JsBool) l :
  (forall x, In x l -> f x = g x) -> some f l = some g l.
Proof.
  induction l as [|x l IH]; simpl; intros H; [reflexivity|].
  rewrite (H x (or_introl eq_refl)). rewrite IH; auto.
Qed.

Lemma canon_isUnion t :
  representableOpt t = true -> isUnion (canonOpt t) = isUnion t.
Proof.
  destruct t as [[k|ts|k r ps e a|v]|]; try reflexivity.
  - destruct k; try reflexivity. discriminate.
  - destruct k; try reflexivity.
    + destruct e; reflexivity.
    + destruct a; reflexivity.
Qed.

Lemma canon_getUnionTypes t :
  representableOpt t = true -> isUnion t = true ->
  getUnionTypes (canonOpt t) = map canon (getUnionTypes t)
  /\ forallb representable (getUnionTypes t) = true.
Proof.
  destruct t as [[k|ts|k r ps e a|v]|]; try discriminate.
  - intros R _. split; [reflexivity|exact R].
  - destruct k; try discriminate. simpl. rewrite !andb_true_iff.
    intros (_ & Ra) _. destruct a as [ts|]; [|discriminate]. auto.
Qed.

Lemma canon_parts t :
  representableOpt t = true -> isUnion t = false ->
  getKind (canonOpt t) = getKind t
  /\ paramsOf (canonOpt t) = paramsOf t
  /\ (getKind t = Some KFunction ->
      returnsOf (canonOpt t) = canonOpt (returnsOf t)
      /\ representableOpt (returnsOf t) = true)
  /\ (getKind t = Some KArray ->
      elementsOf (canonOpt t) = canonOpt (elementsOf t)
      /\ representableOpt (elementsOf t) = true).
Proof.
  destruct t as [[k|ts|k r ps e a|v]|]; intros R U; try discriminate.
  - split; [reflexivity|]. split; [reflexivity|].
    split; intros _; split; reflexivity.
  - simpl in R. rewrite !andb_true_iff in R. destruct R as (((Rr & Rp) & Re) & Ra).
    destruct k; try discriminate;
      (split; [try reflexivity|split; [try reflexivity|split; intros K; try discriminate K]]);
      try (destruct e; reflexivity); try (destruct a; reflexivity).
    + split; [destruct r; reflexivity|exact Rr].
    + split; [destruct e; reflexivity|exact Re].
  - split; [reflexivity|]. split; [reflexivity|].
    split; intros K; discriminate K.
Qed.

Lemma isAssignable_fuel_canon n : forall t s,
  representableOpt t = true -> representableOpt s = true ->
  isAssignable_fuel n (canonOpt t) (canonOpt s) = isAssignable_fuel n t s.
Proof.
  induction n as [|n IH]; intros t s Rt Rs; [reflexivity|].
  cbn [isAssignable_fuel]. unfold isAssignable_body.
  rewrite (canon_isUnion s Rs), (canon_isUnion t Rt).
  destruct (isUnion s) eqn:Us.
  { destruct (canon_getUnionTypes s Rs Us) as [-> Ra].
    rewrite every_map. apply every_ext_in. intros x Hx.
    rewrite forallb_forall in Ra. apply (IH t (Some x)); auto.
    simpl. auto. }
  destruct (isUnion t) eqn:Ut.
  { destruct (canon_getUnionTypes t Rt Ut) as [-> Ra].
    rewrite some_map. apply some_ext_in. intros x Hx.
    rewrite forallb_forall in Ra. apply (IH (Some x) s); auto.
    simpl. auto. }
  destruct (canon_parts t Rt Ut) as (Kt & Pt & Ft & At).
  destruct (canon_parts s Rs Us) as (Ks & Ps & Fs & As).
  cbv zeta. rewrite Kt, Ks, Pt, Ps.
  destruct (getKind t) as [[]|] eqn:Ekt; try reflexivity.
  - (* function *)
    destruct (kindOpt_eqb (getKind s) (Some KFunction)) eqn:Eks; [|reflexivity].
    apply kindOpt_eqb_eq in Eks. cbn [negb].
    destruct (Ft eq_refl) as [-> Rrt]. destruct (Fs Eks) as [-> Rrs].
    now rewrite (IH (returnsOf t) (returnsOf s) Rrt Rrs).
  - (* array *)
    destruct (kindOpt_eqb (getKind s) (Some KArray)) eqn:Eks; [|reflexivity].
    apply kindOpt_eqb_eq in Eks.
    destruct (At eq_refl) as [-> Ret]. destruct (As Eks) as [-> Res].
    now apply IH.
Qed.

(** X9.  Canonicalization does not change
    assignability: for representable types [t] and [s],
    [isAssignable(toCanonical(t), toCanonical(s))] returns what
    [isAssignable(t, s)] returns. *)
Theorem isAssignable_toCanonical t s :
  representable t = true -> representable s = true ->
  exists ct cs,
    toCanonical (Some t) = Ok (Some ct)
    /\ toCanonical (Some s) = Ok (Some cs)
    /\ isAssignable (Some ct) (Some cs) = isAssignable (Some t) (Some s).
Proof.
  intros Rt Rs. exists (canon t), (canon s). unfold toCanonical. cbn [optOutcome].
  rewrite !toCanonicalTy_canon. repeat split.
  unfold isAssignable. cbn [sizeOpt]. rewrite !size_canon.
  exact (isAssignable_fuel_canon _ (Some t) (Some s) Rt Rs).
Qed.

Lemma isAssignable_toCanonical_witness :
  representable (TAlts [TKind KObject; TKind KNull]) = true
  /\ representable exampleType = true
  /\ exists ct cs,
      toCanonical (Some (TAlts [TKind KObject; TKind KNull])) = Ok (Some ct)
      /\ toCanonical (Some exampleType) = Ok (Some cs)
      /\ isAssignable (Some ct) (Some cs)
         = isAssignable (Some (TAlts [TKind KObject; TKind KNull])) (Some exampleType).
Proof.
  split; [reflexivity|]. split; [reflexivity|].
  apply (isAssignable_toCanonical (TAlts [TKind KObject; TKind KNull]) exampleType);
    reflexivity.
Defined.

Lemma normalizes_list ts :
  Forall (fun t => representable t = true -> normalizes t) ts ->
  forallb representable ts = true ->
  exists ss, mapOutcome toShorthandTy ts = Ok ss
             /\ forallb shorthandForm ss = true
             /\ mapOutcome toShorthandTy ss = Ok ss.
Proof.
  induction 1 as [|t ts Ht _ IH]; simpl; intros R.
  - exists []. auto.
  - apply andb_true_iff in R. destruct R as [Rt Rts].
    destruct (Ht Rt) as (s & -> & F & Hs).
    destruct (IH Rts) as (ss & -> & Fs & Hss).
    exists (s :: ss). simpl. rewrite F, Fs, Hs, Hss. auto.
Qed.

Lemma representable_normalizes t : representable t = true -> normalizes t.
Proof.
  induction t as [k|ts IH|k r ps e a IHr IHps IHe IHa|v IHv] using Ty_ind';
    intros R; unfold normalizes.
  - exists (TKind k). auto.
  - simpl in R. destruct (normalizes_list ts IH R) as (ss & E & F & Es).
    exists (TAlts ss). cbn [toShorthandTy shorthandForm].
    rewrite !toShorthandTy_alternatives, E, Es. auto.
  - simpl in R. rewrite !andb_true_iff in R. destruct R as (((Rr & Rp) & Re) & Ra).
    destruct k; try (eexists; split; [reflexivity|split; reflexivity]).
    + (* function *)
      destruct r as [x|].
      * simpl in IHr. destruct (IHr Rr) as (s & E & F & Es).
        exists (TObject KFunction (Some s) ps e a).
        rewrite !toShorthandTy_function. cbn [optOutcome bind].
        rewrite E, Es. destruct ps; auto.
      * destruct ps as [l|].
        -- exists (TObject KFunction None (Some l) e a).
           rewrite !toShorthandTy_function. auto.
        -- exists (TKind KFunction). auto.
    + (* array *)
      destruct e as [x|].
      * simpl in IHe. destruct (IHe Re) as (s & E & F & Es).
        exists (TObject KArray r ps (Some s) a).
        rewrite !toShorthandTy_array, E, Es. auto.
      * exists (TKind KArray). auto.
    + (* union object *)
      destruct a as [ts|]; [|discriminate]. simpl in IHa.
      destruct (normalizes_list ts IHa Ra) as (ss & E & F & Es).
      exists (TAlts ss). cbn [toShorthandTy shorthandForm].
      rewrite !toShorthandTy_alternatives, E, Es. auto.
  - discriminate.
Qed.

(** X10.  For every representable type [t], [toShorthand(t)]
    returns without an exception a type in shorthand form (no union
    object, no function object without [returns] and [params], no array
    object without [elements], no object of another kind, in the type, its
    return type, its element type and its alternatives), and is
    idempotent: [toShorthand] of the result is the result. *)
Theorem toShorthand_normal_form t :
  representable t = true ->
  exists s,
    toShorthand (Some t) = Ok (Some s)
    /\ shorthandForm s = true
    /\ toShorthand (Some s) = Ok (Some s).
Proof.
  intros R. destruct (representable_normalizes t R) as (s & E & F & Es).
  exists s. unfold toShorthand. cbn [optOutcome]. now rewrite E, Es.
Qed.

Lemma toShorthand_normal_form_witness :
  representable (canon exampleType) = true
  /\ exists s,
      toShorthand (Some (canon exampleType)) = Ok (Some s)
      /\ shorthandForm s = true
      /\ toShorthand (Some s) = Ok (Some s).
Proof.
  split; [reflexivity|]. apply (toShorthand_normal_form (canon exampleType)).
  reflexivity.
Defined.

Lemma mergeOne_returns be : wellFormed (snd be) = true ->
  forall aTypes members,
    (forall x, In x aTypes -> wellFormed (snd x) = true) ->
    exists members', mergeOne be aTypes members = Some members'.
Proof.
  intros Wbe. induction aTypes as [|ae rest IH]; intros members WA; cbn [mergeOne].
  { eauto. }
  assert (Wae : wellFormed (snd ae) = true) by (apply WA; now left).
  assert (WR : forall x, In x rest -> wellFormed (snd x) = true)
    by (intros x Hx; apply WA; now right).
  destruct (isAssignable_wellFormed (Some (snd be)) (Some (snd ae)) Wbe Wae) as [r1 ->].
  destruct (isAssignable_wellFormed (Some (snd ae)) (Some (snd be)) Wae Wbe) as [r2 ->].
  destruct (truthy r1), (truthy r2); auto.
Qed.

Lemma mergeAll_returns aTypes :
  (forall x, In x aTypes -> wellFormed (snd x) = true) ->
  forall bTypes members,
    (forall x, In x bTypes -> wellFormed (snd x) = true) ->
    exists members', mergeAll bTypes aTypes members = Some members'.
Proof.
  intros WA. induction bTypes as [|be rest IH]; intros members WB; cbn [mergeAll].
  { eauto. }
  destruct (mergeOne_returns be (WB be (or_introl eq_refl)) aTypes members WA)
    as [m1 ->].
  apply IH. intros x Hx. apply WB. now right.
Qed.

Lemma wellFormed_alternatives l :
  (forall x, In x l -> wellFormed x = true) -> wellFormed (TAlts l) = true.
Proof. intros H. simpl. now apply forallb_forall. Qed.

Lemma wellFormed_located address l :
  (forall x, In x l -> wellFormed x = true) ->
  forall x, In x (located address 0 l) -> wellFormed (snd x) = true.
Proof.
  intros H x Hx. apply H. apply In_tys in Hx. now rewrite tys_located in Hx.
Qed.

(** On well-formed types [union] returns, and returns a well-formed type,
    whichever objects the alternatives are. *)
Lemma unionAt_wellFormed addressA addressB a b :
  wellFormedOpt a = true -> wellFormedOpt b = true ->
  exists r, unionAt addressA addressB a b = Some r /\ wellFormedOpt r = true.
Proof.
  intros Wa Wb. destruct a as [ta|]; [|exists None; auto].
  destruct b as [tb|]; [|exists None; auto].
  unfold unionAt.
  destruct (isAssignable_wellFormed (Some ta) (Some tb) Wa Wb) as [r1 ->].
  destruct (truthy r1); [eauto|].
  destruct (isAssignable_wellFormed (Some tb) (Some ta) Wb Wa) as [r2 ->].
  destruct (truthy r2); [eauto|].
  pose proof (wellFormed_union (Some ta)) as UA.
  pose proof (wellFormed_union (Some tb)) as UB.
  destruct (isUnion (Some ta)) eqn:Ua; destruct (isUnion (Some tb)) eqn:Ub.
  - cbv zeta.
    destruct (mergeAll_returns (located addressA 0 (getUnionTypes (Some ta)))
                (wellFormed_located addressA _ (fun x => UA x Wa))
                (located addressB 0 (getUnionTypes (Some tb)))
                (set_of (located addressA 0 (getUnionTypes (Some ta))))
                (wellFormed_located addressB _ (fun x => UB x Wb))) as [members E].
    rewrite E. eexists. split; [reflexivity|].
    assert (WM : forall x, In x (tys members) -> wellFormed x = true).
    { intros x Hx. destruct (merged_members _ _ _ _ _ E x Hx) as [H|H].
      - exact (UA x Wa H).
      - exact (UB x Wb H). }
    destruct members as [|m [|m' rest]].
    + reflexivity.
    + simpl. apply WM. now left.
    + now apply wellFormed_alternatives.
  - eexists. split; [reflexivity|]. apply wellFormed_alternatives.
    intros x Hx. apply in_app_or in Hx. destruct Hx as [Hx|[<-|[]]]; auto.
  - eexists. split; [reflexivity|]. apply wellFormed_alternatives.
    intros x [<-|Hx]; auto.
  - eexists. split; [reflexivity|]. apply wellFormed_alternatives.
    intros x [<-|[<-|[]]]; auto.
Qed.

Lemma union_wellFormed a b :
  wellFormedOpt a = true -> wellFormedOpt b = true ->
  exists r, union a b = Some r /\ wellFormedOpt r = true.
Proof. intros Wa Wb. unfold union. now apply unionAt_wellFormed. Qed.

(** X1.  [isAssignable] and [union] return on well-formed types
    (no union object without [anyOf] at any depth; an absent type is
    well-formed), and the type [union] returns is well-formed again.  On a
    union object without [anyOf], as source or as target of a source that
    is not a union, the recursion of [isAssignable] does not end. *)
Theorem isAssignable_returns :
  (forall t s, wellFormedOpt t = true -> wellFormedOpt s = true ->
     exists r, isAssignable t s = Some r)
  /\ (forall a b, wellFormedOpt a = true -> wellFormedOpt b = true ->
        exists r, union a b = Some r /\ wellFormedOpt r = true)
  /\ (forall t r ps e, isAssignable t (Some (TObject KUnion r ps e None)) = None)
  /\ (forall s r ps e, isUnion s = false ->
        isAssignable (Some (TObject KUnion r ps e None)) s = None).
Proof.
  split; [exact isAssignable_wellFormed|]. split; [exact union_wellFormed|].
  split.
  - intros t r ps e. apply loops_diverge. reflexivity.
  - intros s r ps e Us. apply loops_diverge. unfold loops. now rewrite Us.
Qed.

Lemma isAssignable_returns_witness :
  wellFormedOpt (Some exampleType) = true
  /\ exists r, isAssignable (Some exampleType) (Some exampleType) = Some r.
Proof.
  split; [reflexivity|].
  apply (proj1 isAssignable_returns (Some exampleType) (Some exampleType));
    reflexivity.
Defined.

End TypesFacts.

(** * Facts about scopes *)
Module ScopeFacts.
Import ScopeModel.

Section OwnMembers.
Context {Data This : Type} (emptyObject : Data).
Implicit Types (s : Scope Data This) (value : option Data).

Local Abbreviation addOwnMember := (ScopeModel.addOwnMember emptyObject).
Local Abbreviation orEmptyObject := (ScopeModel.orEmptyObject emptyObject).

Lemma ownProperty_app name (m : Members Data) k d :
  ownProperty name (m ++ [(k, d)])%list
  = match ownProperty name m with
    | Some x => Some x
    | None => if String.eqb name k then Some d else None
    end.
Proof.
  induction m as [|[k' d'] m IH]; simpl; [reflexivity|].
  destruct (String.eqb name k'); [reflexivity|exact IH].
Qed.

(** The test of [addOwnMember] is [name in this.members]. *)
Lemma addOwnMember_throws_iff name value s :
  (exists e, addOwnMember name value s = Throws e)
  <-> hasProperty name (members s) = true.
Proof.
  unfold addOwnMember. destruct (hasProperty name (members s)).
  - split; eauto.
  - split; [intros [e H]; discriminate|discriminate].
Qed.

(** For a name that [Object.prototype] does not define, the call fails
    exactly on an own member; the containing scopes play no part. *)
Lemma addOwnMember_fresh_name name value s :
  inherited name = false ->
  ((exists e, addOwnMember name value s = Throws e)
   <-> hasOwn name (members s) = true)
  /\ (hasOwn name (members s) = false ->
      exists s',
        addOwnMember name value s = Ok (orEmptyObject value, s')
        /\ ownProperty name (members s') = Some (orEmptyObject value)
        /\ (forall other, other <> name ->
              ownProperty other (members s') = ownProperty other (members s))
        /\ parent s' = parent s).
Proof.
  intros Hin. split.
  - rewrite addOwnMember_throws_iff. unfold hasProperty. rewrite Hin.
    now rewrite orb_false_r.
  - intros Hown. unfold addOwnMember, hasProperty. rewrite Hown, Hin. simpl.
    eexists. split; [reflexivity|]. simpl. repeat split.
    + rewrite ownProperty_app. unfold hasOwn in Hown.
      destruct (ownProperty name (members s)); [discriminate|].
      now rewrite String.eqb_refl.
    + intros other Hne. rewrite ownProperty_app.
      destruct (ownProperty other (members s)); [reflexivity|].
      apply String.eqb_neq in Hne. now rewrite Hne.
Qed.
End OwnMembers.

(** C8 (the code departs from the claim).  On a scope just created by
    [new Scope()], whose own member map is empty,
    [addOwnMember('toString', value)] throws "'toString' already defined":
    the test [name in this.members] also finds the properties the map
    inherits from [Object.prototype].  For every other name the claim
    holds ([addOwnMember_fresh_name]). *)
Theorem addOwnMember_inherited_name (Data This : Type) (emptyObject : Data)
    (value : option Data) :
  addOwnMember emptyObject "toString" value (@newScope Data This)
  = Throws (Error "'toString' already defined")
  /\ hasOwn "toString" (members (@newScope Data This)) = false
  /\ members (@newScope Data This) = [].
Proof. repeat split. Qed.

(** ** Lookups along the scope chain *)

Section ScopeLaws.
Context {Data This : Type} (truthyData : Data -> bool) (emptyObject : Data).
Implicit Types (s : Scope Data This) (value : option Data).

Local Abbreviation addOwnMember := (ScopeModel.addOwnMember emptyObject).
Local Abbreviation orEmptyObject := (ScopeModel.orEmptyObject emptyObject).

Lemma getProperty_app name (m : Members Data) k d :
  getProperty name (m ++ [(k, d)])%list
  = match ownProperty name m with
    | Some x => Own x
    | None => if String.eqb name k then Own d else getProperty name m
    end.
Proof.
  unfold getProperty. rewrite ownProperty_app.
  destruct (ownProperty name m); [reflexivity|].
  destruct (String.eqb name k); reflexivity.
Qed.

Lemma findMember_unfold name s :
  findMember truthyData name s
  = let member := getOwnMember name s in
    if truthyProperty truthyData member then member
    else match parent s with
         | Some p => findMember truthyData name p
         | None => Undefined
         end.
Proof. destruct s as [[p|] st th tl m]; reflexivity. Qed.

(** X11.  A successful [addOwnMember(name, value)] has
    returned the member data it stored: [value], or a new object [{}]
    when [value] is [undefined] or left out.  [getOwnMember(name)] then
    returns that data, and [findMember(name)] from that scope returns it
    when it is truthy, as [{}] is; when it is falsy ([0], [''], [null],
    ...) [findMember] passes over it and goes on with the containing
    scopes.  The members of every other name, own and found, are as
    before. *)
Theorem addOwnMember_then_find name value s r s' :
  addOwnMember name value s = Ok (r, s') ->
  r = orEmptyObject value
  /\ (value = None ->
      r = emptyObject
      /\ (truthyData emptyObject = true ->
          findMember truthyData name s' = Own emptyObject))
  /\ getOwnMember name s' = Own r
  /\ findMember truthyData name s'
     = (if truthyData r then Own r
        else match parent s with
             | Some p => findMember truthyData name p
             | None => Undefined
             end)
  /\ (forall other, other <> name ->
        getOwnMember other s' = getOwnMember other s
        /\ findMember truthyData other s' = findMember truthyData other s).
Proof.
  unfold ScopeModel.addOwnMember. cbv zeta.
  destruct (hasProperty name (members s)) eqn:Hp; [discriminate|].
  intros E. inversion E; subst. clear E.
  set (r := orEmptyObject value).
  unfold hasProperty in Hp. apply orb_false_iff in Hp. destruct Hp as [Hown Hinh].
  assert (Hnone : ownProperty name (members s) = None).
  { unfold hasOwn in Hown. destruct (ownProperty name (members s)); congruence. }
  assert (G : getOwnMember name
                (mkScope (parent s) (strict s) (thisRef s) (topLevel s)
                         (members s ++ [(name, r)])%list) = Own r).
  { unfold getOwnMember. cbn [members]. rewrite getProperty_app, Hnone.
    now rewrite String.eqb_refl. }
  assert (F : findMember truthyData name
                (mkScope (parent s) (strict s) (thisRef s) (topLevel s)
                         (members s ++ [(name, r)])%list)
              = (if truthyData r then Own r
                 else match parent s with
                      | Some p => findMember truthyData name p
                      | None => Undefined
                      end)).
  { rewrite findMember_unfold. cbv zeta. rewrite G. reflexivity. }
  split; [reflexivity|]. split.
  { intros ->. split; [reflexivity|]. intros T. rewrite F.
    unfold r. cbn [ScopeModel.orEmptyObject]. now rewrite T. }
  split; [exact G|]. split.
  - exact F.
  - intros other Hne.
    assert (G' : getOwnMember other
                   (mkScope (parent s) (strict s) (thisRef s) (topLevel s)
                            (members s ++ [(name, r)])%list)
                 = getOwnMember other s).
    { unfold getOwnMember. cbn [members]. rewrite getProperty_app.
      apply String.eqb_neq in Hne. rewrite Hne. unfold getProperty.
      destruct (ownProperty other (members s)); reflexivity. }
    split; [exact G'|].
    rewrite (findMember_unfold other s), findMember_unfold. cbv zeta.
    now rewrite G'.
Qed.

Lemma last_chain s : forall d, last (chain s) d = getRoot s.
Proof.
  induction s as [st th tl m | p st th tl m IH] using Scope_chain_ind;
    intros d; [reflexivity|].
  cbn [chain getRoot]. rewrite <- (IH d).
  destruct p as [[q|] st' th' tl' m']; reflexivity.
Qed.

(** X12.  [getTopLevel()] returns the nearest scope of
    the chain (this scope first) that is marked top-level, and the root
    when none is: no scope before it in the chain is marked.
    [getRoot()] returns the last scope of the chain, the one without
    parent. *)
Theorem getTopLevel_nearest s :
  (exists inner outer,
      chain s = (inner ++ getTopLevel s :: outer)%list
      /\ Forall (fun x => topLevel x = false) inner
      /\ (topLevel (getTopLevel s) = true \/ outer = []))
  /\ last (chain s) s = getRoot s
  /\ parent (getRoot s) = None.
Proof.
  split; [|split; [apply last_chain|]].
  - induction s as [st th tl m | p st th tl m IH] using Scope_chain_ind.
    + exists [], []. simpl. repeat split; auto.
    + destruct IH as (inner & outer & Hc & Hi & Ho). destruct tl.
      * exists [], (chain p). simpl. repeat split; auto.
      * exists (mkScope (Some p) st th false m :: inner), outer.
        cbn [chain getTopLevel]. rewrite Hc. repeat split; auto.
  - induction s as [st th tl m | p st th tl m IH] using Scope_chain_ind;
      [reflexivity|exact IH].
Qed.

Lemma findMember_createNested name s :
  findMember truthyData name (createNested s)
  = if inherited name then FromPrototype name else findMember truthyData name s.
Proof.
  rewrite findMember_unfold. unfold getOwnMember, getProperty, createNested.
  cbn [members parent ownProperty]. cbv zeta.
  destruct (inherited name); reflexivity.
Qed.

(** X13.  A scope reached from [s] by one or more
    [createNested()] has the strict flag and the static [this] reference
    of [s], so that its [getThis()] is [undefined] when [s] is strict
    (even if [s] is the root, which itself keeps its [this]), has the
    root and the nearest top-level scope of [s], and finds the members
    [s] finds; except that for a name [Object.prototype] defines,
    [findMember] returns the property the empty member map inherits,
    whatever the containing scopes declare. *)
Theorem nested_scope_inherits n s :
  let inner := nested (S n) s in
  strict inner = strict s
  /\ thisRef inner = thisRef s
  /\ getThis inner = (if strict s then None else thisRef s)
  /\ getRoot inner = getRoot s
  /\ getTopLevel inner = getTopLevel s
  /\ (forall name,
        findMember truthyData name inner
        = if inherited name then FromPrototype name
          else findMember truthyData name s).
Proof.
  cbv zeta. induction n as [|n IH].
  - cbn [nested]. repeat split. intros name. apply findMember_createNested.
  - destruct IH as (Hs & Ht & _ & Hr & Htl & Hf).
    change (nested (S (S n)) s) with (createNested (nested (S n) s)).
    set (k := nested (S n) s) in *.
    unfold getThis. cbn [createNested strict thisRef parent getRoot getTopLevel].
    rewrite Hs, Ht, Hr, Htl. repeat split.
    intros name. rewrite findMember_createNested, Hf.
    destruct (inherited name); reflexivity.
Qed.
End ScopeLaws.

Lemma addOwnMember_then_find_witness :
  let truthyNat := fun n => negb (Nat.eqb n 0) in
  let s := createNested (@newScope nat unit) in
  let s' := mkScope (Some newScope) false None false [("x", 1)] in
  addOwnMember 1 "x" None s = Ok (1, s')
  /\ 1 = orEmptyObject 1 None
  /\ (@None nat = None ->
      1 = 1 /\ (truthyNat 1 = true -> findMember truthyNat "x" s' = Own 1))
  /\ getOwnMember "x" s' = Own 1
  /\ findMember truthyNat "x" s'
     = (if truthyNat 1 then Own 1
        else match parent s with
             | Some p => findMember truthyNat "x" p
             | None => Undefined
             end)
  /\ (forall other, other <> "x" ->
        getOwnMember other s' = getOwnMember other s
        /\ findMember truthyNat other s' = findMember truthyNat other s).
Proof.
  split; [reflexivity|].
  apply (addOwnMember_then_find
           (fun n => negb (Nat.eqb n 0)) 1 "x" None
           (createNested (@newScope nat unit)) 1
           (mkScope (Some newScope) false None false [("x", 1)])).
  reflexivity.
Defined.

(** ** Adding to the root and to the top-level scope *)

Section OwnProperties.
Context {Data : Type}.

Lemma ownProperty_app_list name (m a : Members Data) :
  ownProperty name (m ++ a)%list
  = match ownProperty name m with
    | Some x => Some x
    | None => ownProperty name a
    end.
Proof.
  induction m as [|[k d] m IH]; simpl; [reflexivity|].
  destruct (String.eqb name k); [reflexivity|exact IH].
Qed.

Lemma ownProperty_In name (a : Members Data) d :
  ownProperty name a = Some d -> In (name, d) a.
Proof.
  induction a as [|[k x] a IH]; simpl; [discriminate|].
  destruct (String.eqb name k) eqn:E.
  - apply String.eqb_eq in E. intros H; inversion H; subst. now left.
  - intros H. right. auto.
Qed.

Lemma ownProperty_None name (a : Members Data) :
  ownProperty name a = None <-> ~ In name (map fst a).
Proof.
  induction a as [|[k x] a IH]; simpl; [tauto|].
  destruct (String.eqb name k) eqn:E.
  - apply String.eqb_eq in E. subst. split; [discriminate|tauto].
  - apply String.eqb_neq in E. rewrite IH. split; [|tauto].
    intros H [H'|H']; [congruence|tauto].
Qed.
End OwnProperties.

Section RootExtensionFacts.
Context {Data This : Type} (emptyObject : Data).
Implicit Types (s : Scope Data This).

Local Abbreviation addOwnMember := (ScopeModel.addOwnMember emptyObject).
Local Abbreviation orEmptyObject := (ScopeModel.orEmptyObject emptyObject).

Lemma extendRoot_nil s : extendRoot [] s = s.
Proof.
  induction s as [st th tl m | p st th tl m IH] using Scope_chain_ind; simpl.
  - now rewrite app_nil_r.
  - now rewrite IH.
Qed.

Lemma extendRoot_app a b s :
  extendRoot b (extendRoot a s) = extendRoot (a ++ b)%list s.
Proof.
  induction s as [st th tl m | p st th tl m IH] using Scope_chain_ind; simpl.
  - now rewrite app_assoc.
  - now rewrite IH.
Qed.

Lemma onRoot_addOwnMember name (value : option Data) s :
  onRoot (addOwnMember name value) s
  = if hasProperty name (members (getRoot s))
    then Throws (Error ("'" ++ name ++ "' already defined"))
    else Ok (orEmptyObject value, extendRoot [(name, orEmptyObject value)] s).
Proof.
  induction s as [st th tl m | p st th tl m IH] using Scope_chain_ind.
  - cbn [onRoot getRoot members]. unfold ScopeModel.addOwnMember. cbn [members].
    destruct (hasProperty name m); reflexivity.
  - cbn [onRoot getRoot]. rewrite IH.
    destruct (hasProperty name (members (getRoot p))); reflexivity.
Qed.

Lemma onTopLevel_addOwnMember name (value : option Data) s :
  onTopLevel (addOwnMember name value) s
  = if hasProperty name (members (getTopLevel s))
    then Throws (Error ("'" ++ name ++ "' already defined"))
    else Ok (orEmptyObject value,
             extendTopLevel [(name, orEmptyObject value)] s).
Proof.
  induction s as [st th tl m | p st th tl m IH] using Scope_chain_ind.
  - cbn [onTopLevel getTopLevel members]. unfold ScopeModel.addOwnMember.
    cbn [members].
    destruct (hasProperty name m); destruct tl; reflexivity.
  - destruct tl.
    + cbn [onTopLevel getTopLevel members]. unfold ScopeModel.addOwnMember.
      cbn [members].
      destruct (hasProperty name m); reflexivity.
    + cbn [onTopLevel getTopLevel]. rewrite IH.
      destruct (hasProperty name (members (getTopLevel p))); reflexivity.
Qed.

Lemma hasProperty_app name (m : Members Data) k d :
  hasProperty name (m ++ [(k, d)])%list = hasProperty name m || String.eqb name k.
Proof.
  unfold hasProperty, hasOwn. rewrite ownProperty_app.
  destruct (ownProperty name m); simpl; [reflexivity|].
  destruct (String.eqb name k), (inherited name); reflexivity.
Qed.

Lemma getTopLevel_extendTopLevel name (value : Data) s :
  hasProperty name (members (getTopLevel (extendTopLevel [(name, value)] s))) = true.
Proof.
  induction s as [st th tl m | p st th tl m IH] using Scope_chain_ind.
  - destruct tl; cbn [extendTopLevel getTopLevel members];
      rewrite hasProperty_app, String.eqb_refl; apply orb_true_r.
  - destruct tl; cbn [extendTopLevel getTopLevel members]; [|exact IH].
    rewrite hasProperty_app, String.eqb_refl; apply orb_true_r.
Qed.
End RootExtensionFacts.

End ScopeFacts.

(** * Facts about the analyzer *)
Module AnalyzeFacts.
Import Types ScopeModel Analyze.

Lemma unionInfo_type a b ty :
  union (resultType a) (resultType b) = Some ty ->
  exists res,
    unionInfo a b = Ok res /\ resultType res = ty
    /\ ((res = None /\ (a = None \/ b = None))
        \/ (res = Some (Info None ty None) /\ a <> None /\ b <> None)).
Proof.
  destruct a as [ia|], b as [ib|]; simpl.
  - destruct (typeOf ia) as [ta|] eqn:Ea, (typeOf ib) as [tb|] eqn:Eb; simpl.
    + intros ->. eexists. repeat split. right. repeat split; discriminate.
    + intros H; inversion H; subst. eexists. repeat split.
      right. repeat split; discriminate.
    + intros H; inversion H; subst. eexists. repeat split.
      right. repeat split; discriminate.
    + intros H; inversion H; subst. eexists. repeat split.
      right. repeat split; discriminate.
  - destruct (typeOf ia); intros H; inversion H; subst;
      eexists; repeat split; auto.
  - intros H; inversion H; subst. eexists; repeat split; auto.
  - intros H; inversion H; subst. eexists; repeat split; auto.
Qed.

Lemma evaluateLogical_short operator leftInfo rightInfo :
  operator = AndOp \/ operator = OrOp ->
  determines operator leftInfo = true ->
  evaluateLogical operator leftInfo rightInfo = Ok leftInfo.
Proof.
  unfold evaluateLogical, determines.
  intros [-> | ->] H; destruct leftInfo; try discriminate; now rewrite H.
Qed.

Lemma evaluateLogical_union operator leftInfo rightInfo ty :
  operator = AndOp \/ operator = OrOp ->
  determines operator leftInfo = false ->
  union (resultType leftInfo) (resultType rightInfo) = Some ty ->
  exists res,
    evaluateLogical operator leftInfo rightInfo = Ok res
    /\ resultType res = ty
    /\ (resultHasValue res = true
        <-> resultHasValue leftInfo = true /\ resultHasValue rightInfo = true).
Proof.
  intros Hop Hd Hu.
  destruct (unionInfo_type leftInfo rightInfo ty Hu) as (u & Eu & Tu & Su).
  assert (E : evaluateLogical operator leftInfo rightInfo
              = bind (unionInfo leftInfo rightInfo) (fun result =>
                  match leftInfo, rightInfo with
                  | Some l, Some r =>
                      if hasValue l && hasValue r
                      then Ok (setValue result (op operator (valueOf l) (valueOf r)))
                      else Ok result
                  | _, _ => Ok result
                  end)).
  { unfold evaluateLogical, determines in *.
    destruct Hop as [-> | ->]; destruct leftInfo; try rewrite Hd; reflexivity. }
  rewrite E, Eu. cbn [bind].
  destruct Su as [(-> & Hnone) | (-> & Hl & Hr)].
  - exists None. split.
    + destruct leftInfo, rightInfo; try reflexivity.
      destruct Hnone; discriminate.
    + split; [exact Tu|]. split; [discriminate|].
      intros [H1 H2]. destruct Hnone; subst; discriminate.
  - destruct leftInfo as [l|]; [|congruence].
    destruct rightInfo as [r|]; [|congruence].
    cbn [resultHasValue].
    destruct (hasValue l && hasValue r) eqn:Hv.
    + apply andb_true_iff in Hv. eexists. split; [reflexivity|].
      split; [reflexivity|]. simpl. tauto.
    + eexists. split; [reflexivity|]. split; [reflexivity|]. simpl.
      split; [discriminate|]. intros [H1 H2]. rewrite H1, H2 in Hv. discriminate.
Qed.



(** C10.  Both operands of a LogicalExpression are visited before the
    short-circuit rule is applied: the scope the visit ends with is the
    scope after the right operand, also when the left operand decides the
    result, and an exception of the right operand is not avoided.
    Analyzing [null && x] from a fresh root scope returns the analysis of
    [null] and leaves a member [x] in the root scope's own map. *)
Theorem logical_expression_visits_right_operand :
  (forall operator l r scope li s1,
      visit l scope = Ok (li, s1) ->
      (forall e, visit r s1 = Throws e ->
                 visit (LogicalExpression operator l r) scope = Throws e)
      /\ (forall ri s2, visit r s1 = Ok (ri, s2) ->
            (forall res s', visit (LogicalExpression operator l r) scope = Ok (res, s')
                            -> s' = s2)
            /\ (determines operator li = true ->
                visit (LogicalExpression operator l r) scope = Ok (li, s2))))
  /\ exists scope,
      analyze nullAndX None = Ok (visitLiteral VNull, scope)
      /\ getRoot scope = scope
      /\ ownProperty "x" (members scope) = Some (Info (Some "x") None None)
      /\ visit (Literal VNull) newScope = Ok (visitLiteral VNull, newScope)
      /\ members (@newScope Analysis unit) = [].
Proof.
  split.
  - intros operator l r scope li s1 Hl. split.
    + intros e Hr. cbn [visit]. rewrite Hl. cbn [bind fst snd]. now rewrite Hr.
    + intros ri s2 Hr. split.
      * intros res s'. cbn [visit]. rewrite Hl. cbn [bind fst snd].
        rewrite Hr. cbn [bind fst snd].
        destruct (evaluateLogical operator li ri); simpl; [|discriminate].
        intros H; inversion H; reflexivity.
      * intros Hd. cbn [visit]. rewrite Hl. cbn [bind fst snd].
        rewrite Hr. cbn [bind fst snd].
        unfold determines in Hd. destruct li as [i|]; [|discriminate].
        unfold evaluateLogical. rewrite Hd.
        destruct operator; try reflexivity. discriminate.
  - eexists. repeat split.
Qed.

(** [null && x] on a fresh scope: the result is the left analysis, the scope
    is the one the visit of [x] produced. *)
Lemma logical_expression_visits_right_operand_witness :
  visit nullAndX newScope
  = Ok (visitLiteral VNull,
        mkScope None false None true [("x", Info (Some "x") None None)]).
Proof.
  apply (proj2 (proj2 (proj1 logical_expression_visits_right_operand
                         AndOp (Literal VNull) (Identifier "x") newScope
                         (visitLiteral VNull) newScope eq_refl)
                      (Some (Info (Some "x") None None))
                      (mkScope None false None true
                               [("x", Info (Some "x") None None)])
                      eq_refl)
               eq_refl).
Defined.

(** ** Constant folding *)

Import TypesFacts ScopeFacts.

Lemma visit_sequence es scope :
  visit (SequenceExpression es) scope = visitEach es None scope.
Proof.
  cbn [visit]. generalize (@None Analysis). revert scope.
  induction es as [|e es IH]; intros scope lastInfo; [reflexivity|].
  cbn [visitEach]. destruct (visit e scope) as [[i s]|err]; cbn [bind fst snd];
    [apply IH|reflexivity].
Qed.


Lemma kindOf_specified v : specified (TKind (kindOf v)) = true.
Proof. destruct v; reflexivity. Qed.

Lemma folded_literal v : folded v (visitLiteral v).
Proof.
  exists (TKind (kindOf v)). split; [reflexivity|].
  split; [apply kindOf_specified|]. apply isAssignable_refl, kindOf_specified.
Qed.

Lemma folded_logical operator a b li ri :
  operator = AndOp \/ operator = OrOp ->
  folded a li -> folded b ri ->
  exists res, evaluateLogical operator li ri = Ok res
              /\ folded (op operator a b) res.
Proof.
  intros Hop (ta & -> & Sa & Ha) (tb & -> & Sb & Hb).
  destruct (union_specified ta tb Sa Sb) as (u & Eu & Su & Hua & Hub & _).
  assert (Hu : isAssignable (Some u) (Some (TKind (kindOf b))) = Some JTrue).
  { apply (isAssignable_trans u tb (TKind (kindOf b))); auto using kindOf_specified. }
  destruct Hop as [-> | ->]; unfold evaluateLogical, shortOp; cbn [hasValue valueOf];
    destruct (truthyValue a) eqn:Ta; cbn [negb op]; rewrite ?Ta.
  - (* a && b, a truthy: the union, with the value of b *)
    unfold unionInfo. cbn [typeOf]. rewrite Eu. cbn [bind hasValue andb setValue valueOf op].
    rewrite ?Ta. eexists. split; [reflexivity|]. exists u; auto.
  - eexists. split; [reflexivity|]. exists ta; auto.
  - eexists. split; [reflexivity|]. exists ta; auto.
  - unfold unionInfo. cbn [typeOf]. rewrite Eu. cbn [bind hasValue andb setValue valueOf op].
    rewrite ?Ta. eexists. split; [reflexivity|]. exists u; auto.
Qed.

(** X14.  Constant folding is sound.  For an expression built from
    literals with [&&], [||], [?:] and the comma operator, the analysis
    returns, from any scope and without changing it, an object whose
    [value] is the value JavaScript gives the expression and whose [type]
    is a fully specified type that accepts the kind of that value. *)
Theorem constant_folding_sound e : forall v scope,
  constantValue e = Some v ->
  exists ty,
    visit e scope = Ok (Some (Info None (Some ty) (Some v)), scope)
    /\ specified ty = true
    /\ isAssignable (Some ty) (Some (TKind (kindOf v))) = Some JTrue.
Proof.
  assert (G : forall v scope, constantValue e = Some v ->
                exists res, visit e scope = Ok (res, scope) /\ folded v res).
  2:{ intros v scope H. destruct (G v scope H) as (res & E & ty & -> & S & A).
      exists ty. auto. }
  induction e as [w|n|o l r IHl IHr|t c a IHt IHc IHa|es IH] using Expr_ind';
    intros v scope.
  - intros H; inversion H; subst. exists (visitLiteral v).
    split; [reflexivity|apply folded_literal].
  - discriminate.
  - intros H.
    assert (Hop : o = AndOp \/ o = OrOp) by (destruct o; auto; discriminate).
    assert (H' : match constantValue l, constantValue r with
                 | Some a, Some b => Some (op o a b)
                 | _, _ => None
                 end = Some v) by (destruct o; auto; discriminate).
    clear H. destruct (constantValue l) as [a|]; [|discriminate].
    destruct (constantValue r) as [b|]; [|discriminate].
    inversion H'; subst. clear H'.
    destruct (IHl a scope eq_refl) as (li & El & Fl).
    destruct (IHr b scope eq_refl) as (ri & Er & Fr).
    destruct (folded_logical o a b li ri Hop Fl Fr) as (res & E & F).
    exists res. cbn [visit]. rewrite El. cbn [bind fst snd]. rewrite Er.
    cbn [bind fst snd]. rewrite E. auto.
  - cbn [constantValue]. intros H.
    destruct (constantValue t) as [x|]; [|discriminate].
    destruct (constantValue c) as [y|]; [|discriminate].
    destruct (constantValue a) as [z|]; [|discriminate].
    inversion H; subst. clear H.
    destruct (IHt x scope eq_refl) as (ti & Et & (tt & -> & _)).
    destruct (IHc y scope eq_refl) as (ci & Ec & Fc).
    destruct (IHa z scope eq_refl) as (ai & Ea & Fa).
    cbn [visit]. rewrite Et. cbn [bind fst snd]. rewrite Ec. cbn [bind fst snd].
    rewrite Ea. cbn [bind fst snd hasValue valueOf].
    destruct (truthyValue x); eauto.
  - rewrite visit_sequence. cbn [constantValue].
    assert (L : forall lastValue lastInfo,
      (forall w, lastValue = Some w -> folded w lastInfo) ->
      (fix each (l : list Expr) (lastValue : option Value) :=
         match l with
         | [] => lastValue
         | e :: rest =>
             match constantValue e with
             | Some v => each rest (Some v)
             | None => None
             end
         end) es lastValue = Some v ->
      exists res, visitEach es lastInfo scope = Ok (res, scope) /\ folded v res).
    { induction IH as [|e es He _ IHes]; intros lastValue lastInfo Hlast.
      - intros ->. exists lastInfo. split; [reflexivity|auto].
      - destruct (constantValue e) as [w|] eqn:Ew; [|discriminate].
        intros H. destruct (He w scope eq_refl) as (ei & Ee & Fe).
        cbn [visitEach]. rewrite Ee. cbn [bind fst snd].
        apply (IHes (Some w) ei); [|exact H].
        intros w' E; inversion E; subst. exact Fe. }
    apply L. discriminate.
Qed.

Lemma constant_folding_sound_witness :
  exists ty,
    visit (ConditionalExpression
             (LogicalExpression OrOp (Literal (VNumber 0)) (Literal (VString "a")))
             (LogicalExpression AndOp (Literal (VNumber 1)) (Literal VNull))
             (Literal (VBoolean true)))
          newScope
    = Ok (Some (Info None (Some ty) (Some VNull)), newScope)
    /\ specified ty = true
    /\ isAssignable (Some ty) (Some (TKind (kindOf VNull))) = Some JTrue.
Proof.
  apply (constant_folding_sound
           (ConditionalExpression
              (LogicalExpression OrOp (Literal (VNumber 0)) (Literal (VString "a")))
              (LogicalExpression AndOp (Literal (VNumber 1)) (Literal VNull))
              (Literal (VBoolean true)))
           VNull newScope).
  reflexivity.
Defined.

(** ** The scope after an analysis *)

Lemma findMember_extendRoot a n (s : AScope) :
  notInherited a ->
  findMember truthyAnalysis n (extendRoot a s)
  = match findMember truthyAnalysis n s with
    | Undefined => match ownProperty n a with
                   | Some d => Own d
                   | None => Undefined
                   end
    | p => p
    end.
Proof.
  intros Ha.
  induction s as [st th tl m | p st th tl m IH] using Scope_chain_ind.
  - cbn [extendRoot]. rewrite !findMember_unfold. unfold getOwnMember, getProperty.
    cbn [members parent]. cbv zeta. rewrite ownProperty_app_list.
    destruct (ownProperty n m) as [d|]; [reflexivity|].
    destruct (ownProperty n a) as [d|] eqn:Ea.
    + rewrite (Ha n d (ownProperty_In n a d Ea)). reflexivity.
    + destruct (inherited n); reflexivity.
  - cbn [extendRoot]. rewrite (findMember_unfold truthyAnalysis n (mkScope (Some p) st th tl m)).
    rewrite findMember_unfold. unfold getOwnMember. cbn [members parent]. cbv zeta.
    destruct (getProperty n m) as [d|k|]; cbn [truthyProperty truthyAnalysis];
      [reflexivity|reflexivity|exact IH].
Qed.

Lemma findMember_Undefined_root n (s : AScope) :
  findMember truthyAnalysis n s = Undefined ->
  hasProperty n (members (getRoot s)) = false /\ inherited n = false.
Proof.
  induction s as [st th tl m | p st th tl m IH] using Scope_chain_ind;
    rewrite findMember_unfold; unfold getOwnMember, getProperty;
    cbn [members parent getRoot]; cbv zeta.
  - unfold hasProperty, hasOwn. destruct (ownProperty n m); [discriminate|].
    destruct (inherited n); [discriminate|auto].
  - destruct (ownProperty n m); [discriminate|].
    destruct (inherited n) eqn:E; [discriminate|].
    cbn [truthyProperty]. intros H. exact (IH H).
Qed.

Lemma addedBy_nil e s : addedBy e s [].
Proof. split; [constructor|]. intros n d []. Qed.

Lemma addedBy_notInherited e s a : addedBy e s a -> notInherited a.
Proof.
  intros [_ H] k d Hin. destruct (H k d Hin) as (_ & _ & Hu).
  now apply findMember_Undefined_root in Hu.
Qed.

(** Sequencing two analyses. *)
Lemma addedBy_app e1 e2 e s a1 a2 :
  (forall n, In n (identifiers e1) -> In n (identifiers e)) ->
  (forall n, In n (identifiers e2) -> In n (identifiers e)) ->
  addedBy e1 s a1 -> addedBy e2 (extendRoot a1 s) a2 ->
  addedBy e s (a1 ++ a2)%list.
Proof.
  intros I1 I2 H1 H2.
  pose proof (addedBy_notInherited _ _ _ H1) as N1.
  destruct H1 as [D1 P1]. destruct H2 as [D2 P2].
  assert (Q2 : forall n d, In (n, d) a2 ->
                 findMember truthyAnalysis n s = Undefined
                 /\ ownProperty n a1 = None).
  { intros n d Hin. destruct (P2 n d Hin) as (_ & _ & Hu).
    rewrite (findMember_extendRoot a1 n s N1) in Hu.
    destruct (findMember truthyAnalysis n s); try discriminate.
    destruct (ownProperty n a1); [discriminate|auto]. }
  split.
  - rewrite map_app. apply NoDup_app; auto.
    intros n Hn1 Hn2. apply in_map_iff in Hn2. destruct Hn2 as ([k d] & <- & Hin).
    destruct (Q2 k d Hin) as [_ Hnone]. apply ownProperty_None in Hnone. auto.
  - intros n d Hin. apply in_app_or in Hin. destruct Hin as [Hin|Hin].
    + destruct (P1 n d Hin) as (Hi & Hd & Hu). auto.
    + destruct (P2 n d Hin) as (Hi & Hd & _). destruct (Q2 n d Hin) as [Hu _]. auto.
Qed.

Lemma visitIdentifier_reference n (s : AScope) r s' :
  visitIdentifier n s None = Ok (r, s') ->
  exists added, s' = extendRoot added s /\ addedBy (Identifier n) s added.
Proof.
  unfold visitIdentifier.
  destruct (findMember truthyAnalysis n s) as [d|k|] eqn:Ef; cbn [propertyAnalysis].
  - intros E; inversion E; subst. exists []. rewrite extendRoot_nil.
    split; [reflexivity|apply addedBy_nil].
  - intros E; inversion E; subst. exists []. rewrite extendRoot_nil.
    split; [reflexivity|apply addedBy_nil].
  - rewrite onRoot_addOwnMember.
    destruct (hasProperty n (members (getRoot s))); [discriminate|].
    cbn [bind fst snd]. intros E; inversion E; subst.
    eexists. split; [reflexivity|]. split.
    + simpl. constructor; [intros []|constructor].
    + intros k d [H|[]]. inversion H; subst. simpl. auto.
Qed.

(** X15.  The analysis of an expression of the fragment changes the
    scope chain at its root only, and only by adding members: the chain it
    ends with is the chain it started from with new members appended to
    the root's own map.  Each of them is named after an Identifier of the
    expression that no scope of the chain had a member for (nor
    [Object.prototype] a property), is added once, and is [{name}] alone. *)
Theorem visit_extends_root e : forall s r s',
  visit e s = Ok (r, s') ->
  exists added, s' = extendRoot added s /\ addedBy e s added.
Proof.
  induction e as [w|n|o l r IHl IHr|t c a IHt IHc IHa|es IH] using Expr_ind';
    intros s res s'.
  - intros E; inversion E; subst. exists []. rewrite extendRoot_nil.
    split; [reflexivity|apply addedBy_nil].
  - apply visitIdentifier_reference.
  - cbn [visit].
    destruct (visit l s) as [[li s1]|] eqn:El; [|discriminate]. cbn [bind fst snd].
    destruct (visit r s1) as [[ri s2]|] eqn:Er; [|discriminate]. cbn [bind fst snd].
    destruct (evaluateLogical o li ri); [|discriminate]. cbn [bind].
    intros E; inversion E; subst.
    destruct (IHl _ _ _ El) as (a1 & -> & A1).
    destruct (IHr _ _ _ Er) as (a2 & -> & A2).
    exists (a1 ++ a2)%list. rewrite extendRoot_app. split; [reflexivity|].
    apply (addedBy_app l r); auto; intros n Hn; simpl; apply in_or_app; auto.
  - cbn [visit].
    destruct (visit t s) as [[ti s1]|] eqn:Et; [|discriminate]. cbn [bind fst snd].
    destruct (visit c s1) as [[ci s2]|] eqn:Ec; [|discriminate]. cbn [bind fst snd].
    destruct (visit a s2) as [[ai s3]|] eqn:Ea; [|discriminate]. cbn [bind fst snd].
    intros E.
    assert (s' = s3).
    { destruct ti as [ti|].
      - destruct (hasValue ti).
        + inversion E; reflexivity.
        + destruct (unionInfo ci ai); inversion E; reflexivity.
      - destruct (unionInfo ci ai); inversion E; reflexivity. }
    subst s'. clear E.
    destruct (IHt _ _ _ Et) as (a1 & -> & A1).
    destruct (IHc _ _ _ Ec) as (a2 & -> & A2).
    destruct (IHa _ _ _ Ea) as (a3 & -> & A3).
    exists ((a1 ++ a2) ++ a3)%list. rewrite !extendRoot_app, app_assoc.
    split; [reflexivity|].
    apply (addedBy_app (LogicalExpression OrOp t c) a).
    + intros n Hn. simpl in *. rewrite app_assoc. apply in_or_app. auto.
    + intros n Hn. simpl. apply in_or_app. right. apply in_or_app. auto.
    + apply (addedBy_app t c); auto; intros n Hn; simpl; apply in_or_app; auto.
    + rewrite <- extendRoot_app. exact A3.
  - rewrite visit_sequence. generalize (@None Analysis) as lastInfo.
    revert s. induction IH as [|e es He _ IHes]; intros s lastInfo.
    + intros E; inversion E; subst. exists []. rewrite extendRoot_nil.
      split; [reflexivity|apply addedBy_nil].
    + cbn [visitEach].
      destruct (visit e s) as [[ei s1]|] eqn:Ee; [|discriminate]. cbn [bind fst snd].
      intros E. destruct (He _ _ _ Ee) as (a1 & -> & A1).
      destruct (IHes _ _ E) as (a2 & -> & A2).
      exists (a1 ++ a2)%list. rewrite extendRoot_app. split; [reflexivity|].
      apply (addedBy_app e (SequenceExpression es)); auto;
        intros n Hn; simpl; apply in_or_app; auto.
Qed.

Lemma visit_extends_root_witness :
  exists added,
    (mkScope None false None true [("x", Info (Some "x") None None)] : AScope)
    = extendRoot added newScope
    /\ addedBy nullAndX newScope added.
Proof.
  apply (visit_extends_root nullAndX newScope (visitLiteral VNull)
           (mkScope None false None true [("x", Info (Some "x") None None)])).
  reflexivity.
Defined.

(** ** Analyses that return *)

Lemma findMember_Own n (s : AScope) d :
  findMember truthyAnalysis n s = Own d ->
  exists x, In x (chain s) /\ In (n, d) (members x).
Proof.
  induction s as [st th tl m | p st th tl m IH] using Scope_chain_ind;
    rewrite findMember_unfold; unfold getOwnMember, getProperty;
    cbn [members parent]; cbv zeta.
  - destruct (ownProperty n m) as [x|] eqn:E.
    + intros H; inversion H; subst. eexists. split; [left; reflexivity|].
      now apply ownProperty_In.
    + destruct (inherited n); discriminate.
  - destruct (ownProperty n m) as [x|] eqn:E.
    + intros H; inversion H; subst. eexists. split; [left; reflexivity|].
      now apply ownProperty_In.
    + destruct (inherited n); [discriminate|]. cbn [truthyProperty].
      intros H. destruct (IH H) as (x & Hx & Hin). exists x. split; [|exact Hin].
      right. exact Hx.
Qed.

Lemma scopeWellFormed_extendRoot a (s : AScope) :
  typedWell a -> scopeWellFormed s -> scopeWellFormed (extendRoot a s).
Proof.
  intros Ha. unfold scopeWellFormed.
  induction s as [st th tl m | p st th tl m IH] using Scope_chain_ind;
    cbn [extendRoot chain]; intros H; inversion H as [|? ? Hm Hrest]; subst.
  - constructor; [|constructor]. cbn [members] in *.
    intros k d Hin. apply in_app_or in Hin. destruct Hin; eauto.
  - constructor; [exact Hm|]. apply IH. exact Hrest.
Qed.

Lemma unionInfo_returns a b :
  wellFormedOpt (resultType a) = true -> wellFormedOpt (resultType b) = true ->
  exists res, unionInfo a b = Ok res /\ wellFormedOpt (resultType res) = true.
Proof.
  intros Wa Wb. destruct a as [ia|]; [|exists None; auto].
  destruct b as [ib|]; [|exists None; auto].
  cbn [unionInfo resultType] in *.
  destruct (typeOf ia) as [ta|]; [|eexists; split; reflexivity].
  destruct (typeOf ib) as [tb|]; [|eexists; split; reflexivity].
  destruct (union_wellFormed (Some ta) (Some tb) Wa Wb) as (t & -> & Wt).
  eexists. split; [reflexivity|exact Wt].
Qed.

Lemma setValue_type res v : resultType (setValue res v) = resultType res.
Proof. destruct res as [[n t w|p]|]; reflexivity. Qed.

Lemma evaluateLogical_returns o a b :
  wellFormedOpt (resultType a) = true -> wellFormedOpt (resultType b) = true ->
  exists res, evaluateLogical o a b = Ok res
              /\ wellFormedOpt (resultType res) = true.
Proof.
  intros Wa Wb. destruct (unionInfo_returns a b Wa Wb) as (u & Eu & Wu).
  assert (U : exists res,
    bind (unionInfo a b) (fun result =>
      match a, b with
      | Some l, Some r =>
          if hasValue l && hasValue r
          then Ok (setValue result (op o (valueOf l) (valueOf r)))
          else Ok result
      | _, _ => Ok result
      end) = Ok res /\ wellFormedOpt (resultType res) = true).
  { rewrite Eu. cbn [bind].
    destruct a as [l|]; [|eauto]. destruct b as [r|]; [|eauto].
    destruct (hasValue l && hasValue r); [|eauto].
    eexists. split; [reflexivity|]. now rewrite setValue_type. }
  unfold evaluateLogical. destruct o; [| |exists None; auto].
  - destruct a as [l|]; [|exact U]. destruct (shortOp OrOp l); [eauto|exact U].
  - destruct a as [l|]; [|exact U]. destruct (shortOp AndOp l); [eauto|exact U].
Qed.

(** X16.  The analysis of an expression of the fragment (literals,
    identifier references, [&&], [||], [?:], the comma operator) never
    throws when the types of the members of the scope chain are
    well-formed (no union object without [anyOf]): it returns, the type of
    its result is well-formed, and so are the member types of the chain it
    ends with.  In particular a reference to a name never throws, be the
    name declared, undeclared or a property of [Object.prototype]. *)
Theorem visit_returns e : forall s,
  scopeWellFormed s ->
  exists r s',
    visit e s = Ok (r, s')
    /\ wellFormedOpt (resultType r) = true
    /\ scopeWellFormed s'.
Proof.
  induction e as [w|n|o l r IHl IHr|t c a IHt IHc IHa|es IH] using Expr_ind';
    intros s W.
  - do 2 eexists. split; [reflexivity|]. split; [reflexivity|exact W].
  - cbn [visit]. unfold visitIdentifier.
    destruct (findMember truthyAnalysis n s) as [d|k|] eqn:Ef; cbn [propertyAnalysis].
    + do 2 eexists. split; [reflexivity|]. split; [|exact W].
      destruct (findMember_Own n s d Ef) as (x & Hx & Hin).
      unfold scopeWellFormed in W. rewrite Forall_forall in W.
      exact (W x Hx n d Hin).
    + do 2 eexists. split; [reflexivity|]. split; [reflexivity|exact W].
    + rewrite onRoot_addOwnMember.
      destruct (findMember_Undefined_root n s Ef) as [-> _]. cbn [bind fst snd].
      do 2 eexists. split; [reflexivity|]. split; [reflexivity|].
      apply scopeWellFormed_extendRoot; [|exact W].
      intros k d [H|[]]. inversion H; subst. reflexivity.
  - destruct (IHl s W) as (li & s1 & El & Wl & W1).
    destruct (IHr s1 W1) as (ri & s2 & Er & Wr & W2).
    destruct (evaluateLogical_returns o li ri Wl Wr) as (res & E & Wres).
    exists res, s2. cbn [visit]. rewrite El. cbn [bind fst snd]. rewrite Er.
    cbn [bind fst snd]. rewrite E. auto.
  - destruct (IHt s W) as (ti & s1 & Et & Wt & W1).
    destruct (IHc s1 W1) as (ci & s2 & Ec & Wc & W2).
    destruct (IHa s2 W2) as (ai & s3 & Ea & Wa & W3).
    destruct (unionInfo_returns ci ai Wc Wa) as (u & Eu & Wu).
    cbn [visit]. rewrite Et. cbn [bind fst snd]. rewrite Ec. cbn [bind fst snd].
    rewrite Ea. cbn [bind fst snd]. rewrite Eu. cbn [bind].
    destruct ti as [ti|]; [|eauto].
    destruct (hasValue ti); [|eauto].
    destruct (truthyValue (valueOf ti)); eauto.
  - rewrite visit_sequence.
    assert (L : forall s lastInfo,
      scopeWellFormed s -> wellFormedOpt (resultType lastInfo) = true ->
      exists r s', visitEach es lastInfo s = Ok (r, s')
                   /\ wellFormedOpt (resultType r) = true /\ scopeWellFormed s').
    { clear s W. induction IH as [|e es He _ IHes]; intros s lastInfo W Wl.
      - do 2 eexists. split; [reflexivity|auto].
      - destruct (He s W) as (ei & s1 & Ee & We & W1).
        cbn [visitEach]. rewrite Ee. cbn [bind fst snd]. apply IHes; auto. }
    apply L; auto.
Qed.

Lemma visit_returns_witness :
  exists r s',
    visit (LogicalExpression OrOp (Identifier "toString") (Identifier "x")) newScope
    = Ok (r, s')
    /\ wellFormedOpt (resultType r) = true
    /\ scopeWellFormed s'.
Proof.
  apply (visit_returns
           (LogicalExpression OrOp (Identifier "toString") (Identifier "x")) newScope).
  constructor; [|constructor]. intros k d [].
Defined.

(** ** Declarations *)

Lemma findMember_own n (s : AScope) d :
  ownProperty n (members s) = Some d -> findMember truthyAnalysis n s = Own d.
Proof.
  intros H. rewrite findMember_unfold. unfold getOwnMember, getProperty.
  cbv zeta. now rewrite H.
Qed.

Lemma findMember_defined_topLevel n (s : AScope) :
  hasProperty n (members (getTopLevel s)) = true ->
  findMember truthyAnalysis n s <> Undefined.
Proof.
  induction s as [st th tl m | p st th tl m IH] using Scope_chain_ind;
    rewrite findMember_unfold; unfold getOwnMember, getProperty;
    cbn [members parent]; cbv zeta.
  - assert (getTopLevel (mkScope None st th tl m) = mkScope None st th tl m) as ->
      by (destruct tl; reflexivity).
    unfold hasProperty, hasOwn. cbn [members].
    destruct (ownProperty n m); [discriminate|].
    destruct (inherited n); discriminate.
  - destruct (ownProperty n m) eqn:E; [discriminate|].
    destruct (inherited n) eqn:I; [discriminate|]. cbn [truthyProperty].
    destruct tl; cbn [getTopLevel members].
    + unfold hasProperty, hasOwn. rewrite E, I. discriminate.
    + exact IH.
Qed.

Lemma members_getTopLevel_extendTopLevel added (s : AScope) :
  members (getTopLevel (extendTopLevel added s))
  = (members (getTopLevel s) ++ added)%list.
Proof.
  induction s as [st th tl m | p st th tl m IH] using Scope_chain_ind.
  - destruct tl; reflexivity.
  - destruct tl; [reflexivity|exact IH].
Qed.

(** X17.  The Identifier visitor in a declaration context ([var],
    or another one, [let], [const], a parameter, given by a string that is
    not empty and not ['var']): when it returns, it has returned the
    new member [{name}] and added it to the own members of the nearest
    top-level scope for [var], of the given scope otherwise, leaving the
    rest of the chain as it was; the name was no property of that member
    map before.  Declaring the same name again from the resulting scope
    throws "'name' already defined"; and a reference to the name from
    there finds a member and leaves the chain as it is. *)
Theorem declared_once name (s : AScope) context r s' :
  readContext (Some context) = Some context ->
  visitIdentifier name s (Some context) = Ok (r, s') ->
  let member := Info (Some name) None None in
  r = Some member
  /\ match context with
     | DeclVar =>
         s' = extendTopLevel [(name, member)] s
         /\ members (getTopLevel s')
            = (members (getTopLevel s) ++ [(name, member)])%list
         /\ hasProperty name (members (getTopLevel s)) = false
     | DeclOther _ =>
         s' = mkScope (parent s) (strict s) (thisRef s) (topLevel s)
                      (members s ++ [(name, member)])%list
         /\ hasProperty name (members s) = false
     end
  /\ visitIdentifier name s' (Some context)
     = Throws (Error ("'" ++ name ++ "' already defined"))
  /\ exists found, visitIdentifier name s' None = Ok (Some found, s').
Proof.
  intros Hc. unfold visitIdentifier. cbv zeta. rewrite Hc. clear Hc.
  destruct context as [|kind].
  - (* var: hoisted to the top-level scope *)
    rewrite !onTopLevel_addOwnMember.
    destruct (hasProperty name (members (getTopLevel s))) eqn:Hp; [discriminate|].
    cbn [bind fst snd orEmptyObject]. intros E; inversion E; subst. clear E.
    cbv zeta.
    pose proof (getTopLevel_extendTopLevel name (Info (Some name) None None) s) as H.
    rewrite H. split; [reflexivity|].
    split; [split; [reflexivity|split;
                      [apply members_getTopLevel_extendTopLevel|reflexivity]]|].
    split; [reflexivity|].
    apply findMember_defined_topLevel in H.
    destruct (findMember truthyAnalysis name _) as [d|k|]; [| |congruence];
      eexists; reflexivity.
  - (* let, const, parameters: in the given scope *)
    unfold addOwnMember. cbv zeta.
    destruct (hasProperty name (members s)) eqn:Hp; [discriminate|].
    cbn [bind fst snd orEmptyObject]. intros E; inversion E; subst. clear E.
    cbn [members]. rewrite hasProperty_app, String.eqb_refl, orb_true_r.
    split; [reflexivity|]. split; [split; reflexivity|]. split; [reflexivity|].
    unfold hasProperty, hasOwn in Hp. apply orb_false_iff in Hp.
    destruct Hp as [Hown _].
    erewrite findMember_own.
    + eexists. reflexivity.
    + cbn [members]. rewrite ownProperty_app.
      destruct (ownProperty name (members s)); [discriminate|].
      now rewrite String.eqb_refl.
Qed.

Lemma declared_once_witness :
  let s := createNested (@newScope Analysis unit) in
  let s' : AScope :=
    mkScope (Some (mkScope None false None true
                           [("x", Info (Some "x") None None)]))
            false None false [] in
  Some (Info (Some "x") None None) = Some (Info (Some "x") None None)
  /\ (s' = extendTopLevel [("x", Info (Some "x") None None)] s
      /\ members (getTopLevel s')
         = (members (getTopLevel s) ++ [("x", Info (Some "x") None None)])%list
      /\ hasProperty "x" (members (getTopLevel s)) = false)
  /\ visitIdentifier "x" s' (Some DeclVar)
     = Throws (Error ("'" ++ "x" ++ "' already defined"))
  /\ exists found, visitIdentifier "x" s' None = Ok (Some found, s').
Proof.
  apply (declared_once "x" (createNested (@newScope Analysis unit)) DeclVar
           (Some (Info (Some "x") None None))
           (mkScope (Some (mkScope None false None true
                                   [("x", Info (Some "x") None None)]))
                    false None false [])).
  - reflexivity.
  - reflexivity.
Defined.

End AnalyzeFacts.

(** * Facts about the walker *)
Module WalkFacts.
Import Walk.
Local Open Scope list_scope.

Lemma bindRun_eta4 {A B C D : Type} (x : Run (A * B * C * D)) :
  bindRun x (fun r => let '(a, b, c, d) := r in Some (Ok (a, b, c, d))) = x.
Proof. destruct x as [[[[[a b] c] d]|e]|]; reflexivity. Qed.

Lemma bindRun_mono {A B : Type} (x1 x2 : Run A) (f1 f2 : A -> Run B) r :
  (forall a, x1 = Some a -> x2 = Some a) ->
  (forall a b, f1 a = Some b -> f2 a = Some b) ->
  bindRun x1 f1 = Some r -> bindRun x2 f2 = Some r.
Proof.
  intros Hx Hf. destruct x1 as [[a|e]|]; simpl; [| |discriminate].
  - rewrite (Hx _ eq_refl). simpl. apply Hf.
  - rewrite (Hx _ eq_refl). simpl. auto.
Qed.

Section Visits.
Variables State World : Type.
Variable visitors : string -> option (Hook State World).

Local Abbreviation runBefore := (Walk.runBefore visitors).
Local Abbreviation runAfter := (Walk.runAfter visitors).
Local Abbreviation descend := (Walk.descend visitors).
Local Abbreviation visit := (Walk.visit visitors).

(** ** More depth changes no result *)

Lemma runAction_extends (v1 v2 : VisitFn State World) a :
  extends v1 v2 ->
  forall r, runAction (Some v1) a = Some r -> runAction (Some v2) a = Some r.
Proof.
  intros H. induction a as [res w|e|node state override w next IH]; intros r;
    cbn [runAction]; auto.
  apply bindRun_mono; [intros x; apply H|].
  intros x b. apply bindRun_mono; [intros y; apply IH|auto].
Qed.

Lemma runBefore_extends (v1 v2 : VisitFn State World) vtypes node ancestors :
  extends v1 v2 ->
  forall state br w r,
    runBefore v1 vtypes node state ancestors br w = Some r ->
    runBefore v2 vtypes node state ancestors br w = Some r.
Proof.
  intros H. induction vtypes as [|vtype rest IH]; intros state br w r;
    cbn [Walk.runBefore]; auto.
  destruct (visitors (vtype ++ "Before")) as [hook|]; [|apply IH].
  apply bindRun_mono; [intros x; now apply runAction_extends|].
  intros [[res evs] w'] b. cbn [fst snd].
  destruct res; auto; apply bindRun_mono; auto; intros x; apply IH.
Qed.

Lemma visitCalls_extends (c1 c2 : Node -> option string -> World
                                  -> Run (list (Event State) * World)) calls :
  (forall child o w r, c1 child o w = Some r -> c2 child o w = Some r) ->
  forall w r, visitCalls c1 calls w = Some r -> visitCalls c2 calls w = Some r.
Proof.
  intros H. induction calls as [|[child o] rest IH]; intros w r;
    cbn [visitCalls]; auto.
  apply bindRun_mono; [intros x; apply H|].
  intros x b. apply bindRun_mono; [intros y; apply IH|auto].
Qed.

Lemma descend_extends (v1 v2 : VisitFn State World)
      node override vtypes ancestors before br state w r :
  extends v1 v2 ->
  descend v1 node override vtypes ancestors before br state w = Some r ->
  descend v2 node override vtypes ancestors before br state w = Some r.
Proof.
  intros H. unfold Walk.descend. destruct (isFalse br); auto.
  destruct (selectWalker node override) as [[key [calls ending]]|]; auto.
  apply bindRun_mono; auto.
  intros x. apply visitCalls_extends. intros child o w0 r0. apply H.
Qed.

Lemma visit_S depth : forall ancestors,
  extends (fun node state override w =>
             visit depth node state override ancestors w)
          (fun node state override w =>
             visit (S depth) node state override ancestors w).
Proof.
  induction depth as [|d IH]; intros ancestors node state override w r.
  - discriminate.
  - intros E. cbn [Walk.visit] in E.
    change (visit (S (S d)) node state override ancestors w)
      with (match visitorTypes node override with
            | Throws e => Some (Throws e)
            | Ok vtypes =>
                let ancestors' :=
                  option_map (fun a => a ++ [node]) ancestors in
                let nested : VisitFn State World :=
                  fun child st o w' => visit (S d) child st o ancestors' w' in
                bindRun (runBefore nested vtypes node state ancestors' None w)
                  (fun r =>
                     let '(entries, beforeResult, state', w1) := r in
                     descend nested node override vtypes ancestors'
                             (entryEvents node entries) beforeResult state' w1)
            end).
    destruct (visitorTypes node override) as [vtypes|e]; [|exact E].
    cbv zeta in *. revert E. apply bindRun_mono.
    + intros x. apply runBefore_extends. apply IH.
    + intros [[[entries br] st] w1] b. apply descend_extends. apply IH.
Qed.

(** A visit that returns within some depth returns the same with any
    greater depth. *)
Lemma visit_deeper depth depth' node state override ancestors w r :
  visit depth node state override ancestors w = Some r ->
  depth <= depth' ->
  visit depth' node state override ancestors w = Some r.
Proof.
  intros E Hle. induction Hle as [|d Hle IH]; [exact E|].
  now apply (visit_S d ancestors).
Qed.

(** ** The loop over the entry hooks *)

(** The loop over [pre ++ post] is the loop over [pre], ended there when
    a hook returned [false], and otherwise followed by the loop over
    [post] from the state and the result the first one ended with. *)
Lemma runBefore_app nested pre post node ancestors :
  forall state br w,
    isFalse br = false ->
    runBefore nested (pre ++ post) node state ancestors br w
    = bindRun (runBefore nested pre node state ancestors br w)
        (fun r =>
           let '(entries, br1, st1, w1) := r in
           if isFalse br1 then Some (Ok (entries, br1, st1, w1))
           else
             bindRun (runBefore nested post node st1 ancestors br1 w1)
               (fun r' =>
                  let '(later, br2, st2, w2) := r' in
                  Some (Ok (entries ++ later, br2, st2, w2)))).
Proof.
  induction pre as [|vtype rest IH]; intros state br w Hbr.
  - cbn [app Walk.runBefore bindRun]. rewrite Hbr. cbn [app].
    now rewrite bindRun_eta4.
  - cbn [app Walk.runBefore].
    destruct (visitors (vtype ++ "Before")) as [hook|]; [|now apply IH].
    destruct (runAction _ _) as [[[[res evs] w']|e]|]; cbn [bindRun fst snd];
      [|reflexivity|reflexivity].
    assert (Go : forall result st,
      isFalse (Some result) = false ->
      bindRun (runBefore nested (rest ++ post) node st ancestors (Some result) w')
        (fun r' =>
           let '(entries, br0, st0, w'0) := r' in
           Some (Ok (mkEntry vtype state evs :: entries, br0, st0, w'0)))
      = bindRun
          (bindRun (runBefore nested rest node st ancestors (Some result) w')
             (fun r' =>
                let '(entries, br0, st0, w'0) := r' in
                Some (Ok (mkEntry vtype state evs :: entries, br0, st0, w'0))))
          (fun r =>
             let '(entries, br1, st1, w1) := r in
             if isFalse br1 then Some (Ok (entries, br1, st1, w1))
             else
               bindRun (runBefore nested post node st1 ancestors br1 w1)
                 (fun r' =>
                    let '(later, br2, st2, w2) := r' in
                    Some (Ok (entries ++ later, br2, st2, w2))))).
    { intros result st Hres. rewrite (IH st (Some result) w' Hres).
      destruct (runBefore nested rest node st ancestors (Some result) w')
        as [[[[[entries br1] st1] w1]|e]|]; cbn [bindRun]; try reflexivity.
      destruct (isFalse br1); cbn [bindRun]; [reflexivity|].
      destruct (runBefore nested post node st1 ancestors br1 w1)
        as [[[[[later br2] st2] w2]|e]|]; reflexivity. }
    destruct res as [| |s]; [reflexivity| |]; now apply Go.
Qed.

(** The calls of the loop follow the registered entry hooks in order;
    when the loop ends with a result other than [false] all of them were
    called, and when it ends with [false] its last call returned it. *)
Lemma runBefore_order nested vtypes node ancestors :
  forall state br w entries br' state' w',
    isFalse br = false ->
    runBefore nested vtypes node state ancestors br w
    = Some (Ok (entries, br', state', w')) ->
    exists skipped,
      filter (hasEntryHook visitors) vtypes = map entryType entries ++ skipped
      /\ (isFalse br' = false -> skipped = [])
      /\ (isFalse br' = true ->
          exists front last hook st w0,
            entries = front ++ [last]
            /\ visitors (entryType last ++ "Before") = Some hook
            /\ entryState last = st
            /\ runAction (Some nested) (hook node st ancestors w0)
               = Some (Ok (ReturnsFalse, started last, w'))).
Proof.
  induction vtypes as [|vtype rest IH];
    intros state br w entries br' state' w' Hbr H; cbn [Walk.runBefore] in H.
  - inversion H; subst. exists []. repeat split; auto. congruence.
  - cbn [filter]. unfold hasEntryHook at 1.
    destruct (visitors (vtype ++ "Before")) as [hook|] eqn:Ev; cbn [isSome];
      [|eauto].
    destruct (runAction (Some nested) (hook node state ancestors w))
      as [[[[res evs] w1]|e]|] eqn:Ea; cbn [bindRun fst snd] in H;
      [|discriminate|discriminate].
    assert (Go : forall result st,
      isFalse (Some result) = false ->
      bindRun (runBefore nested rest node st ancestors (Some result) w1)
        (fun r' =>
           let '(entries, br0, st0, w'0) := r' in
           Some (Ok (mkEntry vtype state evs :: entries, br0, st0, w'0)))
      = Some (Ok (entries, br', state', w')) ->
      exists skipped,
        vtype :: filter (hasEntryHook visitors) rest
        = map entryType entries ++ skipped
        /\ (isFalse br' = false -> skipped = [])
        /\ (isFalse br' = true ->
            exists front last hook st w0,
              entries = front ++ [last]
              /\ visitors (entryType last ++ "Before") = Some hook
              /\ entryState last = st
              /\ runAction (Some nested) (hook node st ancestors w0)
                 = Some (Ok (ReturnsFalse, started last, w')))).
    { intros result st Hres E.
      destruct (runBefore nested rest node st ancestors (Some result) w1)
        as [[[[[later br1] st1] w2]|e]|] eqn:Er; cbn [bindRun] in E;
        [|discriminate|discriminate].
      inversion E; subst. clear E.
      destruct (IH _ _ _ _ _ _ _ Hres Er) as (skipped & Hf & Hs & Hl).
      exists skipped. split; [cbn; now rewrite Hf|]. split; [exact Hs|].
      intros Hb. destruct (Hl Hb) as (front & last & hook' & st' & w0 & -> & Hh).
      exists (mkEntry vtype state evs :: front), last, hook', st', w0.
      split; [reflexivity|exact Hh]. }
    destruct res as [| |s]; [|now apply (Go ReturnsFalsy state)
                             |now apply (Go (ReturnsTruthy s) s)].
    inversion H; subst. clear H.
    exists (filter (hasEntryHook visitors) rest). split; [reflexivity|].
    split; [discriminate|]. intros _.
    exists [], (mkEntry vtype state' evs), hook, state', w. repeat split; auto.
Qed.

(** The state the loop ends with is the last truthy result, and the
    state it started with when no hook was called. *)
Lemma runBefore_state nested vtypes node ancestors :
  forall state br w entries br' state' w',
    runBefore nested vtypes node state ancestors br w
    = Some (Ok (entries, br', state', w')) ->
    (forall s, br' = Some (ReturnsTruthy s) ->
       (br = Some (ReturnsTruthy s) -> state = s) -> state' = s)
    /\ (entries = [] -> br' = br /\ state' = state /\ w' = w).
Proof.
  induction vtypes as [|vtype rest IH];
    intros state br w entries br' state' w' H; cbn [Walk.runBefore] in H.
  - inversion H; subst. split; auto.
  - destruct (visitors (vtype ++ "Before")) as [hook|]; [|eauto].
    destruct (runAction (Some nested) (hook node state ancestors w))
      as [[[[res evs] w1]|e]|]; cbn [bindRun fst snd] in H;
      [|discriminate|discriminate].
    destruct res as [| |s0].
    + inversion H; subst. split; [discriminate|discriminate].
    + destruct (runBefore nested rest node state ancestors (Some ReturnsFalsy) w1)
        as [[[[[later br1] st1] w2]|e]|] eqn:Er; cbn [bindRun] in H;
        [|discriminate|discriminate].
      inversion H; subst. destruct (IH _ _ _ _ _ _ _ Er) as [Hst _].
      split; [|discriminate]. intros s Hs _. apply Hst; [exact Hs|discriminate].
    + destruct (runBefore nested rest node s0 ancestors (Some (ReturnsTruthy s0)) w1)
        as [[[[[later br1] st1] w2]|e]|] eqn:Er; cbn [bindRun] in H;
        [|discriminate|discriminate].
      inversion H; subst. destruct (IH _ _ _ _ _ _ _ Er) as [Hst _].
      split; [|discriminate]. intros s Hs _. apply Hst; [exact Hs|].
      intros E'. now inversion E'.
Qed.

(** The first call of the loop receives the state the loop starts with. *)
Lemma runBefore_first nested vtypes node ancestors :
  forall state br w e entries br' state' w',
    runBefore nested vtypes node state ancestors br w
    = Some (Ok (e :: entries, br', state', w')) ->
    entryState e = state.
Proof.
  induction vtypes as [|vtype rest IH];
    intros state br w e entries br' state' w' H; cbn [Walk.runBefore] in H.
  - discriminate.
  - destruct (visitors (vtype ++ "Before")) as [hook|]; [|eauto].
    destruct (runAction (Some nested) (hook node state ancestors w))
      as [[[[res evs] w1]|err]|]; cbn [bindRun fst snd] in H;
      [|discriminate|discriminate].
    destruct res as [| |s0].
    + inversion H; subst. reflexivity.
    + destruct (runBefore nested rest node state ancestors (Some ReturnsFalsy) w1)
        as [[[[[later br1] st1] w2]|err]|]; cbn [bindRun] in H;
        [|discriminate|discriminate].
      inversion H; subst. reflexivity.
    + destruct (runBefore nested rest node s0 ancestors (Some (ReturnsTruthy s0)) w1)
        as [[[[[later br1] st1] w2]|err]|]; cbn [bindRun] in H;
        [|discriminate|discriminate].
      inversion H; subst. reflexivity.
Qed.

(** One unfolding of [visit]. *)
Lemma visit_unfold deeper node state override ancestors w :
  visit (S deeper) node state override ancestors w
  = match visitorTypes node override with
    | Throws e => Some (Throws e)
    | Ok vtypes =>
        let ancestors' := option_map (fun a => a ++ [node]) ancestors in
        let nested : VisitFn State World :=
          fun child st o w' => visit deeper child st o ancestors' w' in
        bindRun (runBefore nested vtypes node state ancestors' None w)
          (fun r =>
             let '(entries, beforeResult, state', w1) := r in
             descend nested node override vtypes ancestors'
                     (entryEvents node entries) beforeResult state' w1)
    end.
Proof. reflexivity. Qed.

Lemma entryEvents_app node (a b : list (Entry State)) :
  entryEvents node (a ++ b) = entryEvents node a ++ entryEvents node b.
Proof. unfold entryEvents. apply flat_map_app. Qed.

(** The exit hooks are called on this node, in the order given. *)
Lemma runAfter_order vtypes node ancestors :
  forall state w after w',
    runAfter vtypes node state ancestors w = Some (Ok (after, w')) ->
    map eventType after = filter (hasExitHook visitors) vtypes
    /\ Forall (isAfterOf node) after
    /\ (forall ev evs, after = ev :: evs -> exists vtype, ev = EvAfter vtype node state).
Proof.
  induction vtypes as [|vtype rest IH]; intros state w after w' H;
    cbn [Walk.runAfter] in H.
  - inversion H; subst. repeat split; [constructor|discriminate].
  - cbn [filter]. unfold hasExitHook at 1.
    destruct (visitors vtype) as [hook|]; cbn [isSome]; [|eauto].
    destruct (runAction None (hook node state ancestors w))
      as [[[[res evs] w1]|e]|]; cbn [bindRun fst snd] in H;
      [|discriminate|discriminate].
    destruct (runAfter rest node _ ancestors w1) as [[[later w2]|e]|] eqn:E;
      cbn [bindRun fst snd] in H; [|discriminate|discriminate].
    inversion H; subst. destruct (IH _ _ _ _ E) as (Hm & Hf & _).
    split; [cbn; now rewrite Hm|]. split.
    + constructor; [now exists vtype, state|exact Hf].
    + intros ev evs' E'. inversion E'; subst. now exists vtype.
Qed.

(** C9 (amended).  In a visit of [node], take an entry hook that is
    reached: the loop over the visitor types before its own, [pre], has
    ended without a result [false], with the state [st1].  The hook is
    called with [st1].
    - If it returns exactly [false], the visit ends with this call: no
      further entry hook is called, the walker does not descend and no
      exit hook is called.
    - If it returns another falsy value ([undefined], [null], [0], ...)
      the visit goes on with the state [st1] unchanged; if it returns a
      truthy value, with that value as the state [st2].  From [st2] the
      loop runs over the later visitor types [post], its first call
      receiving [st2]; when it ends without [false], with the state
      [state'], the walker is called with [state'], the visits it makes
      start from [state'] and the first exit hook called receives
      [state'].  [state'] is the last truthy result, and [st2] when no
      later entry hook is called. *)
Theorem entry_hook_results deeper node state override ancestors w
    pre vtype post hook entries br1 st1 w1 result events w2 :
  let ancestors' := option_map (fun a => a ++ [node]) ancestors in
  let nested : VisitFn State World :=
    fun child st o w' => visit deeper child st o ancestors' w' in
  let vtypes := pre ++ vtype :: post in
  let entry := mkEntry vtype st1 events in
  let st2 := match result with ReturnsTruthy s => s | _ => st1 end in
  visitorTypes node override = Ok vtypes ->
  runBefore nested pre node state ancestors' None w
  = Some (Ok (entries, br1, st1, w1)) ->
  isFalse br1 = false ->
  visitors (vtype ++ "Before") = Some hook ->
  runAction (Some nested) (hook node st1 ancestors' w1)
  = Some (Ok (result, events, w2)) ->
  (result = ReturnsFalse ->
   visit (S deeper) node state override ancestors w
   = Some (Ok (entryEvents node entries
               ++ EvBefore vtype node st1 :: events, w2)))
  /\ (result <> ReturnsFalse ->
      (result = ReturnsFalsy -> st2 = st1)
      /\ (forall s, result = ReturnsTruthy s -> st2 = s)
      /\ visit (S deeper) node state override ancestors w
         = bindRun (runBefore nested post node st2 ancestors' (Some result) w2)
             (fun r =>
                let '(later, br, state', w3) := r in
                descend nested node override vtypes ancestors'
                        (entryEvents node (entries ++ entry :: later))
                        br state' w3)
      /\ (forall later br state' w3,
            runBefore nested post node st2 ancestors' (Some result) w2
            = Some (Ok (later, br, state', w3)) ->
            (forall e rest, later = e :: rest -> entryState e = st2)
            /\ (forall s, br = Some (ReturnsTruthy s) -> state' = s)
            /\ (later = [] -> state' = st2)
            /\ (isFalse br = false ->
                forall before key calls ending,
                  selectWalker node override = Some (key, (calls, ending)) ->
                  descend nested node override vtypes ancestors' before
                          br state' w3
                  = bindRun (visitCalls (fun child o => nested child state' o)
                                        calls w3)
                      (fun c =>
                         match ending with
                         | Some e => Some (Throws e)
                         | None =>
                             bindRun (runAfter (rev vtypes) node state'
                                               ancestors' (snd c))
                               (fun a =>
                                  Some (Ok (before
                                            ++ EvWalker key node state'
                                               :: fst c ++ fst a, snd a)))
                         end)
                  /\ (forall c after w4 ev evs,
                        runAfter (rev vtypes) node state' ancestors' c
                        = Some (Ok (after, w4)) ->
                        after = ev :: evs ->
                        exists vt, ev = EvAfter vt node state')))).
Proof.
  intros ancestors' nested vtypes entry st2 Hv Hpre Hbr1 Hhook Hact.
  assert (Loop : runBefore nested vtypes node state ancestors' None w
                 = match result with
                   | ReturnsFalse =>
                       Some (Ok (entries ++ [entry], Some ReturnsFalse, st1, w2))
                   | _ =>
                       bindRun (runBefore nested post node st2 ancestors'
                                          (Some result) w2)
                         (fun r' =>
                            let '(later, br2, st3, w3) := r' in
                            Some (Ok (entries ++ entry :: later, br2, st3, w3)))
                   end).
  { unfold vtypes. rewrite runBefore_app by reflexivity.
    rewrite Hpre. cbn [bindRun]. rewrite Hbr1.
    cbn [Walk.runBefore]. rewrite Hhook, Hact. cbn [bindRun fst snd].
    fold entry. unfold st2.
    destruct result as [| |s]; [reflexivity| |];
      destruct (runBefore nested post node _ ancestors' _ w2)
        as [[[[[later br2] st3] w3]|e]|]; reflexivity. }
  split.
  - intros ->. rewrite visit_unfold, Hv. cbv zeta.
    fold ancestors' nested. rewrite Loop. cbn [bindRun].
    unfold Walk.descend. cbn [isFalse]. rewrite entryEvents_app.
    change (entryEvents node [entry])
      with ((EvBefore vtype node st1 :: events) ++ []).
    now rewrite app_nil_r.
  - intros Hres. split; [intros ->; reflexivity|].
    split; [intros s ->; reflexivity|]. split.
    + rewrite visit_unfold, Hv. cbv zeta. fold ancestors' nested. rewrite Loop.
      destruct result as [| |s]; [congruence| |];
        destruct (runBefore nested post node _ ancestors' _ w2)
          as [[[[[later br2] st3] w3]|e]|]; reflexivity.
    + intros later br state' w3 Hpost.
      destruct (runBefore_state _ _ _ _ _ _ _ _ _ _ _ Hpost) as [Hst Hnil].
      split; [|split; [|split]].
      * intros e rest ->. exact (runBefore_first _ _ _ _ _ _ _ _ _ _ _ _ Hpost).
      * intros s Hs. apply Hst; [exact Hs|]. intros E. inversion E; subst.
        reflexivity.
      * intros Hl. now destruct (Hnil Hl) as (_ & -> & _).
      * intros Hbr before key calls ending Hw. split.
        -- unfold Walk.descend. now rewrite Hbr, Hw.
        -- intros c after w4 ev evs Ha E.
           destruct (runAfter_order _ _ _ _ _ _ _ Ha) as (_ & _ & H).
           exact (H ev evs E).
Qed.
End Visits.

Lemma entry_hook_results_witness :
  visit (visitorsReturning ReturnsFalse) 1 statementNode 0 None None tt
  = Some (Ok ([EvBefore "ExpressionStatement" statementNode 0], tt)).
Proof.
  exact (proj1 (entry_hook_results nat unit (visitorsReturning ReturnsFalse)
                  0 statementNode 0 None None tt
                  ["Statement"] "ExpressionStatement" []
                  (returning ReturnsFalse) [] None 0 tt ReturnsFalse [] tt
                  eq_refl eq_refl eq_refl eq_refl eq_refl) eq_refl).
Defined.

(** C9 as stated fails for an entry hook that returns [undefined]: it is
    falsy, yet the walker descends into the statement and the exit hook is
    invoked. *)
Lemma falsy_entry_hook_descends :
  returning ReturnsFalsy statementNode 0 None tt = Return ReturnsFalsy tt
  /\ forall deeper,
       visit (visitorsReturning ReturnsFalsy) (S (S deeper)) statementNode 0
             None None tt
       = Some (Ok ([ EvBefore "ExpressionStatement" statementNode 0;
                     EvWalker "ExpressionStatement" statementNode 0;
                     EvWalker "Identifier" identifierNode 0;
                     EvAfter "ExpressionStatement" statementNode 0 ], tt)).
Proof. split; reflexivity. Qed.

(** A truthy result replaces the state for the descent and the exit hook. *)
Lemma truthy_entry_hook_threads_state deeper :
  visit (visitorsReturning (ReturnsTruthy 7)) (S (S deeper)) statementNode 0
        None None tt
  = Some (Ok ([ EvBefore "ExpressionStatement" statementNode 0;
                EvWalker "ExpressionStatement" statementNode 7;
                EvWalker "Identifier" identifierNode 7;
                EvAfter "ExpressionStatement" statementNode 7 ], tt)).
Proof. reflexivity. Qed.

(** An entry hook that walks the child itself and returns [false]: the
    child is visited from the hook, and the walker of the statement is not
    called. *)
Lemma entry_hook_walks_child deeper :
  visit visitorsWalkingChild (S (S deeper)) statementNode 0 None None tt
  = Some (Ok ([ EvBefore "ExpressionStatement" statementNode 0;
                EvWalker "Identifier" identifierNode 0;
                EvAfter "Identifier" identifierNode 0 ], tt)).
Proof. reflexivity. Qed.

(** A node whose type is a property of [Object.prototype]: without
    override, [groups[type]] is found and cannot be spread; the visit
    throws a TypeError before any hook is called. *)
Lemma inherited_node_type deeper state w :
  visit (visitorsReturning ReturnsFalsy) (S deeper) constructorNode state None None w
  = Some (Throws TypeError).
Proof. reflexivity. Qed.


(** ** The order of the hooks *)

Section HookOrder.
Variables State World : Type.
Variable visitors : string -> option (Hook State World).

Local Abbreviation runBefore := (Walk.runBefore visitors).
Local Abbreviation runAfter := (Walk.runAfter visitors).
Local Abbreviation visit := (Walk.visit visitors).

(** X21.  In a visit that returns, the trace begins with the
    calls of entry hooks of this node, each followed by the trace of the
    visits that hook started itself, in the order of the visitor types
    (the override or the groups, least specific first; the node type
    last).  Either the last of these calls returned [false] and the
    trace ends there, the remaining entry hooks being skipped; or every
    registered entry hook was called exactly once, then the walker with
    the visits of the children, and at the end every registered exit
    hook of this node, exactly once, in the reverse order, the node type
    first. *)
Theorem hooks_in_order deeper node state override ancestors w trace w' :
  visit (S deeper) node state override ancestors w = Some (Ok (trace, w')) ->
  let ancestors' := option_map (fun a => a ++ [node]) ancestors in
  let nested : VisitFn State World :=
    fun child st o w0 => visit deeper child st o ancestors' w0 in
  exists vtypes entries rest,
    visitorTypes node override = Ok vtypes
    /\ trace = entryEvents node entries ++ rest
    /\ ((exists skipped front last hook w0,
           rest = []
           /\ filter (hasEntryHook visitors) vtypes
              = map entryType entries ++ skipped
           /\ entries = front ++ [last]
           /\ visitors (entryType last ++ "Before")%string = Some hook
           /\ runAction (Some nested) (hook node (entryState last) ancestors' w0)
              = Some (Ok (ReturnsFalse, started last, w')))
        \/ (exists key state' children after,
              rest = EvWalker key node state' :: children ++ after
              /\ map entryType entries = filter (hasEntryHook visitors) vtypes
              /\ Forall (isAfterOf node) after
              /\ map eventType after
                 = filter (hasExitHook visitors) (rev vtypes))).
Proof.
  intros H ancestors' nested. rewrite visit_unfold in H.
  destruct (visitorTypes node override) as [vtypes|e]; [|discriminate].
  cbv zeta in H. fold ancestors' nested in H.
  destruct (runBefore nested vtypes node state ancestors' None w)
    as [[[[[entries br] state'] w1]|e]|] eqn:Eb; cbn [bindRun] in H;
    [|discriminate|discriminate].
  destruct (runBefore_order State World visitors nested vtypes node ancestors'
              state None w entries br state' w1 eq_refl Eb)
    as (skipped & Hf & Hs & Hl).
  exists vtypes, entries. unfold Walk.descend in H.
  destruct (isFalse br) eqn:Ebr.
  - inversion H; subst. exists []. split; [reflexivity|].
    split; [now rewrite app_nil_r|]. left.
    destruct (Hl eq_refl) as (front & last & hook & st & w0 & He & Hh & Hst & Ha).
    exists skipped, front, last, hook, w0. subst st. auto.
  - destruct (selectWalker node override) as [[key [calls ending]]|];
      [|discriminate].
    destruct (visitCalls _ calls w1) as [[[children w2]|e]|]; cbn [bindRun] in H;
      [|discriminate|discriminate].
    destruct ending as [e|]; [discriminate|]. cbn [fst snd] in H.
    destruct (runAfter (rev vtypes) node state' ancestors' w2)
      as [[[after w3]|e]|] eqn:Ea; cbn [bindRun fst snd] in H;
      [|discriminate|discriminate].
    inversion H; subst.
    destruct (runAfter_order _ _ _ _ _ _ _ _ _ _ Ea) as (Hm & Ha & _).
    exists (EvWalker key node state' :: children ++ after).
    split; [reflexivity|]. split; [reflexivity|]. right.
    exists key, state', children, after. rewrite (Hs eq_refl) in Hf.
    rewrite app_nil_r in Hf. auto.
Qed.
End HookOrder.

Lemma hooks_in_order_witness :
  exists vtypes entries rest,
    visitorTypes statementNode None = Ok vtypes
    /\ [ EvBefore "Statement" statementNode 0;
         EvBefore "ExpressionStatement" statementNode 0;
         EvWalker "ExpressionStatement" statementNode 0;
         EvWalker "Identifier" identifierNode 0;
         EvAfter "ExpressionStatement" statementNode 0;
         EvAfter "Statement" statementNode 0 ]
       = entryEvents statementNode entries ++ rest
    /\ ((exists skipped front last hook w0,
           rest = []
           /\ filter (hasEntryHook allHooks) vtypes
              = map entryType entries ++ skipped
           /\ entries = front ++ [last]
           /\ allHooks (entryType last ++ "Before")%string = Some hook
           /\ runAction
                (Some (fun child st o w0 =>
                         visit allHooks 1 child st o None w0))
                (hook statementNode (entryState last) None w0)
              = Some (Ok (ReturnsFalse, started last, tt)))
        \/ (exists key state' children after,
              rest = EvWalker key statementNode state' :: children ++ after
              /\ map entryType entries = filter (hasEntryHook allHooks) vtypes
              /\ Forall (isAfterOf statementNode) after
              /\ map eventType after
                 = filter (hasExitHook allHooks) (rev vtypes))).
Proof.
  exact (hooks_in_order nat unit allHooks 1 statementNode 0 None None tt _ tt
                        eq_refl).
Defined.

End WalkFacts.

(** * Facts about the token buffer *)
Module TokenBufferFacts.
Import TokenBuffer.
Local Open Scope list_scope.

Section LineFacts.
Variable theMargin : nat.

Local Abbreviation within := (normalsWithinMargin theMargin).

Lemma within_app seen col p q :
  within seen col (p ++ q) = true -> within seen col p = true.
Proof.
  revert seen col. induction p as [|[text kind] p IH]; simpl; intros seen col H;
    [reflexivity|].
  destruct kind; eauto.
  apply andb_true_iff in H. destruct H as [H1 H2].
  rewrite H1. simpl. eauto.
Qed.

Lemma within_weaken q : forall seen col,
  within true col q = true -> within seen col q = true.
Proof.
  induction q as [|[text kind] q IH]; simpl; intros seen col H; [reflexivity|].
  destruct kind; auto.
  apply andb_true_iff in H. destruct H as [H1 H2].
  rewrite H2, andb_true_r. destruct seen; auto.
Qed.

Lemma within_app_true p : forall seen col q,
  within seen col p = true ->
  within true (col + width p) q = true ->
  within seen col (p ++ q) = true.
Proof.
  induction p as [|[text kind] p IH]; simpl; intros seen col q Hp Hq.
  - unfold width in Hq. simpl in Hq. rewrite Nat.add_0_r in Hq.
    now apply within_weaken.
  - unfold width in *. simpl in Hq. rewrite Nat.add_assoc in Hq.
    destruct kind; auto.
    apply andb_true_iff in Hp. destruct Hp as [H1 H2].
    rewrite H1. simpl. auto.
Qed.

Lemma nonSpaceAt_new pre t rest :
  isSpace t = false -> nonSpaceAt (pre ++ t :: rest) (Z.of_nat (List.length pre)).
Proof.
  intros H. split; [lia|]. exists t. rewrite Nat2Z.id.
  rewrite nth_error_app2 by lia. now rewrite Nat.sub_diag.
Qed.

Lemma snoc_app {A} (pre : list A) t rest : (pre ++ [t]) ++ rest = pre ++ t :: rest.
Proof. now rewrite <- app_assoc. Qed.

(** The second loop. *)
Lemma extend_spec rest : forall pre lwp lns lnt col atEnd lwp' lns',
  extend theMargin rest (List.length pre) lwp lns lnt col = (atEnd, lwp', lns') ->
  (lwp < Z.of_nat (List.length pre))%Z -> (lns < Z.of_nat (List.length pre))%Z ->
  validPos (pre ++ rest) lwp -> validPos (pre ++ rest) lns ->
  exists consumed remaining,
    rest = consumed ++ remaining
    /\ (atEnd = true -> remaining = [])
    /\ within true col consumed = true
    /\ (lwp <= lwp' < Z.of_nat (List.length pre + List.length consumed))%Z
    /\ (lns <= lns' < Z.of_nat (List.length pre + List.length consumed))%Z
    /\ validPos (pre ++ rest) lwp' /\ validPos (pre ++ rest) lns'.
Proof.
  induction rest as [|[text kind] rest IH];
    intros pre lwp lns lnt col atEnd lwp' lns' H Hlwp Hlns Vlwp Vlns.
  - simpl in H. inversion H; subst. exists [], []. simpl.
    repeat split; auto; lia.
  - simpl in H.
    assert (Hlen : List.length (pre ++ [(text, kind)]) = S (List.length pre)).
    { rewrite length_app. simpl. lia. }
    assert (Step : forall lwp0 lns0 lnt0,
      extend theMargin rest (S (List.length pre)) lwp0 lns0 lnt0
             (col + String.length text) = (atEnd, lwp', lns') ->
      (lwp <= lwp0 < Z.of_nat (S (List.length pre)))%Z ->
      (lns <= lns0 < Z.of_nat (S (List.length pre)))%Z ->
      validPos (pre ++ (text, kind) :: rest) lwp0 ->
      validPos (pre ++ (text, kind) :: rest) lns0 ->
      (kind = Normal -> (col + String.length text <= theMargin)%nat) ->
      exists consumed remaining,
        (text, kind) :: rest = consumed ++ remaining
        /\ (atEnd = true -> remaining = [])
        /\ within true col consumed = true
        /\ (lwp <= lwp' < Z.of_nat (List.length pre + List.length consumed))%Z
        /\ (lns <= lns' < Z.of_nat (List.length pre + List.length consumed))%Z
        /\ validPos (pre ++ (text, kind) :: rest) lwp'
        /\ validPos (pre ++ (text, kind) :: rest) lns').
    { intros lwp0 lns0 lnt0 E B1 B2 V1 V2 Hm.
      rewrite <- Hlen in E.
      destruct (IH (pre ++ [(text, kind)]) lwp0 lns0 lnt0 _ _ _ _ E)
        as (consumed & remaining & Hrest & Hend & Hw & Bw & Bn & Vw & Vn);
        rewrite ?Hlen, ?snoc_app; try lia; auto.
      subst rest.
      exists ((text, kind) :: consumed), remaining. simpl.
      rewrite snoc_app in Vw, Vn. rewrite Hlen in Bw, Bn.
      unfold Token in *.
      repeat split; auto; try lia.
      destruct kind; auto.
      rewrite Hw, andb_true_r. apply Nat.leb_le. auto. }
    assert (Hhere : kind <> Space ->
              validPos (pre ++ (text, kind) :: rest) (Z.of_nat (List.length pre))).
    { intros Hk. right. apply nonSpaceAt_new. destruct kind; auto. congruence. }
    unfold Token in *.
    destruct kind.
    + (* Leading *)
      apply (Step _ _ _ H); try lia; auto; try discriminate.
      apply Hhere; discriminate.
    + (* Normal *)
      destruct (Nat.ltb theMargin (col + String.length text)) eqn:Hm.
      * inversion H; subst. exists [], ((text, Normal) :: rest). simpl.
        repeat split; auto; try lia; discriminate.
      * apply Nat.ltb_ge in Hm.
        apply (Step _ _ _ H); try lia; auto; apply Hhere; discriminate.
    + (* Trailing *)
      destruct lnt.
      * apply (Step _ _ _ H); try lia; auto; try discriminate;
          apply Hhere; discriminate.
      * apply (Step _ _ _ H); try lia; auto; try discriminate;
          apply Hhere; discriminate.
    + (* Space *)
      apply (Step _ _ _ H); try lia; auto; discriminate.
Qed.

(** A trailing run holds no normal token. *)
Lemma within_trailingRun l : forall seen col,
  within seen col (trailingRun l) = true.
Proof.
  induction l as [|[text kind] l IH]; simpl; intros seen col; [reflexivity|].
  destruct kind; simpl; auto.
Qed.

(** What the first loop reads when it starts after a normal token. *)
Lemma firstRun_trailing l : forall pre lns col rest pos' lns' col',
  firstRun l true (List.length pre) lns col = (rest, pos', lns', col') ->
  (lns < Z.of_nat (List.length pre))%Z ->
  validPos (pre ++ l) lns ->
  l = trailingRun l ++ rest
  /\ pos' = List.length pre + List.length (trailingRun l)
  /\ col' = col + width (trailingRun l)
  /\ (lns <= lns' < Z.of_nat pos')%Z
  /\ validPos (pre ++ l) lns'
  /\ (trailingRun l <> [] -> lns' = (Z.of_nat pos' - 1)%Z).
Proof.
  induction l as [|[text kind] l IH]; intros pre lns col rest pos' lns' col' H Hlns V.
  - simpl in H. inversion H; subst. simpl. unfold width. simpl.
    repeat split; auto; try lia. congruence.
  - simpl in H. destruct kind; simpl in H;
      try (inversion H; subst; simpl; unfold width; simpl;
           repeat split; auto; try lia; congruence).
    assert (Hlen : List.length (pre ++ [(text, Trailing)]) = S (List.length pre)).
    { rewrite length_app. simpl. lia. }
    rewrite <- Hlen in H.
    destruct (IH (pre ++ [(text, Trailing)]) _ _ _ _ _ _ H)
      as (Hl & Hpos & Hcol & Hb & Hv & Hlast).
    + rewrite Hlen. lia.
    + rewrite snoc_app. right. now apply nonSpaceAt_new.
    + rewrite snoc_app in Hv. rewrite Hlen in *. simpl.
      unfold width in *. simpl. unfold Token in *.
      repeat split; auto; try lia.
      * congruence.
      * intros _. destruct (trailingRun l) eqn:E.
        -- simpl in *. lia.
        -- apply Hlast. discriminate.
Qed.

(** What the first loop reads from the start of a buffer. *)
Lemma firstRun_atomic l : forall pre lns col rest pos' lns' col',
  firstRun l false (List.length pre) lns col = (rest, pos', lns', col') ->
  (lns < Z.of_nat (List.length pre))%Z ->
  validPos (pre ++ l) lns ->
  l = atomicPrefix l ++ rest
  /\ pos' = List.length pre + List.length (atomicPrefix l)
  /\ col' = col + width (atomicPrefix l)
  /\ within false col (atomicPrefix l) = true
  /\ (lns <= lns' < Z.of_nat pos')%Z
  /\ validPos (pre ++ l) lns'
  /\ (forall t l0, l = t :: l0 -> isSpace t = false ->
        (Z.of_nat (List.length pre) <= lns')%Z)
  /\ (hasNormal l = true -> lns' = (Z.of_nat pos' - 1)%Z).
Proof.
  induction l as [|[text kind] l IH]; intros pre lns col rest pos' lns' col' H Hlns V.
  - simpl in H. inversion H; subst. simpl. unfold width. simpl.
    repeat split; auto; try lia; try discriminate.
  - assert (Hlen : forall k, List.length (pre ++ [(text, k)]) = S (List.length pre)).
    { intros k. rewrite length_app. simpl. lia. }
    destruct kind; simpl in H.
    + (* Leading *)
      rewrite <- (Hlen Leading) in H.
      destruct (IH (pre ++ [(text, Leading)]) _ _ _ _ _ _ H)
        as (Hl & Hpos & Hcol & Hw & Hb & Hv & _ & Hn).
      * rewrite Hlen. lia.
      * rewrite snoc_app. right. now apply nonSpaceAt_new.
      * rewrite snoc_app in Hv. rewrite Hlen in *. simpl.
        unfold width in *. simpl. unfold Token in *.
        repeat split; auto; try lia. congruence.
    + (* Normal *)
      rewrite <- (Hlen Normal) in H.
      destruct (firstRun_trailing l (pre ++ [(text, Normal)]) _ _ _ _ _ _ H)
        as (Hl & Hpos & Hcol & Hb & Hv & Hlast).
      * rewrite Hlen. lia.
      * rewrite snoc_app. right. now apply nonSpaceAt_new.
      * rewrite snoc_app in Hv. rewrite Hlen in *. simpl.
        unfold width in *. simpl. unfold Token in *.
        repeat split; auto; try lia.
        -- congruence.
        -- apply within_trailingRun.
        -- intros _. destruct (trailingRun l) eqn:E.
           ++ simpl in *. lia.
           ++ apply Hlast. discriminate.
    + (* Trailing *)
      rewrite <- (Hlen Trailing) in H.
      destruct (IH (pre ++ [(text, Trailing)]) _ _ _ _ _ _ H)
        as (Hl & Hpos & Hcol & Hw & Hb & Hv & _ & Hn).
      * rewrite Hlen. lia.
      * rewrite snoc_app. right. now apply nonSpaceAt_new.
      * rewrite snoc_app in Hv. rewrite Hlen in *. simpl.
        unfold width in *. simpl. unfold Token in *.
        repeat split; auto; try lia. congruence.
    + (* Space *)
      rewrite <- (Hlen Space) in H.
      destruct (IH (pre ++ [(text, Space)]) _ _ _ _ _ _ H)
        as (Hl & Hpos & Hcol & Hw & Hb & Hv & _ & Hn).
      * rewrite Hlen. lia.
      * rewrite snoc_app. destruct V as [->|[H0 (t & Ht & Hs)]]; [now left|].
        right. split; [exact H0|]. exists t. split; [|exact Hs]. exact Ht.
      * rewrite snoc_app in Hv. rewrite Hlen in *. simpl.
        unfold width in *. simpl. unfold Token in *.
        repeat split; auto; try lia.
        -- congruence.
        -- intros t l0 E Hs. inversion E; subst. discriminate.
Qed.

Lemma firstn_prefix {A} (l1 l2 : list A) n :
  n <= List.length l1 -> exists more, l1 = firstn n (l1 ++ l2) ++ more.
Proof.
  intros H. exists (skipn n l1).
  rewrite firstn_app. replace (n - List.length l1) with 0 by lia.
  simpl. rewrite app_nil_r. symmetry. apply firstn_skipn.
Qed.

Lemma firstn_extends {A} (l1 l2 : list A) n :
  List.length l1 <= n -> exists more, firstn n (l1 ++ l2) = l1 ++ more.
Proof.
  intros H. exists (firstn (n - List.length l1) l2).
  rewrite firstn_app. now rewrite firstn_all2 by lia.
Qed.

(** The decision of one iteration on a buffer that starts with a token
    other than a space. *)
Lemma findCut_spec indentCol t l0 l cut done :
  l = t :: l0 ->
  isSpace t = false ->
  findCut theMargin indentCol l = (cut, done) ->
  let line := firstn (Z.to_nat (cut + 1)) l in
  nonSpaceAt l cut
  /\ (cut < Z.of_nat (List.length l))%Z
  /\ within false indentCol line = true
  /\ (hasNormal l = true -> exists more, line = atomicPrefix l ++ more).
Proof.
  intros El Ht H line. unfold findCut in H.
  destruct (firstRun l false 0 (-1) indentCol) as [[[rest pos] lns] col] eqn:E1.
  destruct (extend theMargin rest pos lns lns false col)
    as [[atEnd lwp'] lns'] eqn:E2.
  destruct (firstRun_atomic l [] _ _ _ _ _ _ E1)
    as (Hl & Hpos & Hcol & Hw & Hb & Hv & Hfirst & Hlast);
    [simpl; lia|now left|].
  change (@nil Token ++ l) with l in Hv.
  change (List.length (@nil Token)) with 0 in Hpos, Hfirst.
  specialize (Hfirst t l0 El Ht).
  assert (Hpre : pos = List.length (atomicPrefix l)) by lia. subst pos.
  assert (Hv' : validPos (atomicPrefix l ++ rest) lns) by (now rewrite <- Hl).
  destruct (extend_spec rest (atomicPrefix l) lns lns false col _ _ _ E2)
    as (consumed & remaining & Hrest & Hend & Hw2 & Bw & Bn & Vw & Vn);
    try lia; auto.
  rewrite <- Hl in Vw, Vn.
  assert (Hcut : (lns <= cut < Z.of_nat (List.length (atomicPrefix l)
                                        + List.length consumed))%Z
                 /\ validPos l cut).
  { destruct atEnd; inversion H; subst cut done; split; auto; lia. }
  destruct Hcut as [Bc Vc].
  assert (Hns : nonSpaceAt l cut).
  { destruct Vc as [->|Hns]; [lia|exact Hns]. }
  assert (Hfull : l = (atomicPrefix l ++ consumed) ++ remaining).
  { rewrite <- app_assoc, <- Hrest. exact Hl. }
  assert (Hlen : List.length l
                 = List.length (atomicPrefix l) + List.length consumed
                   + List.length remaining).
  { rewrite Hfull at 1. rewrite !length_app. lia. }
  split; [exact Hns|]. split; [lia|]. split.
  - destruct (firstn_prefix (atomicPrefix l ++ consumed) remaining
                            (Z.to_nat (cut + 1))) as [more Hmore].
    { rewrite length_app. lia. }
    rewrite <- Hfull in Hmore. fold line in Hmore.
    apply (within_app false indentCol line more). rewrite <- Hmore.
    apply within_app_true; [exact Hw|]. rewrite <- Hcol. exact Hw2.
  - intros Hn. specialize (Hlast Hn).
    destruct (firstn_extends (atomicPrefix l) rest (Z.to_nat (cut + 1)))
      as [more Hm]; [lia|].
    exists more. rewrite <- Hl in Hm. exact Hm.
Qed.
Lemma dropLeadingSpaces_head l t r :
  dropLeadingSpaces l = t :: r -> isSpace t = false.
Proof.
  induction l as [|[text kind] l IH]; simpl; [discriminate|].
  destruct kind; try (intros H; inversion H; subst; reflexivity). exact IH.
Qed.

Lemma dropLeadingSpaces_length l :
  List.length (dropLeadingSpaces l) <= List.length l.
Proof.
  induction l as [|[text kind] l IH]; simpl; [lia|].
  destruct kind; simpl; lia.
Qed.

Lemma last_firstn {A} (l : list A) n d x :
  nth_error l n = Some x -> last (firstn (S n) l) d = x.
Proof.
  revert l. induction n as [|n IH]; intros [|y l] H; try discriminate.
  - simpl in H. inversion H. reflexivity.
  - simpl in H. specialize (IH l H).
    change (firstn (S (S n)) (y :: l)) with (y :: firstn (S n) l).
    destruct (firstn (S n) l) eqn:E; [|exact IH].
    destruct l; [destruct n; discriminate|discriminate].
Qed.

(** One written line: what [findCut] selects from the buffer. *)
Lemma cut_line indentCol t l0 cut done :
  isSpace t = false ->
  findCut theMargin indentCol (t :: l0) = (cut, done) ->
  let line := firstn (Z.to_nat (cut + 1)) (t :: l0) in
  noOuterSpace line = true
  /\ within false indentCol line = true
  /\ (hasNormal (t :: l0) = true ->
      exists more, line = atomicPrefix (t :: l0) ++ more)
  /\ 1 <= Z.to_nat (cut + 1).
Proof.
  intros Ht H line.
  destruct (findCut_spec indentCol t l0 (t :: l0) cut done eq_refl Ht H)
    as ((H0 & x & Hx & Hsx) & Hlt & Hw & Ha).
  split; [|split; [exact Hw|split; [exact Ha|lia]]].
  unfold line. replace (Z.to_nat (cut + 1)) with (S (Z.to_nat cut)) by lia.
  unfold noOuterSpace. cbn [firstn]. rewrite Ht. cbn [negb andb].
  change (t :: firstn (Z.to_nat cut) l0)
    with (firstn (S (Z.to_nat cut)) (t :: l0)).
  rewrite (last_firstn (t :: l0) (Z.to_nat cut) t x Hx). now rewrite Hsx.
Qed.

Lemma fillLines_total fuel indentCol : forall buffer,
  List.length buffer < fuel ->
  exists lines rest, fillLines theMargin fuel indentCol buffer = Some (lines, rest).
Proof.
  induction fuel as [|n IH]; intros buffer Hlen; [lia|].
  cbn [fillLines].
  pose proof (dropLeadingSpaces_length buffer) as Hd.
  destruct (dropLeadingSpaces buffer) as [|t l0] eqn:E; [eauto|].
  destruct (findCut theMargin indentCol (t :: l0)) as [cut done] eqn:Ec.
  destruct (cut_line indentCol t l0 cut done
              (dropLeadingSpaces_head _ _ _ E) Ec) as (_ & _ & _ & Hc).
  destruct done; [eauto|].
  destruct (IH (skipn (Z.to_nat (cut + 1)) (t :: l0))) as (lines & rest & ->).
  - rewrite length_skipn. unfold Token in *. cbn [List.length] in *. lia.
  - eauto.
Qed.

Lemma fillLines_lines fuel indentCol : forall buffer lines rest,
  fillLines theMargin fuel indentCol buffer = Some (lines, rest) ->
  (forall toks, In (TextLine toks) lines ->
     noOuterSpace toks = true /\ within false indentCol toks = true)
  /\ (forall toks others, lines = TextLine toks :: others ->
        hasNormal (dropLeadingSpaces buffer) = true ->
        exists more, toks = atomicPrefix (dropLeadingSpaces buffer) ++ more).
Proof.
  induction fuel as [|n IH]; intros buffer lines rest H; [discriminate|].
  cbn [fillLines] in H.
  destruct (dropLeadingSpaces buffer) as [|t l0] eqn:E.
  { inversion H; subst. split.
    - intros toks [Hin|[]]. discriminate.
    - intros toks others Hl. discriminate. }
  destruct (findCut theMargin indentCol (t :: l0)) as [cut done] eqn:Ec.
  destruct (cut_line indentCol t l0 cut done
              (dropLeadingSpaces_head _ _ _ E) Ec) as (Hs & Hw & Ha & _).
  destruct done.
  - inversion H; subst. split.
    + intros toks [Hin|[]]. inversion Hin; subst. auto.
    + intros toks others Hl. inversion Hl; subst. exact Ha.
  - destruct (fillLines theMargin n indentCol _) as [[lines' rest']|] eqn:En;
      [|discriminate].
    inversion H; subst. destruct (IH _ _ _ En) as [IH1 _]. split.
    + intros toks [Hin|Hin]; [inversion Hin; subst; auto|auto].
    + intros toks others Hl. inversion Hl; subst. exact Ha.
Qed.
End LineFacts.


(** ** What [emitNewline] and [flush] keep *)

Section CutFacts.
Variable theMargin : nat.

Lemma width_cons t (l : list Token) : width (t :: l) = String.length (fst t) + width l.
Proof. reflexivity. Qed.

Lemma width_app (a b : list Token) : width (a ++ b) = width a + width b.
Proof.
  induction a as [|t a IH]; [reflexivity|].
  cbn [app]. rewrite !width_cons, IH. lia.
Qed.

Lemma lastNonSpaceFrom_app a : forall b pos acc,
  lastNonSpaceFrom (a ++ b) pos acc
  = lastNonSpaceFrom b (pos + List.length a) (lastNonSpaceFrom a pos acc).
Proof.
  induction a as [|t a IH]; intros b pos acc; cbn [app lastNonSpaceFrom List.length].
  - now rewrite Nat.add_0_r.
  - rewrite IH. f_equal. lia.
Qed.

Lemma firstRun_reads l : forall gotNormal pos lns col rest pos' lns' col',
  firstRun l gotNormal pos lns col = (rest, pos', lns', col') ->
  exists consumed,
    l = consumed ++ rest
    /\ pos' = pos + List.length consumed
    /\ lns' = lastNonSpaceFrom consumed pos lns
    /\ col' = col + width consumed.
Proof.
  induction l as [|[text kind] l IH];
    intros gotNormal pos lns col rest pos' lns' col' H.
  - inversion H; subst. exists []. cbn. repeat split; lia.
  - cbn [firstRun] in H.
    destruct (gotNormal && negb (tokenKind_eqb kind Trailing)).
    + inversion H; subst. exists []. cbn. repeat split; lia.
    + apply IH in H. destruct H as (consumed & -> & -> & -> & ->).
      exists ((text, kind) :: consumed).
      cbn [app List.length lastNonSpaceFrom]. rewrite width_cons.
      unfold isSpace. cbn [fst snd]. repeat split; lia.
Qed.

Lemma extend_at_end l : forall pos lwp lns lnt col lwp' lns',
  extend theMargin l pos lwp lns lnt col = (true, lwp', lns') ->
  lns' = lastNonSpaceFrom l pos lns.
Proof.
  induction l as [|[text kind] l IH]; intros pos lwp lns lnt col lwp' lns' H.
  - inversion H; reflexivity.
  - cbn [extend] in H. cbn [lastNonSpaceFrom]. unfold isSpace. cbn [snd].
    destruct kind; cbn [tokenKind_eqb].
    + now apply IH in H.
    + destruct (Nat.ltb theMargin (col + String.length text)); [discriminate|].
      now apply IH in H.
    + destruct lnt; now apply IH in H.
    + now apply IH in H.
Qed.

Lemma extend_fits l : forall pos lwp lns lnt col,
  col + width l <= theMargin ->
  exists lwp' lns', extend theMargin l pos lwp lns lnt col = (true, lwp', lns').
Proof.
  induction l as [|[text kind] l IH]; intros pos lwp lns lnt col Hfit.
  - do 2 eexists. reflexivity.
  - rewrite width_cons in Hfit. cbn [fst] in Hfit. cbn [extend].
    assert (Hrest : col + String.length text + width l <= theMargin) by lia.
    destruct kind.
    + apply IH. exact Hrest.
    + replace (Nat.ltb theMargin (col + String.length text)) with false.
      * apply IH. exact Hrest.
      * symmetry. apply Nat.ltb_ge. lia.
    + destruct lnt; apply IH; exact Hrest.
    + apply IH. exact Hrest.
Qed.

(** When the second loop reaches the end of the buffer, the cut is the
    last token that is not a space. *)
Lemma findCut_done indentCol l cut :
  findCut theMargin indentCol l = (cut, true) ->
  cut = lastNonSpaceFrom l 0 (-1).
Proof.
  unfold findCut.
  destruct (firstRun l false 0 (-1) indentCol) as [[[rest pos] lns] col] eqn:E1.
  destruct (extend theMargin rest pos lns lns false col)
    as [[atEnd lwp'] lns'] eqn:E2.
  destruct atEnd; [|discriminate]. intros H; inversion H; subst cut.
  apply firstRun_reads in E1. destruct E1 as (consumed & -> & -> & -> & ->).
  apply extend_at_end in E2. rewrite lastNonSpaceFrom_app. exact E2.
Qed.

Lemma findCut_fits indentCol l :
  indentCol + width l <= theMargin ->
  findCut theMargin indentCol l = (lastNonSpaceFrom l 0 (-1), true).
Proof.
  intros Hfit. unfold findCut.
  destruct (firstRun l false 0 (-1) indentCol) as [[[rest pos] lns] col] eqn:E1.
  pose proof (firstRun_reads _ _ _ _ _ _ _ _ _ E1) as (consumed & -> & -> & -> & ->).
  rewrite width_app in Hfit.
  destruct (extend_fits rest (0 + List.length consumed)
              (lastNonSpaceFrom consumed 0 (-1)) (lastNonSpaceFrom consumed 0 (-1))
              false (indentCol + width consumed)) as (lwp' & lns' & E2); [lia|].
  rewrite E2. apply extend_at_end in E2. subst lns'.
  now rewrite lastNonSpaceFrom_app.
Qed.
End CutFacts.

Lemma trimEnd_split l :
  exists spaces, l = trimEnd l ++ spaces /\ forallb isSpace spaces = true.
Proof.
  induction l as [|t l (spaces & Hl & Hs)]; [exists []; auto|].
  cbn [trimEnd]. destruct (trimEnd l) as [|x r'] eqn:E.
  - destruct (isSpace t) eqn:Et.
    + exists (t :: spaces). cbn [app forallb]. rewrite Et, Hs.
      split; [|reflexivity]. f_equal. exact Hl.
    + exists spaces. split; [|exact Hs]. cbn [app]. f_equal. exact Hl.
  - exists spaces. split; [|exact Hs]. cbn [app]. f_equal. exact Hl.
Qed.

Lemma lastNonSpaceFrom_trimEnd l : forall pos acc,
  lastNonSpaceFrom l pos acc
  = match trimEnd l with
    | [] => acc
    | _ => (Z.of_nat (pos + List.length (trimEnd l)) - 1)%Z
    end.
Proof.
  induction l as [|t l IH]; intros pos acc; [reflexivity|].
  cbn [lastNonSpaceFrom trimEnd]. rewrite IH.
  destruct (trimEnd l) as [|x r'] eqn:E.
  - destruct (isSpace t); [reflexivity|]. cbn [List.length]. lia.
  - cbn [List.length]. lia.
Qed.

Lemma trimEnd_nonempty t l : isSpace t = false -> trimEnd (t :: l) <> [].
Proof.
  intros Ht. cbn [trimEnd]. destruct (trimEnd l); [rewrite Ht|]; discriminate.
Qed.

Lemma nonSpaces_app a b : nonSpaces (a ++ b) = nonSpaces a ++ nonSpaces b.
Proof. apply filter_app. Qed.

Lemma nonSpaces_spaces l : forallb isSpace l = true -> nonSpaces l = [].
Proof.
  induction l as [|t l IH]; [reflexivity|]. cbn [forallb nonSpaces filter].
  intros H. apply andb_true_iff in H. destruct H as [Ht Hl].
  rewrite Ht. cbn [negb]. now apply IH.
Qed.

Lemma nonSpaces_dropLeadingSpaces l : nonSpaces (dropLeadingSpaces l) = nonSpaces l.
Proof.
  induction l as [|[text kind] l IH]; [reflexivity|].
  destruct kind; try reflexivity. exact IH.
Qed.

(** What a cut at the end of the buffer writes and leaves. *)
Lemma cut_at_end t l0 :
  isSpace t = false ->
  let count := Z.to_nat (lastNonSpaceFrom (t :: l0) 0 (-1) + 1) in
  firstn count (t :: l0) = trimEnd (t :: l0)
  /\ forallb isSpace (skipn count (t :: l0)) = true.
Proof.
  intros Ht count.
  destruct (trimEnd_split (t :: l0)) as (spaces & Hl & Hs).
  pose proof (trimEnd_nonempty t l0 Ht) as Hne.
  assert (Hc : count = List.length (trimEnd (t :: l0))).
  { unfold count. rewrite lastNonSpaceFrom_trimEnd.
    destruct (trimEnd (t :: l0)); [congruence|]. cbn [List.length]. lia. }
  rewrite Hc. clear Hc count Hne.
  remember (trimEnd (t :: l0)) as T eqn:ET. clear ET. rewrite Hl.
  rewrite firstn_app, Nat.sub_diag, firstn_all. cbn [firstn].
  rewrite app_nil_r. split; [reflexivity|].
  rewrite skipn_app, Nat.sub_diag, skipn_all. exact Hs.
Qed.

Section Preservation.
Variable theMargin : nat.

(** No token other than a space is lost, repeated or moved. *)
Lemma fillLines_preserves fuel indentCol : forall buffer lines rest,
  fillLines theMargin fuel indentCol buffer = Some (lines, rest) ->
  nonSpaces (flat_map lineTokens lines) = nonSpaces buffer
  /\ forallb isSpace rest = true.
Proof.
  induction fuel as [|n IH]; intros buffer lines rest H; [discriminate|].
  cbn [fillLines] in H. rewrite <- (nonSpaces_dropLeadingSpaces buffer).
  destruct (dropLeadingSpaces buffer) as [|t l0] eqn:E.
  { inversion H; subst. split; reflexivity. }
  pose proof (dropLeadingSpaces_head _ _ _ E) as Ht.
  destruct (findCut theMargin indentCol (t :: l0)) as [cut done] eqn:Ec.
  destruct done.
  - apply findCut_done in Ec. subst cut. inversion H; subst. clear H.
    destruct (cut_at_end t l0 Ht) as [Hline Hrest]. split; [|exact Hrest].
    cbn [flat_map lineTokens]. rewrite app_nil_r.
    rewrite <- (firstn_skipn (Z.to_nat (lastNonSpaceFrom (t :: l0) 0 (-1) + 1))
                             (t :: l0)) at 2.
    rewrite nonSpaces_app, (nonSpaces_spaces _ Hrest). now rewrite app_nil_r.
  - destruct (fillLines theMargin n indentCol _) as [[lines' rest']|] eqn:En;
      [|discriminate].
    inversion H; subst. clear H. destruct (IH _ _ _ En) as [IH1 IH2].
    split; [|exact IH2].
    cbn [flat_map lineTokens]. rewrite nonSpaces_app, IH1, <- nonSpaces_app.
    now rewrite firstn_skipn.
Qed.

(** A buffer that fits is written as one line. *)
Lemma fillLines_fits fuel indentCol buffer t l0 :
  dropLeadingSpaces buffer = t :: l0 ->
  indentCol + width (t :: l0) <= theMargin ->
  exists rest,
    fillLines theMargin (S fuel) indentCol buffer
    = Some ([TextLine (trimEnd (t :: l0))], rest)
    /\ t :: l0 = trimEnd (t :: l0) ++ rest
    /\ forallb isSpace rest = true.
Proof.
  intros E Hfit. cbn [fillLines]. rewrite E.
  rewrite (findCut_fits theMargin indentCol (t :: l0) Hfit).
  pose proof (dropLeadingSpaces_head _ _ _ E) as Ht.
  destruct (cut_at_end t l0 Ht) as [Hline Hrest].
  eexists. split; [now rewrite Hline|]. split; [|exact Hrest].
  rewrite <- Hline. symmetry. apply firstn_skipn.
Qed.
End Preservation.

Lemma emitNewline_fillLines f lines rest :
  (0 <= indent f)%Z ->
  fillLines (margin f) (S (List.length (tokens f))) (indentColumn f) (tokens f)
  = Some (lines, rest) ->
  emitNewline f
  = Ok (mkFormatter (written f ++ map (render (indentation f)) lines)
                    (indentChar f) (indentMultiple f) (margin f) (indent f) rest).
Proof.
  intros Hind E. unfold emitNewline.
  assert (Hc : (indentCount f <? 0)%Z = false).
  { apply Z.ltb_ge. unfold indentCount. lia. }
  rewrite Hc. fold (indentColumn f). rewrite E.
  destruct (dropLeadingSpaces (tokens f)) eqn:Ed; [|reflexivity].
  cbn [fillLines] in E. rewrite Ed in E. inversion E; subst. reflexivity.
Qed.

(** X18.  With a non-negative indent, [emitNewline] loses,
    duplicates and reorders no token: the tokens of the lines it writes,
    read in order, are the buffered tokens that are not spaces plus some of
    the spaces that stood between them.  What stays in the buffer are
    space tokens only. *)
Theorem emitNewline_keeps_tokens f :
  (0 <= indent f)%Z ->
  exists lines rest,
    emitNewline f
    = Ok (mkFormatter (written f ++ map (render (indentation f)) lines)
                      (indentChar f) (indentMultiple f) (margin f) (indent f) rest)
    /\ nonSpaces (flat_map lineTokens lines) = nonSpaces (tokens f)
    /\ forallb isSpace rest = true.
Proof.
  intros Hind.
  destruct (fillLines_total (margin f) (S (List.length (tokens f))) (indentColumn f)
                            (tokens f)) as (lines & rest & E); [lia|].
  exists lines, rest. split; [now apply emitNewline_fillLines|].
  exact (fillLines_preserves _ _ _ _ _ _ E).
Qed.

(** X19.  When the buffer without its leading spaces, at its
    indentation, is not wider than the margin, [emitNewline] writes exactly
    one line: the indentation and all buffered tokens but the spaces at
    both ends.  The spaces after the last other token stay in the
    buffer. *)
Theorem short_buffer_one_line f t l0 :
  (0 <= indent f)%Z ->
  dropLeadingSpaces (tokens f) = t :: l0 ->
  indentColumn f + width (t :: l0) <= margin f ->
  exists rest,
    emitNewline f
    = Ok (mkFormatter
            (written f ++ [render (indentation f) (TextLine (trimEnd (t :: l0)))])
            (indentChar f) (indentMultiple f) (margin f) (indent f) rest)
    /\ t :: l0 = trimEnd (t :: l0) ++ rest
    /\ forallb isSpace rest = true.
Proof.
  intros Hind Ed Hfit.
  destruct (fillLines_fits (margin f) (List.length (tokens f)) (indentColumn f)
                           (tokens f) t l0 Ed Hfit) as (rest & E & Hl & Hs).
  exists rest. split; [|auto].
  now rewrite (emitNewline_fillLines f _ _ Hind E).
Qed.

Lemma dropLeadingSpaces_spaces l : forallb isSpace l = true -> dropLeadingSpaces l = [].
Proof.
  induction l as [|[text kind] l IH]; [reflexivity|]. cbn [forallb].
  intros H. apply andb_true_iff in H. destruct H as [Ht Hl].
  destruct kind; try discriminate. cbn [dropLeadingSpaces]. auto.
Qed.

(** X20.  With a non-negative indent, [flush] returns and
    leaves only space tokens in the buffer, possibly some: it does not
    always empty it.  A second [flush] empties the buffer, writing a bare
    line break when spaces had stayed and nothing otherwise, and further
    calls change nothing. *)
Theorem flush_settles f :
  (0 <= indent f)%Z ->
  exists f1 f2,
    flush f = Ok f1
    /\ forallb isSpace (tokens f1) = true
    /\ flush f1 = Ok f2
    /\ tokens f2 = []
    /\ written f2
       = written f1 ++ match tokens f1 with
                       | [] => []
                       | _ => [render "" EmptyLine]
                       end
    /\ flush f2 = Ok f2.
Proof.
  intros Hind.
  assert (Second : forall f1, forallb isSpace (tokens f1) = true ->
    exists f2, flush f1 = Ok f2 /\ tokens f2 = []
      /\ written f2 = written f1 ++ match tokens f1 with
                                    | [] => []
                                    | _ => [render "" EmptyLine]
                                    end
      /\ flush f2 = Ok f2).
  { intros f1 Hs. unfold flush at 1. destruct (tokens f1) as [|x r] eqn:E.
    - exists f1. rewrite app_nil_r. unfold flush. rewrite E. auto.
    - unfold emitNewline. rewrite E.
      rewrite (dropLeadingSpaces_spaces _ Hs).
      eexists. split; [reflexivity|]. cbn [tokens written]. repeat split. }
  unfold flush at 1. destruct (tokens f) as [|x r] eqn:E.
  - destruct (Second f) as (f2 & H); [now rewrite E|].
    exists f, f2. rewrite E in *. split; [reflexivity|]. split; [reflexivity|exact H].
  - destruct (fillLines_total (margin f) (S (List.length (tokens f))) (indentColumn f)
                              (tokens f)) as (lines & rest & Ef); [lia|].
    destruct (fillLines_preserves _ _ _ _ _ _ Ef) as [_ Hs].
    rewrite (emitNewline_fillLines f _ _ Hind Ef).

    destruct (Second (mkFormatter (written f ++ map (render (indentation f)) lines)
                        (indentChar f) (indentMultiple f) (margin f) (indent f) rest))
      as (f2 & H); [exact Hs|].
    do 2 eexists. split; [reflexivity|]. split; [exact Hs|exact H].
Qed.

Lemma emitNewline_keeps_tokens_witness :
  (0 <= indent overfullFormatter)%Z
  /\ exists lines rest,
      emitNewline overfullFormatter
      = Ok (mkFormatter
              (written overfullFormatter
               ++ map (render (indentation overfullFormatter)) lines)
              " " 2 10 0 rest)
      /\ nonSpaces (flat_map lineTokens lines)
         = nonSpaces (tokens overfullFormatter)
      /\ forallb isSpace rest = true.
Proof.
  split; [simpl; lia|].
  apply (emitNewline_keeps_tokens overfullFormatter). simpl. lia.
Defined.

Lemma short_buffer_one_line_witness :
  exists rest,
    emitNewline fittingFormatter
    = Ok (mkFormatter
            [render "" (TextLine [("aaaa", Normal); (" ", Space); ("bbbb", Normal)])]
            " " 2 10 0 rest)
    /\ [("aaaa", Normal); (" ", Space); ("bbbb", Normal); (" ", Space)]
       = [("aaaa", Normal); (" ", Space); ("bbbb", Normal)] ++ rest
    /\ forallb isSpace rest = true.
Proof.
  apply (short_buffer_one_line fittingFormatter ("aaaa", Normal)
           [(" ", Space); ("bbbb", Normal); (" ", Space)]).
  - simpl. lia.
  - reflexivity.
  - vm_compute. lia.
Defined.

Lemma flush_settles_witness :
  (0 <= indent fittingFormatter)%Z
  /\ exists f1 f2,
      flush fittingFormatter = Ok f1
      /\ forallb isSpace (tokens f1) = true
      /\ flush f1 = Ok f2
      /\ tokens f2 = []
      /\ written f2
         = written f1 ++ match tokens f1 with
                         | [] => []
                         | _ => [render "" EmptyLine]
                         end
      /\ flush f2 = Ok f2.
Proof.
  split; [simpl; lia|].
  apply (flush_settles fittingFormatter). simpl. lia.
Defined.

Lemma dropLeadingSpaces_nil_iff l :
  dropLeadingSpaces l = [] <-> forallb isSpace l = true.
Proof.
  split; [|apply dropLeadingSpaces_spaces].
  induction l as [|[text kind] l IH]; [reflexivity|].
  cbn [dropLeadingSpaces forallb]. unfold isSpace at 1. cbn [snd].
  destruct kind; try discriminate. intros H. now rewrite (IH H).
Qed.

(** X22.  [decIndent] is not checked and can take the
    indent below zero.  With a negative indent, [emitNewline] throws a
    RangeError as soon as a token other than a space is buffered, before
    anything is written; a buffer of spaces only, or an empty one, still
    gives a bare line break and an empty buffer. *)
Theorem negative_indent_throws f :
  (indent f < 0)%Z ->
  0 < indentMultiple f ->
  emitNewline f
  = (if forallb isSpace (tokens f)
     then Ok (mkFormatter (written f ++ [render "" EmptyLine])
                          (indentChar f) (indentMultiple f) (margin f) (indent f) [])
     else Throws RangeError)
  /\ indent (decIndent f) = (indent f - 1)%Z
  /\ tokens (decIndent f) = tokens f.
Proof.
  intros Hneg Hmul. split; [|split; reflexivity].
  unfold emitNewline.
  destruct (dropLeadingSpaces (tokens f)) as [|t l0] eqn:Ed.
  - apply dropLeadingSpaces_nil_iff in Ed. now rewrite Ed.
  - assert (Hs : forallb isSpace (tokens f) = false).
    { destruct (forallb isSpace (tokens f)) eqn:E; [|reflexivity].
      apply dropLeadingSpaces_nil_iff in E. congruence. }
    rewrite Hs.
    assert (Hc : (indentCount f <? 0)%Z = true).
    { apply Z.ltb_lt. unfold indentCount. nia. }
    now rewrite Hc.
Qed.

Lemma negative_indent_throws_witness :
  emitNewline outdentedFormatter = Throws RangeError
  /\ indent (decIndent outdentedFormatter) = (-2)%Z
  /\ tokens (decIndent outdentedFormatter) = [("x", Normal)].
Proof.
  apply (negative_indent_throws outdentedFormatter).
  - vm_compute. reflexivity.
  - vm_compute. lia.
Defined.

(** ** The lines of one call *)

Section Cuts.
Variable theMargin : nat.

Lemma noNormal_snoc gap t :
  noNormal gap = true -> isNormal t = false -> noNormal (gap ++ [t]) = true.
Proof.
  unfold noNormal. intros H Ht. rewrite forallb_app, H. cbn. now rewrite Ht.
Qed.

Lemma notTrailingFirst_snoc gap t :
  notTrailingFirst gap = true ->
  (gap = [] -> tokenKind_eqb (snd t) Trailing = false) ->
  notTrailingFirst (gap ++ [t]) = true.
Proof.
  destruct gap as [|x gap]; cbn; [|auto]. intros _ H. now rewrite H.
Qed.

Lemma extend_break l : forall kept gap lns lnt col lwp' lns',
  extend theMargin l (List.length (kept ++ gap))
         (Z.of_nat (List.length kept) - 1) lns lnt col = (false, lwp', lns') ->
  gapInv gap lnt l ->
  exists consumed kept' gap' next rest,
    l = consumed ++ next :: rest
    /\ kept ++ gap ++ consumed = kept' ++ gap'
    /\ lwp' = (Z.of_nat (List.length kept') - 1)%Z
    /\ isNormal next = true
    /\ noNormal gap' = true
    /\ notTrailingFirst (gap' ++ [next]) = true
    /\ theMargin < col + width consumed + String.length (fst next).
Proof.
  induction l as [|[text kind] l IH]; intros kept gap lns lnt col lwp' lns' H Inv.
  - discriminate.
  - cbn [extend] in H. destruct Inv as (Hn & Hf & Hl).
    assert (Hlen : forall k, S (List.length (kept ++ gap))
                             = List.length (kept ++ (gap ++ [(text, k)]))).
    { intros k. rewrite !length_app. cbn. lia. }
    assert (Accept : forall k lns0,
      extend theMargin l (S (List.length (kept ++ gap)))
             (Z.of_nat (List.length (kept ++ gap))) lns0 true
             (col + String.length text) = (false, lwp', lns') ->
      exists consumed kept' gap' next rest,
        (text, k) :: l = consumed ++ next :: rest
        /\ kept ++ gap ++ consumed = kept' ++ gap'
        /\ lwp' = (Z.of_nat (List.length kept') - 1)%Z
        /\ isNormal next = true
        /\ noNormal gap' = true
        /\ notTrailingFirst (gap' ++ [next]) = true
        /\ theMargin < col + width consumed + String.length (fst next)).
    { intros k lns0 E.
      destruct (IH ((kept ++ gap) ++ [(text, k)]) [] lns0 true
                   (col + String.length text) lwp' lns')
        as (consumed & kept' & gap' & next & rest & E1 & E2 & E3 & E4 & E5 & E6 & E7).
      - rewrite app_nil_r. rewrite (length_app (kept ++ gap)). cbn [List.length].
        replace (List.length (kept ++ gap) + 1) with (S (List.length (kept ++ gap)))
          by lia.
        replace (Z.of_nat (S (List.length (kept ++ gap))) - 1)%Z
          with (Z.of_nat (List.length (kept ++ gap))) by lia.
        exact E.
      - repeat split; reflexivity.
      - exists ((text, k) :: consumed), kept', gap', next, rest.
        rewrite E1. repeat split; auto.
        + rewrite <- E2. cbn [app]. rewrite <- !app_assoc. reflexivity.
        + rewrite width_cons. cbn [fst]. lia. }
    assert (Skip : forall k lns0,
      isNormal (text, k) = false ->
      (gap = [] -> tokenKind_eqb k Trailing = false) ->
      extend theMargin l (S (List.length (kept ++ gap)))
             (Z.of_nat (List.length kept) - 1) lns0 false
             (col + String.length text) = (false, lwp', lns') ->
      exists consumed kept' gap' next rest,
        (text, k) :: l = consumed ++ next :: rest
        /\ kept ++ gap ++ consumed = kept' ++ gap'
        /\ lwp' = (Z.of_nat (List.length kept') - 1)%Z
        /\ isNormal next = true
        /\ noNormal gap' = true
        /\ notTrailingFirst (gap' ++ [next]) = true
        /\ theMargin < col + width consumed + String.length (fst next)).
    { intros k lns0 Hk Hg E. rewrite (Hlen k) in E.
      destruct (IH kept (gap ++ [(text, k)]) lns0 false
                   (col + String.length text) lwp' lns' E)
        as (consumed & kept' & gap' & next & rest & E1 & E2 & E3 & E4 & E5 & E6 & E7).
      - split; [now apply noNormal_snoc|]. split.
        + apply notTrailingFirst_snoc; auto.
        + left. now destruct gap.
      - exists ((text, k) :: consumed), kept', gap', next, rest.
        rewrite E1. repeat split; auto.
        + rewrite <- E2. cbn [app]. rewrite <- !app_assoc. reflexivity.
        + rewrite width_cons. cbn [fst]. lia. }
    destruct kind.
    + (* Leading *) exact (Skip Leading _ eq_refl (fun _ => eq_refl) H).
    + (* Normal *)
      destruct (Nat.ltb theMargin (col + String.length text)) eqn:Em.
      * inversion H; subst. apply Nat.ltb_lt in Em.
        exists [], kept, gap, (text, Normal), l.
        rewrite app_nil_r. repeat split; auto.
        -- destruct gap; [reflexivity|exact Hf].
        -- unfold width. cbn. lia.
      * exact (Accept Normal _ H).
    + (* Trailing *)
      destruct lnt.
      * exact (Accept Trailing _ H).
      * refine (Skip Trailing _ eq_refl _ H).
        intros ->. destruct Hl as [Hl|Hl]; [congruence|]. cbn in Hl.
        discriminate.
    + (* Space *) exact (Skip Space _ eq_refl (fun _ => eq_refl) H).
Qed.

Lemma atomicPrefix_all l : hasNormal l = false -> atomicPrefix l = l.
Proof.
  induction l as [|[text kind] l IH]; [reflexivity|].
  unfold hasNormal. cbn [existsb]. unfold isNormal at 1. cbn [snd].
  destruct kind; cbn [tokenKind_eqb orb atomicPrefix]; try discriminate;
    intros H; f_equal; now apply IH.
Qed.

Lemma trailingRun_rest l :
  exists rest, l = trailingRun l ++ rest /\ notTrailingFirst rest = true.
Proof.
  induction l as [|[text kind] l IH]; [exists []; auto|].
  destruct kind;
    [exists ((text, Leading) :: l); split; reflexivity
    |exists ((text, Normal) :: l); split; reflexivity
    |
    |exists ((text, Space) :: l); split; reflexivity].
  destruct IH as (rest & E & H). exists rest. cbn [trailingRun app].
  split; [now rewrite <- E|exact H].
Qed.

Lemma atomicPrefix_rest l :
  hasNormal l = true ->
  exists rest, l = atomicPrefix l ++ rest /\ notTrailingFirst rest = true.
Proof.
  induction l as [|[text kind] l IH]; [discriminate|].
  unfold hasNormal. cbn [existsb]. unfold isNormal at 1. cbn [snd].
  destruct kind; cbn [tokenKind_eqb orb atomicPrefix]; intros H;
    try (destruct (IH H) as (rest & E & Hr); exists rest;
         split; [cbn [app]; now rewrite <- E|exact Hr]).
  destruct (trailingRun_rest l) as (rest & E & Hr). exists rest.
  split; [cbn [app]; now rewrite <- E|exact Hr].
Qed.

(** A line that is not the last one is followed by a normal token that
    does not fit. *)
Lemma findCut_break indentCol l cut :
  findCut theMargin indentCol l = (cut, false) ->
  let count := Z.to_nat (cut + 1) in
  exists gap next rest,
    skipn count l = gap ++ next :: rest
    /\ isNormal next = true
    /\ noNormal gap = true
    /\ notTrailingFirst (gap ++ [next]) = true
    /\ theMargin < indentCol + width (firstn count l) + width gap
                   + String.length (fst next).
Proof.
  unfold findCut.
  destruct (firstRun l false 0 (-1) indentCol) as [[[rest pos] lns] col] eqn:E1.
  destruct (extend theMargin rest pos lns lns false col)
    as [[atEnd lwp'] lns'] eqn:E2.
  destruct atEnd; [discriminate|]. intros H; inversion H; subst lwp'. clear H.
  destruct (firstRun_atomic theMargin l [] _ _ _ _ _ _ E1)
    as (Hl & Hpos & Hcol & _ & _ & _ & _ & Hlast); [cbn; lia|now left|].
  cbn [List.length] in Hpos. cbn [Nat.add] in Hpos.
  destruct (hasNormal l) eqn:Hn.
  2:{ rewrite (atomicPrefix_all l Hn) in Hl.
      assert (rest = []).
      { rewrite <- (app_nil_r l) in Hl at 1. now apply app_inv_head in Hl. }
      subst rest. discriminate. }
  specialize (Hlast eq_refl).
  destruct (atomicPrefix_rest l Hn) as (rest0 & Hl0 & Hr0).
  assert (rest0 = rest).
  { rewrite Hl0 in Hl at 1. now apply app_inv_head in Hl. }
  subst rest0.
  set (pre := atomicPrefix l) in *.
  destruct (extend_break rest pre [] lns false col cut lns') as
    (consumed & kept' & gap' & next & rest' & R1 & R2 & R3 & R4 & R5 & R6 & R7).
  - rewrite app_nil_r. rewrite <- Hpos.
    replace (Z.of_nat pos - 1)%Z with lns by lia. exact E2.
  - split; [reflexivity|]. split; [reflexivity|]. now right.
  - cbn [app] in R2.
    assert (Hc : Z.to_nat (cut + 1) = List.length kept') by lia.
    assert (Hfull : l = kept' ++ gap' ++ next :: rest').
    { rewrite Hl, R1, app_assoc, R2, <- app_assoc. reflexivity. }
    exists gap', next, rest'.
    rewrite Hc, Hfull, skipn_app, firstn_app, Nat.sub_diag, skipn_all, firstn_all.
    cbn [skipn firstn app]. rewrite app_nil_r.
    repeat split; auto.
    assert (W : width pre + width consumed = width kept' + width gap').
    { rewrite <- !width_app, R2. reflexivity. }
    lia.
Qed.
End Cuts.

Section Lines.
Variable theMargin : nat.

Lemma spaces_notTrailingFirst l :
  forallb isSpace l = true -> notTrailingFirst l = true.
Proof.
  destruct l as [|[text kind] l]; [reflexivity|]. cbn [forallb].
  unfold isSpace at 1. cbn [snd notTrailingFirst].
  destruct kind; cbn; intros H; try discriminate; reflexivity.
Qed.

Lemma notTrailingFirst_app gap next rest :
  notTrailingFirst (gap ++ [next]) = true ->
  notTrailingFirst (gap ++ next :: rest) = true.
Proof. destruct gap; auto. Qed.

Lemma fillLines_nonempty fuel indentCol buffer lines rest :
  fillLines theMargin fuel indentCol buffer = Some (lines, rest) -> lines <> [].
Proof.
  destruct fuel as [|n]; [discriminate|]. cbn [fillLines].
  destruct (dropLeadingSpaces buffer) as [|t l0]; [intros E; inversion E; discriminate|].
  destruct (findCut theMargin indentCol (t :: l0)) as [cut done].
  destruct done; [intros E; inversion E; discriminate|].
  destruct (fillLines theMargin n indentCol _) as [[lines' rest']|]; [|discriminate].
  intros E; inversion E; discriminate.
Qed.

Lemma fillLines_wellCut fuel indentCol : forall buffer lines rest,
  fillLines theMargin fuel indentCol buffer = Some (lines, rest) ->
  allWellCut theMargin indentCol (lineBuffers buffer lines) lines.
Proof.
  induction fuel as [|n IH]; intros buffer lines rest H; [discriminate|].
  cbn [fillLines] in H.
  destruct (dropLeadingSpaces buffer) as [|t l0] eqn:E.
  { inversion H; subst. cbn [lineBuffers]. rewrite E. cbn. auto. }
  destruct (findCut theMargin indentCol (t :: l0)) as [cut done] eqn:Ec.
  pose proof (dropLeadingSpaces_head _ _ _ E) as Ht.
  destruct (cut_line theMargin indentCol t l0 cut done Ht Ec) as (Hs & Hw & Ha & Hc).
  destruct (findCut_spec theMargin indentCol t l0 (t :: l0) cut done eq_refl Ht Ec)
    as (_ & Hlt & _ & _).
  set (count := Z.to_nat (cut + 1)) in *.
  assert (Hlen : List.length (firstn count (t :: l0)) = count).
  { apply firstn_length_le. unfold count. lia. }
  assert (Hsplit : t :: l0 = firstn count (t :: l0) ++ skipn count (t :: l0))
    by (symmetry; apply firstn_skipn).
  destruct done.
  - inversion H; subst lines rest. clear H.
    cbn [lineBuffers allWellCut]. rewrite E.
    exists (skipn count (t :: l0)).
    assert (Hsp : forallb isSpace (skipn count (t :: l0)) = true).
    { pose proof (findCut_done theMargin indentCol _ _ Ec) as Hcut.
      unfold count. rewrite Hcut. exact (proj2 (cut_at_end t l0 Ht)). }
    repeat split; auto. now apply spaces_notTrailingFirst.
  - destruct (fillLines theMargin n indentCol (skipn count (t :: l0)))
      as [[lines' rest']|] eqn:En; [|discriminate].
    inversion H; subst lines rest'. clear H.
    pose proof (IH _ _ _ En) as IHl.
    pose proof (fillLines_nonempty _ _ _ _ _ En) as Hne.
    cbn [lineBuffers]. rewrite E. cbn [lineTokens]. rewrite Hlen.
    destruct lines' as [|line2 lines']; [congruence|].
    cbn [lineBuffers] in *. cbn [allWellCut].
    split; [|exact IHl].
    exists (skipn count (t :: l0)).
    destruct (findCut_break theMargin indentCol (t :: l0) cut Ec)
      as (gap & next & rest0 & B1 & B2 & B3 & B4 & B5).
    fold count in B1, B5.
    repeat split; auto.
    + rewrite B1. now apply notTrailingFirst_app.
    + exists gap, next, rest0. auto.
Qed.
End Lines.





End TokenBufferFacts.
